(** * Verification of the docstring generator's signature parser

    Shallow embedding of [spyder/plugins/editor/extensions/docstring.py]:
    the delimiter scanners, the argument splitter and classifier, the
    signature assembler [FunctionInfo.parse] and the numpy-style renderer
    [DocstringExtension._generate_numpy_doc].

    Modelling conventions.
    - A Python [str] is a [list ascii]: one code point below 256 per
      element.  Positions and lengths are Python ints, hence [Z]; the
      sentinel [-1] of [find]/[rfind] and negative slice bounds are kept.
    - A Python [dict] from positions to positions is a [gmap Z Z].
    - A raised exception is a value [Raise e] of type [result]; [None] is
      [option]'s [None].
    - An object mutated in place ([FunctionInfo]) is threaded explicitly:
      a method takes the object and returns the updated one. *)

From Stdlib Require Import ZArith Ascii String List Bool Lia.
From stdpp Require Import base option list gmap strings pretty.

Local Open Scope char_scope.
Local Open Scope Z_scope.

Abbreviation str := (list ascii).

(** Python string literal. *)
Definition py (s : string) : str := list_ascii_of_string s.

(** ** Exceptions *)

Inductive exn : Type :=
| IndexError (msg : str).

Inductive result (A : Type) : Type :=
| Ok (a : A)
| Raise (e : exn).
Arguments Ok {A} a.
Arguments Raise {A} e.

(** Sequencing: the first exception raised aborts the computation. *)
#[global] Instance result_ret : MRet result := fun _ a => Ok a.
#[global] Instance result_bind : MBind result := fun _ _ k r =>
  match r with
  | Ok a => k a
  | Raise e => Raise e
  end.

(** [str(n)] for an int. *)
Definition str_of_int (n : Z) : str := py (pretty n).

(** ** String primitives of Python used by the module *)

Module PyStr.

Definition len (s : str) : Z := Z.of_nat (length s).

(** Normalisation of a slice bound against a length [n]: a negative bound
    counts from the end, and every bound is clamped into [0, n]. *)
Definition clamp (n i : Z) : Z :=
  if i <? 0 then Z.max 0 (i + n) else Z.min i n.

(** [s[start:stop]] *)
Definition slice (s : str) (start stop : Z) : str :=
  let a := clamp (len s) start in
  let b := clamp (len s) stop in
  take (Z.to_nat (b - a)) (drop (Z.to_nat a) s).

(** [s[start:]] *)
Definition slice_from (s : str) (start : Z) : str :=
  drop (Z.to_nat (clamp (len s) start)) s.

(** [s[i]]: a negative index counts from the end; [None] stands for the
    [IndexError] of an index out of range. *)
Definition getitem (s : str) (i : Z) : option ascii :=
  let j := if i <? 0 then i + len s else i in
  if j <? 0 then None else s !! Z.to_nat j.

(** [c.isspace()] for a code point below 256. *)
Definition is_space (c : ascii) : bool :=
  let n := N_of_ascii c in
  (((9 <=? n) && (n <=? 13)) || ((28 <=? n) && (n <=? 32))
   || (n =? 133) || (n =? 160))%N.

Fixpoint lstrip (s : str) : str :=
  match s with
  | [] => []
  | c :: s' => if is_space c then lstrip s' else s
  end.

Definition rstrip (s : str) : str := rev (lstrip (rev s)).

Definition strip (s : str) : str := rstrip (lstrip s).

Fixpoint startswith (s p : str) : bool :=
  match p, s with
  | [], _ => true
  | _ :: _, [] => false
  | a :: p', b :: s' => Ascii.eqb a b && startswith s' p'
  end.

(** Lowest index [≥ i] at which [sub] occurs, [cs] being the text from
    position [i] on; [-1] when there is none. *)
Fixpoint find_in (sub cs : str) (i : Z) : Z :=
  if startswith cs sub then i
  else match cs with
       | [] => -1
       | _ :: cs' => find_in sub cs' (i + 1)
       end.

(** Highest such index. *)
Fixpoint rfind_in (sub cs : str) (i : Z) : Z :=
  let r := match cs with
           | [] => -1
           | _ :: cs' => rfind_in sub cs' (i + 1)
           end in
  if r =? -1 then (if startswith cs sub then i else -1) else r.

(** Normalisation of the [start] bound of [find] and [rfind]: a negative
    bound counts from the end; a bound beyond the length is kept, and then
    nothing is found. *)
Definition lower (n i : Z) : Z :=
  if i <? 0 then Z.max 0 (i + n) else i.

(** [s.find(sub, start, stop)]: the search is confined to [s[start:stop]]
    and the index returned is relative to [s]. *)
Definition find_between (s sub : str) (start stop : Z) : Z :=
  let a := lower (len s) start in
  let b := clamp (len s) stop in
  if b <? a then -1
  else find_in sub (take (Z.to_nat (b - a)) (drop (Z.to_nat a) s)) a.

(** [s.find(sub, start)] and [s.find(sub)] *)
Definition find_from (s sub : str) (start : Z) : Z :=
  find_between s sub start (len s).

Definition find (s sub : str) : Z := find_from s sub 0.

(** [s.rfind(sub, start, stop)] and [s.rfind(sub)] *)
Definition rfind_between (s sub : str) (start stop : Z) : Z :=
  let a := lower (len s) start in
  let b := clamp (len s) stop in
  if b <? a then -1
  else rfind_in sub (take (Z.to_nat (b - a)) (drop (Z.to_nat a) s)) a.

Definition rfind (s sub : str) : Z := rfind_between s sub 0 (len s).

(** [s.replace(old, new)]: occurrences are replaced left to right without
    overlap; [skip] counts the characters of a replaced occurrence still
    to be passed over. *)
Fixpoint replace_go (old new : str) (s : str) (skip : nat) : str :=
  match s with
  | [] => []
  | c :: s' =>
      match skip with
      | S k => replace_go old new s' k
      | O => if startswith s old
             then new ++ replace_go old new s' (length old - 1)
             else c :: replace_go old new s' 0
      end
  end.

Definition replace (s old new : str) : str :=
  match old with
  | [] => new ++ flat_map (fun c => c :: new) s
  | _ :: _ => replace_go old new s 0
  end.

(** [s * n] *)
Definition repeat_str (s : str) (n : Z) : str :=
  mjoin (replicate (Z.to_nat n) s).

(** Truth value of an optional string: [None] and [''] are false. *)
Definition truthy (o : option str) : bool :=
  match o with
  | Some (_ :: _) => true
  | _ => false
  end.

End PyStr.
Import PyStr.

(** Characters a Rocq literal cannot spell directly. *)
Definition dquote : ascii := "034".
Definition backslash : ascii := "092".
Definition LF : ascii := "010".
Definition CR : ascii := "013".

(** ** [is_start_of_function] *)

(** The argument is a [str], so the [isinstance] test succeeds. *)
Definition is_start_of_function (text : str) : bool :=
  let function_prefix := [py "def"; py "async def"] in
  let text := lstrip text in
  existsb (fun prefix => startswith text prefix) function_prefix.

(** ** [FunctionInfo] *)

Record FunctionInfo : Type := mkFunctionInfo {
  has_info : bool;
  func_text : str;
  args_text : str;
  n_indent : Z;
  arg_name_list : list str;
  arg_type_list : list (option str);
  arg_value_list : list (option str);
  return_type : option str
}.

(** Attribute assignments [self.x = v]. *)
Definition set_has_info (v : bool) (self : FunctionInfo) : FunctionInfo :=
  mkFunctionInfo v (func_text self) (args_text self) (n_indent self)
    (arg_name_list self) (arg_type_list self) (arg_value_list self)
    (return_type self).
Definition set_args_text (v : str) (self : FunctionInfo) : FunctionInfo :=
  mkFunctionInfo (has_info self) (func_text self) v (n_indent self)
    (arg_name_list self) (arg_type_list self) (arg_value_list self)
    (return_type self).
Definition set_n_indent (v : Z) (self : FunctionInfo) : FunctionInfo :=
  mkFunctionInfo (has_info self) (func_text self) (args_text self) v
    (arg_name_list self) (arg_type_list self) (arg_value_list self)
    (return_type self).
Definition set_arg_name_list (v : list str) (self : FunctionInfo)
  : FunctionInfo :=
  mkFunctionInfo (has_info self) (func_text self) (args_text self)
    (n_indent self) v (arg_type_list self) (arg_value_list self)
    (return_type self).
Definition set_arg_type_list (v : list (option str)) (self : FunctionInfo)
  : FunctionInfo :=
  mkFunctionInfo (has_info self) (func_text self) (args_text self)
    (n_indent self) (arg_name_list self) v (arg_value_list self)
    (return_type self).
Definition set_arg_value_list (v : list (option str)) (self : FunctionInfo)
  : FunctionInfo :=
  mkFunctionInfo (has_info self) (func_text self) (args_text self)
    (n_indent self) (arg_name_list self) (arg_type_list self) v
    (return_type self).
Definition set_return_type (v : option str) (self : FunctionInfo)
  : FunctionInfo :=
  mkFunctionInfo (has_info self) (func_text self) (args_text self)
    (n_indent self) (arg_name_list self) (arg_type_list self)
    (arg_value_list self) v.

(** [FunctionInfo.__init__]: every attribute is reset. *)
Definition __init__ : FunctionInfo :=
  mkFunctionInfo false [] [] 0 [] [] [] None.

(** ** Delimiter scanner *)

(** [is_char_in_pairs]: the loop over [pairs.items()] returns [True] at
    the first pair that strictly encloses [pos_char]; the answer does not
    depend on the order of iteration. *)
Definition is_char_in_pairs (pos_char : Z) (pairs : gmap Z Z) : bool :=
  existsb (fun '(pos_left, pos_right) =>
             (pos_left <? pos_char) && (pos_char <? pos_right))
          (map_to_list pairs).

(** [find_quote_position], the loop over [enumerate(text)].  [cs] is the
    part of [text] still to be read and [i] the index of its head.  The
    state is the dict [pos] and [opened]: [None] when
    [is_found_left_quote] is false, [Some (quote, left_pos)] otherwise.
    [text[i - 1]] is read only after a left quote was found, so [i ≥ 1]
    and the index is in range. *)
Fixpoint find_quote_loop (text : str) (i : Z) (cs : str) (pos : gmap Z Z)
    (opened : option (ascii * Z)) : gmap Z Z * option (ascii * Z) :=
  match cs with
  | [] => (pos, opened)
  | c :: cs' =>
      match opened with
      | None =>
          if Ascii.eqb c "'" || Ascii.eqb c dquote
          then find_quote_loop text (i + 1) cs' pos (Some (c, i))
          else find_quote_loop text (i + 1) cs' pos None
      | Some (quote, left_pos) =>
          if Ascii.eqb c quote
             && negb (bool_decide (getitem text (i - 1) = Some backslash))
          then find_quote_loop text (i + 1) cs' (<[left_pos := i]> pos) None
          else find_quote_loop text (i + 1) cs' pos opened
      end
  end.

Definition find_quote_position (text : str) : result (gmap Z Z) :=
  match find_quote_loop text 0 text ∅ None with
  | (_, Some (_, left_pos)) =>
      Raise (IndexError (py "No matching close quote at: "
                         ++ str_of_int left_pos))
  | (pos, None) => Ok pos
  end.

(** [find_bracket_position], the loop over [enumerate(text)].  The list
    [pstack] is kept with its last element first: [pstack.append(i)] is
    [i :: pstack] and [pstack.pop()] takes the head. *)
Fixpoint find_bracket_loop (bracket_left bracket_right : ascii)
    (pos_quote : gmap Z Z) (i : Z) (cs : str) (pos : gmap Z Z)
    (pstack : list Z) : result (gmap Z Z * list Z) :=
  match cs with
  | [] => Ok (pos, pstack)
  | c :: cs' =>
      if Ascii.eqb c bracket_left && negb (is_char_in_pairs i pos_quote)
      then find_bracket_loop bracket_left bracket_right pos_quote (i + 1)
             cs' pos (i :: pstack)
      else if Ascii.eqb c bracket_right
              && negb (is_char_in_pairs i pos_quote)
      then match pstack with
           | [] => Raise (IndexError (py "No matching closing parens at: "
                                      ++ str_of_int i))
           | top :: pstack' =>
               find_bracket_loop bracket_left bracket_right pos_quote
                 (i + 1) cs' (<[top := i]> pos) pstack'
           end
      else find_bracket_loop bracket_left bracket_right pos_quote (i + 1)
             cs' pos pstack
  end.

Definition find_bracket_position (text : str)
    (bracket_left bracket_right : ascii) (pos_quote : gmap Z Z)
  : result (gmap Z Z) :=
  '(pos, pstack) ← find_bracket_loop bracket_left bracket_right pos_quote
                      0 text ∅ [];
  match pstack with
  | top :: _ =>
      Raise (IndexError (py "No matching opening parens at: "
                         ++ str_of_int top))
  | [] => Ok pos
  end.

(** ** Argument classifier *)

(** Body of the loop of [split_arg_to_name_type_value]:
    [(arg_name, arg_type, arg_value)] for one [arg]. *)
Definition split_one_arg (arg : str) : str * option str * option str :=
  let pos_colon := find arg (py ":") in
  let pos_equal := find arg (py "=") in
  let has_value := -1 <? pos_equal in
  let has_type :=
    if -1 <? pos_colon
    then (if negb has_value then true else pos_colon <? pos_equal)
    else false in
  if has_value && has_type then
    (strip (slice arg 0 pos_colon),
     Some (strip (slice arg (pos_colon + 1) pos_equal)),
     Some (strip (slice_from arg (pos_equal + 1))))
  else if negb has_value && has_type then
    (strip (slice arg 0 pos_colon),
     Some (strip (slice_from arg (pos_colon + 1))),
     None)
  else if has_value && negb has_type then
    (strip (slice arg 0 pos_equal),
     None,
     Some (strip (slice_from arg (pos_equal + 1))))
  else (arg, None, None).

Fixpoint split_arg_to_name_type_value (self : FunctionInfo)
    (args_list : list str) : FunctionInfo :=
  match args_list with
  | [] => self
  | arg :: rest =>
      let '(arg_name, arg_type, arg_value) := split_one_arg arg in
      let self := set_arg_name_list (arg_name_list self ++ [arg_name]) self in
      let self := set_arg_type_list (arg_type_list self ++ [arg_type]) self in
      let self :=
        set_arg_value_list (arg_value_list self ++ [arg_value]) self in
      split_arg_to_name_type_value self rest
  end.

(** ** Argument splitter *)

(** The [while 1] loop of [split_args_text_to_list].  Each iteration
    moves [idx_find_start] past one more comma, so [fuel] iterations with
    [fuel] above the length of [args_text] always reach the [break]
    (lemma [split_loop_fuel]). *)
Fixpoint split_loop (fuel : nat) (args_text : str)
    (pos_round pos_curly pos_square pos_quote : gmap Z Z)
    (idx_find_start idx_arg_start : Z) (args_list : list str)
  : Z * list str :=
  match fuel with
  | O => (idx_arg_start, args_list)
  | S fuel' =>
      let pos_comma := find_from args_text (py ",") idx_find_start in
      if pos_comma =? -1 then (idx_arg_start, args_list)
      else
        let idx_find_start := pos_comma + 1 in
        if is_char_in_pairs pos_comma pos_round
           || is_char_in_pairs pos_comma pos_curly
           || is_char_in_pairs pos_comma pos_square
           || is_char_in_pairs pos_comma pos_quote
        then split_loop fuel' args_text pos_round pos_curly pos_square
               pos_quote idx_find_start idx_arg_start args_list
        else split_loop fuel' args_text pos_round pos_curly pos_square
               pos_quote idx_find_start (pos_comma + 1)
               (args_list ++ [slice args_text idx_arg_start pos_comma])
  end.

(** The four scans inside the [try] block. *)
Definition scan_delimiters (args_text : str)
  : result (gmap Z Z * gmap Z Z * gmap Z Z * gmap Z Z) :=
  pos_quote ← find_quote_position args_text;
  pos_round ← find_bracket_position args_text "(" ")" pos_quote;
  pos_curly ← find_bracket_position args_text "{" "}" pos_quote;
  pos_square ← find_bracket_position args_text "[" "]" pos_quote;
  Ok (pos_quote, pos_round, pos_curly, pos_square).

(** [split_args_text_to_list]; the result [None] is Python's [None]. *)
Definition split_args_text_to_list (args_text : str) : option (list str) :=
  match scan_delimiters args_text with
  | Raise (IndexError _) => None
  | Ok (pos_quote, pos_round, pos_curly, pos_square) =>
      let '(idx_arg_start, args_list) :=
        split_loop (S (length args_text)) args_text pos_round pos_curly
          pos_square pos_quote 0 0 [] in
      let args_list :=
        if idx_arg_start <? len args_text
        then args_list ++ [slice_from args_text idx_arg_start]
        else args_list in
      Some args_list
  end.

(** ** Signature assembler *)

(** The character class [[a-zA-Z0-9_,()\[\] ]]. *)
Definition return_type_char (c : ascii) : bool :=
  let n := N_of_ascii c in
  (((97 <=? n) && (n <=? 122)) || ((65 <=? n) && (n <=? 90))
   || ((48 <=? n) && (n <=? 57)))%N
  || Ascii.eqb c "_" || Ascii.eqb c "," || Ascii.eqb c "(" || Ascii.eqb c ")"
  || Ascii.eqb c "[" || Ascii.eqb c "]" || Ascii.eqb c " ".

Fixpoint take_while (p : ascii → bool) (s : str) : str :=
  match s with
  | c :: s' => if p c then c :: take_while p s' else []
  | [] => []
  end.

Fixpoint drop_while (p : ascii → bool) (s : str) : str :=
  match s with
  | c :: s' => if p c then drop_while p s' else s
  | [] => []
  end.

(** The pattern of [return_type_re] anchored at the head of [cs]: an
    arrow, any number of spaces, group 1 made of any number of class
    characters, a colon, and [$].  The result is [(group(0), group(1))].
    The colon is in neither
    class, so after the arrow the greedy runs of spaces and of class
    characters are the only way to reach it, and backtracking finds no
    other match.  [$] holds at the end of the text and before a final
    newline. *)
Definition return_type_match (cs : str) : option (str * str) :=
  if startswith cs (py "->") then
    let after_arrow := drop 2 cs in
    let after_spaces := drop_while (Ascii.eqb " ") after_arrow in
    let group1 := take_while return_type_char after_spaces in
    let rest := drop_while return_type_char after_spaces in
    if bool_decide (rest = [":"]) || bool_decide (rest = [":"; LF])
    then Some (take (length cs - length rest + 1) cs, group1)
    else None
  else None.

(** [re.search]: the leftmost position at which the pattern matches. *)
Fixpoint return_type_search (cs : str) : option (str * str) :=
  match return_type_match cs with
  | Some m => Some m
  | None => match cs with
            | [] => None
            | _ :: cs' => return_type_search cs'
            end
  end.

(** [FunctionInfo.parse] *)
Definition parse (self : FunctionInfo) (text : str) : FunctionInfo :=
  let self := __init__ in
  if negb (is_start_of_function text) then self
  else
    let self := set_n_indent (find text (lstrip text)) self in
    let text := strip text in
    let text := replace text [CR; LF] [] in
    let text := replace text [LF] [] in
    let return_type_re := return_type_search text in
    let '(self, text_end) :=
      match return_type_re with
      | Some (group0, group1) =>
          (set_return_type (Some group1) self, rfind text group0)
      | None => (set_return_type None self, len text)
      end in
    let pos_args_start := find text (py "(") + 1 in
    let pos_args_end := rfind_between text (py ")") pos_args_start text_end in
    let self := set_args_text (slice text pos_args_start pos_args_end) self in
    let args_list := split_args_text_to_list (args_text self) in
    match args_list with
    | Some args_list =>
        let self := set_has_info true self in
        split_arg_to_name_type_value self args_list
    | None => self
    end.

(** ** Docstring template renderer *)

(** [del l[0]] *)
Definition del0 {A : Type} (l : list A) : result (list A) :=
  match l with
  | [] => Raise (IndexError (py "list assignment index out of range"))
  | _ :: l' => Ok l'
  end.

(** The loop over [zip(arg_names, arg_types, arg_values)], which stops
    at the end of the shortest list; the value is [arg_text]. *)
Fixpoint numpy_arg_text (indent1 indent2 quote3 quote3_other : str)
    (arg_names : list str) (arg_types arg_values : list (option str))
  : str :=
  match arg_names, arg_types, arg_values with
  | arg_name :: arg_names', arg_type :: arg_types', arg_value :: arg_values' =>
      let arg_text := indent1 ++ arg_name ++ py " : " in
      let arg_text :=
        match arg_type with
        | Some ((_ :: _) as t) => arg_text ++ t
        | _ => arg_text ++ py "[type]"
        end in
      let arg_text :=
        if truthy arg_value then arg_text ++ py ", optional" else arg_text in
      let arg_text := arg_text ++ [LF] ++ indent2 ++ py "[description]" in
      let arg_text :=
        match arg_value with
        | Some ((_ :: _) as v) =>
            let v := replace v quote3 quote3_other in
            arg_text ++ py " (the default is " ++ v ++ py ")"
        | _ => arg_text
        end in
      let arg_text := arg_text ++ [LF] in
      arg_text ++ numpy_arg_text indent1 indent2 quote3 quote3_other
                    arg_names' arg_types' arg_values'
  | _, _, _ => []
  end.

(** [_generate_numpy_doc].  [arg_names], [arg_types] and [arg_values] are
    the very list objects held by [func_info], so the three [del]
    statements change [func_info]: the updated object is returned next to
    the text. *)
Definition _generate_numpy_doc (func_info : FunctionInfo)
    (quote3 quote3_other : str) : result (str * FunctionInfo) :=
  let numpy_doc := [] in
  func_info ←
    match arg_name_list func_info with
    | first :: _ =>
        if bool_decide (first = py "self") then
          arg_names ← del0 (arg_name_list func_info);
          arg_types ← del0 (arg_type_list func_info);
          arg_values ← del0 (arg_value_list func_info);
          Ok (set_arg_value_list arg_values
                (set_arg_type_list arg_types
                   (set_arg_name_list arg_names func_info)))
        else Ok func_info
    | [] => Ok func_info
    end;
  let arg_names := arg_name_list func_info in
  let arg_types := arg_type_list func_info in
  let arg_values := arg_value_list func_info in
  let indent1 := repeat_str [" "] (4 + n_indent func_info) in
  let indent2 := repeat_str [" "] (8 + n_indent func_info) in
  let numpy_doc := numpy_doc ++ [LF] in
  let numpy_doc :=
    if 0 <? Z.of_nat (length arg_names)
    then numpy_doc ++ [LF] ++ indent1 ++ py "Parameters"
                   ++ [LF] ++ indent1 ++ py "----------" ++ [LF]
    else numpy_doc in
  let arg_text :=
    numpy_arg_text indent1 indent2 quote3 quote3_other
      arg_names arg_types arg_values in
  let numpy_doc := numpy_doc ++ arg_text in
  let numpy_doc := numpy_doc ++ [LF] ++ indent1 ++ py "Returns" in
  let numpy_doc := numpy_doc ++ [LF] ++ indent1 ++ py "-------" in
  let numpy_doc :=
    match return_type func_info with
    | Some ((_ :: _) as t) =>
        numpy_doc ++ [LF] ++ indent1 ++ t
                  ++ [LF] ++ indent2 ++ py "[description]" ++ [LF]
    | _ => numpy_doc ++ [LF] ++ indent1 ++ py "None" ++ [LF]
    end in
  let numpy_doc := numpy_doc ++ [LF] ++ indent1 ++ quote3 in
  Ok (numpy_doc, func_info).

(** [_generate_docstring].  [func_text] stands for the value of
    [self._get_function_definition_from_cursor(cursor)], which reads the
    editor; the [FunctionInfo] built here is local and dropped on
    return. *)
Definition _generate_docstring (doc_type : str) (func_text : option str)
    (quote : str) : result (option str) :=
  let docstring := None in
  let quote3 := repeat_str quote 3 in
  let quote3_other :=
    if bool_decide (quote = [dquote]) then py "'''"
    else [dquote; dquote; dquote] in
  match func_text with
  | Some ((_ :: _) as func_text) =>
      let func_info := parse __init__ func_text in
      if has_info func_info then
        if bool_decide (doc_type = py "one-line") then Ok (Some quote3)
        else if bool_decide (doc_type = py "numpy") then
          '(numpy_doc, _) ← _generate_numpy_doc func_info quote3 quote3_other;
          Ok (Some numpy_doc)
        else Ok docstring
      else Ok docstring
  | _ => Ok docstring
  end.

(** ** Editor side: trigger, header search, key handler *)

(** [s.endswith(suffix)] *)
Definition endswith (s suffix : str) : bool :=
  startswith (rev s) (rev suffix).

(** [_is_beginning_triple_quotes] *)
Definition _is_beginning_triple_quotes (text : str) : bool :=
  let docstring_triggers :=
    [[dquote; dquote; dquote]; "r"%char :: [dquote; dquote; dquote];
     py "'''"; py "r'''"] in
  bool_decide (lstrip text ∈ docstring_triggers).

(** The document seen through a [QTextCursor]: the list of the texts of
    its blocks.  A cursor is the number of the block it is in;
    [cursor.block().text()] is [block_text document cursor], and
    [movePosition(PreviousBlock)] takes [1] from the block number. *)
Definition block_text (document : list str) (block : nat) : str :=
  default [] (document !! block).

(** The [for] loop of [_get_function_definition_from_cursor], [n] being
    the number of iterations left.  The value comes with the block the
    cursor was moved to. *)
Fixpoint get_definition_loop (n : nat) (document : list str) (cursor : nat)
    (is_first_line : bool) (func_text : str) : result (option str * nat) :=
  match n with
  | O => Ok (None, cursor)
  | S n' =>
      if bool_decide (cursor = 0%nat) then Ok (None, cursor)
      else
        let cursor := (cursor - 1)%nat in
        let prev_text := rstrip (block_text document cursor) in
        if (if is_first_line
            then negb (endswith prev_text (py ":"))
            else endswith prev_text (py ":") || bool_decide (prev_text = []))
        then Ok (None, cursor)
        else
          match getitem prev_text (-1) with
          | None => Raise (IndexError (py "string index out of range"))
          | Some last_char =>
              let prev_text :=
                if Ascii.eqb last_char backslash
                then slice prev_text 0 (-1)
                else prev_text in
              let func_text := prev_text ++ func_text in
              if is_start_of_function prev_text
              then Ok (Some func_text, cursor)
              else get_definition_loop n' document cursor false func_text
          end
  end.

(** [_get_function_definition_from_cursor]; the argument is a
    [QTextCursor], so the [isinstance] test succeeds. *)
Definition _get_function_definition_from_cursor (document : list str)
    (cursor : nat) : result (option str * nat) :=
  let func_text := [] in
  let is_first_line := true in
  let line_number := (cursor + 1)%nat in
  get_definition_loop (Nat.min line_number 20) document cursor
    is_first_line func_text.

(** [_generate_docstring] with its call of
    [_get_function_definition_from_cursor] made explicit. *)
Definition _generate_docstring_cursor (doc_type : str) (document : list str)
    (cursor : nat) (quote : str) : result (option str) :=
  '(func_text, _) ← _get_function_definition_from_cursor document cursor;
  _generate_docstring doc_type func_text quote.

(** What [_write_docstring] reads from the editor: the blocks of the
    document and the place of the text cursor. *)
Record Editor : Type := mkEditor {
  document : list str;
  cursor_block : nat;
  cursor_column : nat
}.

(** [self.editor.get_text('sol', 'cursor')] *)
Definition get_text_sol_cursor (editor : Editor) : str :=
  take (cursor_column editor)
    (block_text (document editor) (cursor_block editor)).

(** [_write_docstring].  [docstring_type] is the value of
    [CONF.get('editor', 'docstring_type')].  The effect on the editor is
    given as a value: the first component is the text handed to
    [insert_text] at the cursor, after which the cursor is put back to
    [prev_pos]; the second component is the value returned. *)
Definition _write_docstring (docstring_type : str) (editor : Editor)
  : result (option str * bool) :=
  let line_to_cursor := get_text_sol_cursor editor in
  if _is_beginning_triple_quotes line_to_cursor then
    match getitem line_to_cursor (-1) with
    | None => Raise (IndexError (py "string index out of range"))
    | Some quote =>
        docstring ← _generate_docstring_cursor docstring_type
                      (document editor) (cursor_block editor) [quote];
        if truthy docstring then Ok (docstring, true) else Ok (None, false)
    end
  else Ok (None, false).

(** Keys, as far as [_on_key_pressed] tells them apart. *)
Inductive Key : Type :=
| Key_Enter
| Key_Return
| Key_other (code : Z).

Record KeyEvent : Type := mkKeyEvent {
  isAccepted : bool;
  key : Key
}.

(** [_on_key_pressed]; [enabled] is [self.enabled].  The value is the
    text inserted in the editor, if any, and the event after the call. *)
Definition _on_key_pressed (enabled : bool) (docstring_type : str)
    (editor : Editor) (event : KeyEvent) : result (option str * KeyEvent) :=
  if isAccepted event then Ok (None, event)
  else
    let key := key event in
    if (match key with Key_Enter | Key_Return => true | _ => false end)
       && enabled
    then
      '(inserted, written) ← _write_docstring docstring_type editor;
      if written : bool
      then Ok (inserted : option str, mkKeyEvent true key)
      else Ok (inserted, event)
    else Ok (None, event).

(** * Definitions used by the statements and the proofs *)

(** ** Segments and their classification *)

(** The segments handed to the classifier by [parse]: the value of
    [split_args_text_to_list] on the stored [args_text], none when that
    value is [None]. *)
Definition raw_segments (fi : FunctionInfo) : list str :=
  default [] (split_args_text_to_list (args_text fi)).

(** The three fields the classifier gives one segment. *)
Definition arg_name_of (arg : str) : str := (split_one_arg arg).1.1.
Definition arg_type_of (arg : str) : option str := (split_one_arg arg).1.2.
Definition arg_value_of (arg : str) : option str := (split_one_arg arg).2.

(** ** The two halves of the renderer *)

(** The first statement of [_generate_numpy_doc]: the receiver filter. *)
Definition drop_receiver (func_info : FunctionInfo) : result FunctionInfo :=
  match arg_name_list func_info with
  | first :: _ =>
      if bool_decide (first = py "self") then
        arg_names ← del0 (arg_name_list func_info);
        arg_types ← del0 (arg_type_list func_info);
        arg_values ← del0 (arg_value_list func_info);
        Ok (set_arg_value_list arg_values
              (set_arg_type_list arg_types
                 (set_arg_name_list arg_names func_info)))
      else Ok func_info
  | [] => Ok func_info
  end.

(** The text written by the rest of [_generate_numpy_doc]. *)
Definition numpy_doc_body (func_info : FunctionInfo)
    (quote3 quote3_other : str) : str :=
  let indent1 := repeat_str [" "] (4 + n_indent func_info) in
  let indent2 := repeat_str [" "] (8 + n_indent func_info) in
  [LF]
  ++ (if 0 <? Z.of_nat (length (arg_name_list func_info))
      then [LF] ++ indent1 ++ py "Parameters"
           ++ [LF] ++ indent1 ++ py "----------" ++ [LF]
      else [])
  ++ numpy_arg_text indent1 indent2 quote3 quote3_other
       (arg_name_list func_info) (arg_type_list func_info)
       (arg_value_list func_info)
  ++ [LF] ++ indent1 ++ py "Returns"
  ++ [LF] ++ indent1 ++ py "-------"
  ++ match return_type func_info with
     | Some ((_ :: _) as t) =>
         [LF] ++ indent1 ++ t ++ [LF] ++ indent2 ++ py "[description]" ++ [LF]
     | _ => [LF] ++ indent1 ++ py "None" ++ [LF]
     end
  ++ [LF] ++ indent1 ++ quote3.

(** Triple quotes of the two kinds. *)
Definition quote3_single : str := py "'''".
Definition quote3_double : str := [dquote; dquote; dquote].

(** [absent c s]: the character [c] does not occur in [s]. *)
Definition absent (c : ascii) (s : str) : bool :=
  forallb (fun x => negb (Ascii.eqb x c)) s.

(** The scaffold written for no argument and no return type. *)
Definition bare_scaffold (n_indent : Z) (quote3 : str) : str :=
  let indent1 := repeat_str [" "] (4 + n_indent) in
  [LF]
  ++ [LF] ++ indent1 ++ py "Returns"
  ++ [LF] ++ indent1 ++ py "-------"
  ++ [LF] ++ indent1 ++ py "None" ++ [LF]
  ++ [LF] ++ indent1 ++ quote3.

(** ** Well-nested pair maps *)

(** Two pairs are disjoint or one lies strictly inside the other. *)
Definition apart_or_nested (k1 v1 k2 v2 : Z) : Prop :=
  v1 < k2 ∨ v2 < k1 ∨ (k1 < k2 ∧ v2 < v1) ∨ (k2 < k1 ∧ v1 < v2).

(** Invariant of [find_bracket_loop] before index [i]. *)
Record bracket_inv (i : Z) (pos : gmap Z Z) (pstack : list Z) : Prop := {
  inv_pair : ∀ k v, pos !! k = Some v → 0 ≤ k ∧ k < v ∧ v < i;
  inv_stack : ∀ s, s ∈ pstack → 0 ≤ s ∧ s < i;
  inv_sorted : ∀ s rest, suffix (s :: rest) pstack → ∀ s', s' ∈ rest → s' < s;
  inv_open : ∀ s k v, s ∈ pstack → pos !! k = Some v → v < s ∨ s < k;
  inv_nest : ∀ k1 v1 k2 v2, pos !! k1 = Some v1 → pos !! k2 = Some v2 →
             k1 ≠ k2 → apart_or_nested k1 v1 k2 v2
}.

(** ** Split points *)

(** [top_level ... p]: position [p] is enclosed by no pair of the four
    maps (the negation of the test made by the loop of the splitter). *)
Definition top_level (pos_quote pos_round pos_curly pos_square : gmap Z Z)
    (p : Z) : bool :=
  negb (is_char_in_pairs p pos_round
        || is_char_in_pairs p pos_curly
        || is_char_in_pairs p pos_square
        || is_char_in_pairs p pos_quote).

(** Positions, in increasing order, of the commas of [cs] that satisfy
    [top]; [i] is the position of the head of [cs]. *)
Fixpoint comma_points (top : Z → bool) (i : Z) (cs : str) : list Z :=
  match cs with
  | [] => []
  | c :: cs' =>
      if Ascii.eqb c "," && top i
      then i :: comma_points top (i + 1) cs'
      else comma_points top (i + 1) cs'
  end.

(** The split points of an argument text. *)
Definition split_points (args_text : str)
    (pos_quote pos_round pos_curly pos_square : gmap Z Z) : list Z :=
  comma_points (top_level pos_quote pos_round pos_curly pos_square)
    0 args_text.

(** The pieces of [text] that end at the successive [points], the first
    piece starting at [start]. *)
Fixpoint segments_between (text : str) (points : list Z) (start : Z)
  : list str :=
  match points with
  | [] => []
  | p :: points' => slice text start p :: segments_between text points' (p + 1)
  end.

(** Where the text after the last of [points] starts. *)
Definition trailing_start (start : Z) (points : list Z) : Z :=
  match last points with
  | Some p => p + 1
  | None => start
  end.

(** The loop of the splitter read as one pass over the characters. *)
Fixpoint scan_commas (top : Z → bool) (text : str) (i : Z) (cs : str)
    (idx_arg_start : Z) (args_list : list str) : Z * list str :=
  match cs with
  | [] => (idx_arg_start, args_list)
  | c :: cs' =>
      if Ascii.eqb c "," && top i
      then scan_commas top text (i + 1) cs' (i + 1)
             (args_list ++ [slice text idx_arg_start i])
      else scan_commas top text (i + 1) cs' idx_arg_start args_list
  end.

(** ** The scanners as lists of pairs *)

(** The test of [is_char_in_pairs] on one pair, and on a list of
    pairs. *)
Definition encloses (p : Z) (pr : Z * Z) : bool :=
  (pr.1 <? p) && (p <? pr.2).

Definition enclosed (p : Z) (pairs : list (Z * Z)) : bool :=
  existsb (encloses p) pairs.

(** Moving a pair, or the open quote of the scanner, by [d] positions. *)
Definition shift_pair (d : Z) (pr : Z * Z) : Z * Z := (pr.1 + d, pr.2 + d).

Definition shift_state (d : Z) (opened : option (ascii * Z))
  : option (ascii * Z) :=
  (fun st => (st.1, st.2 + d)) <$> opened.

(** The two characters that open a string. *)
Definition is_quote (c : ascii) : bool :=
  Ascii.eqb c "'" || Ascii.eqb c dquote.

(** The quote scanner: [prev] is the character before position [i]. *)
Fixpoint quote_pairs (prev : option ascii) (i : Z) (cs : str)
    (opened : option (ascii * Z)) : list (Z * Z) * option (ascii * Z) :=
  match cs with
  | [] => ([], opened)
  | c :: cs' =>
      match opened with
      | None =>
          if is_quote c
          then quote_pairs (Some c) (i + 1) cs' (Some (c, i))
          else quote_pairs (Some c) (i + 1) cs' None
      | Some (quote, left_pos) =>
          if Ascii.eqb c quote
             && negb (bool_decide (prev = Some backslash))
          then let r := quote_pairs (Some c) (i + 1) cs' None in
               ((left_pos, i) :: r.1, r.2)
          else quote_pairs (Some c) (i + 1) cs' opened
      end
  end.

(** The bracket scanner: [inq j] tells whether position [j] is inside a
    quoted string; [None] stands for the exception raised at a closer
    that finds the stack empty. *)
Fixpoint bracket_pairs (bl br : ascii) (inq : Z → bool) (i : Z) (cs : str)
    (pstack : list Z) : option (list (Z * Z) * list Z) :=
  match cs with
  | [] => Some ([], pstack)
  | c :: cs' =>
      if Ascii.eqb c bl && negb (inq i)
      then bracket_pairs bl br inq (i + 1) cs' (i :: pstack)
      else if Ascii.eqb c br && negb (inq i)
      then match pstack with
           | [] => None
           | top :: pstack' =>
               r ← bracket_pairs bl br inq (i + 1) cs' pstack';
               Some ((top, i) :: r.1, r.2)
           end
      else bracket_pairs bl br inq (i + 1) cs' pstack
  end.

(** The character before the position reached after reading [cs]. *)
Definition prev_after (prev : option ascii) (cs : str) : option ascii :=
  match last cs with
  | Some c => Some c
  | None => prev
  end.

(** ** Pieces of a text *)

(** [seg] is a piece of [text] between two consecutive cuts: it is
    preceded by the start of the text or by a comma satisfying [top],
    followed by the end of the text or by such a comma, and holds no such
    comma itself. *)
Definition is_piece (top : Z → bool) (text pre seg post : str) : Prop :=
  text = pre ++ seg ++ post
  ∧ (pre = [] ∨ ∃ pre', pre = pre' ++ [","%char] ∧ top (len pre') = true)
  ∧ (post = []
     ∨ ∃ post', post = ","%char :: post' ∧ top (len pre + len seg) = true)
  ∧ (∀ j : nat, seg !! j = Some ","%char →
                top (len pre + Z.of_nat j) = false).

(** ** Definitions for the further properties *)

(** [sep.join(parts)] *)
Fixpoint join (sep : str) (parts : list str) : str :=
  match parts with
  | [] => []
  | [part] => part
  | part :: parts' => part ++ sep ++ join sep parts'
  end.

(** What [_get_function_definition_from_cursor] keeps of one line: the
    line without its trailing white space and without a final
    backslash. *)
Definition clean_line (line : str) : str :=
  let prev_text := rstrip line in
  match getitem prev_text (-1) with
  | Some last_char =>
      if Ascii.eqb last_char backslash then slice prev_text 0 (-1)
      else prev_text
  | None => prev_text
  end.

(** The alternate triple quote chosen by [_generate_docstring]. *)
Definition quote3_other_of (quote : str) : str :=
  if bool_decide (quote = [dquote]) then py "'''"
  else [dquote; dquote; dquote].

(** The return annotation of a header: nothing, or an arrow, [n] spaces
    and the type. *)
Definition arrow_text (n : nat) (ty : option str) : str :=
  match ty with
  | Some t => py "->" ++ replicate n " "%char ++ t
  | None => []
  end.

(** A header from its parts: what precedes the parameter list, the
    parameters, what follows the closing parenthesis, the return
    annotation and the final colon. *)
Definition header_text (head args mid : str) (n : nat) (ty : option str)
  : str :=
  head ++ "(" :: args ++ ")" :: mid ++ arrow_text n ty ++ [":"%char].

(** ** Tactics *)

(** Reduce the attribute reads and writes of a [FunctionInfo]. *)
Ltac simpl_fields :=
  cbn [has_info func_text args_text n_indent arg_name_list arg_type_list
       arg_value_list return_type set_has_info set_args_text set_n_indent
       set_arg_name_list set_arg_type_list set_arg_value_list
       set_return_type __init__ app].

(** Right-nest every concatenation. *)
Ltac norm_app := repeat (progress (rewrite <- ?app_assoc; cbn [app])).

(** Equations between lengths of concatenations. *)
Ltac len_solve :=
  unfold PyStr.len;
  repeat (progress (rewrite ?length_app; cbn [length]));
  lia.

(** * Properties *)

(** ** The classifier fills the three lists in step *)

Lemma split_arg_to_name_type_value_spec self args_list :
  let fi := split_arg_to_name_type_value self args_list in
  arg_name_list fi = arg_name_list self ++ map arg_name_of args_list
  ∧ arg_type_list fi = arg_type_list self ++ map arg_type_of args_list
  ∧ arg_value_list fi = arg_value_list self ++ map arg_value_of args_list
  ∧ has_info fi = has_info self
  ∧ func_text fi = func_text self
  ∧ args_text fi = args_text self
  ∧ n_indent fi = n_indent self
  ∧ return_type fi = return_type self.
Proof.
  revert self. induction args_list as [|arg rest IH]; intros self; simpl.
  - rewrite !app_nil_r. tauto.
  - unfold arg_name_of, arg_type_of, arg_value_of.
    destruct (split_one_arg arg) as [[nm ty] vl]. simpl.
    specialize (IH (set_arg_value_list (arg_value_list self ++ [vl])
                      (set_arg_type_list (arg_type_list self ++ [ty])
                         (set_arg_name_list (arg_name_list self ++ [nm])
                            self)))).
    simpl in IH. destruct IH as (H1 & H2 & H3 & H4 & H5 & H6 & H7 & H8).
    rewrite H1, H2, H3, <- !app_assoc. simpl. tauto.
Qed.

(** Shape of every value of [parse]: either the header is rejected and
    the object is the freshly reset one, or the argument text was cut out
    and handed to the splitter. *)
Lemma parse_cases self text :
  let fi := parse self text in
  (fi = __init__)
  ∨ (has_info fi = false ∧ split_args_text_to_list (args_text fi) = None
     ∧ arg_name_list fi = [] ∧ arg_type_list fi = []
     ∧ arg_value_list fi = [])
  ∨ (∃ args_list, has_info fi = true
     ∧ split_args_text_to_list (args_text fi) = Some args_list
     ∧ arg_name_list fi = map arg_name_of args_list
     ∧ arg_type_list fi = map arg_type_of args_list
     ∧ arg_value_list fi = map arg_value_of args_list).
Proof.
  unfold parse.
  destruct (negb (is_start_of_function text)); [by left|].
  right.
  set (t := replace (replace (strip text) [CR; LF] []) [LF] []).
  destruct (return_type_search t) as [[g0 g1]|]; cbv beta iota zeta;
    simpl_fields;
    match goal with
    | |- context [split_args_text_to_list ?a] =>
        destruct (split_args_text_to_list a) as [args_list|] eqn:Hs
    end.
  1,3: right; exists args_list;
    match goal with
    | |- context [split_arg_to_name_type_value ?s ?l] =>
        pose proof (split_arg_to_name_type_value_spec s l) as H;
        cbv zeta in H; destruct H as (H1 & H2 & H3 & H4 & H5 & H6 & _)
    end; rewrite H1, H2, H3, H4, H6; simpl_fields; by rewrite Hs.
  all: left; simpl_fields; by rewrite Hs.
Qed.

(** C10.  After every call to [parse], whatever [has_info] is, the three
    lists [arg_name_list], [arg_type_list] and [arg_value_list] have the
    same length, which is the number of raw argument segments: entry [k]
    of each list is the name, the type and the value of segment [k], so
    pairing the lists element by element loses and misaligns nothing. *)
Theorem parse_lists_aligned (self : FunctionInfo) (text : str) :
  let fi := parse self text in
  length (arg_name_list fi) = length (arg_type_list fi)
  ∧ length (arg_type_list fi) = length (arg_value_list fi)
  ∧ length (arg_name_list fi) = length (raw_segments fi)
  ∧ arg_name_list fi = map arg_name_of (raw_segments fi)
  ∧ arg_type_list fi = map arg_type_of (raw_segments fi)
  ∧ arg_value_list fi = map arg_value_of (raw_segments fi)
  ∧ length (zip (arg_name_list fi)
              (zip (arg_type_list fi) (arg_value_list fi)))
    = length (raw_segments fi).
Proof.
  intros fi. unfold raw_segments.
  destruct (parse_cases self text) as [H | [H | H]]; fold fi in H.
  - rewrite H. vm_compute. tauto.
  - destruct H as (_ & Hs & H1 & H2 & H3). rewrite Hs, H1, H2, H3. simpl. tauto.
  - destruct H as (l & _ & Hs & H1 & H2 & H3). rewrite Hs, H1, H2, H3. simpl.
    rewrite !length_zip, !length_map. repeat split; lia.
Qed.
(** ** Facts about the string primitives *)

Section PyStrFacts.

Implicit Types (s pre post sub : str) (c : ascii).

Lemma len_nonneg s : 0 ≤ len s.
Proof. unfold len. lia. Qed.

Lemma len_app s1 s2 : len (s1 ++ s2) = len s1 + len s2.
Proof. unfold len. rewrite length_app. lia. Qed.

Lemma clamp_id n i : 0 ≤ i ≤ n → clamp n i = i.
Proof.
  intros H. unfold clamp. destruct (Z.ltb_spec i 0); lia.
Qed.

Lemma lower_id n i : 0 ≤ i → lower n i = i.
Proof.
  intros H. unfold lower. destruct (Z.ltb_spec i 0); lia.
Qed.

Lemma slice_in_range s a b :
  0 ≤ a ≤ len s → 0 ≤ b ≤ len s →
  slice s a b = take (Z.to_nat (b - a)) (drop (Z.to_nat a) s).
Proof. intros Ha Hb. unfold slice. by rewrite !clamp_id. Qed.

Lemma slice_from_in_range s a :
  0 ≤ a ≤ len s → slice_from s a = drop (Z.to_nat a) s.
Proof. intros Ha. unfold slice_from. by rewrite clamp_id. Qed.

Lemma slice_prefix pre post : slice (pre ++ post) 0 (len pre) = pre.
Proof.
  rewrite slice_in_range; rewrite ?len_app;
    try (pose proof (len_nonneg pre); pose proof (len_nonneg post); lia).
  unfold len. rewrite Z.sub_0_r, Nat2Z.id. change (Z.to_nat 0) with 0%nat.
  by rewrite drop_0, take_app_length.
Qed.

Lemma slice_from_suffix pre post : slice_from (pre ++ post) (len pre) = post.
Proof.
  rewrite slice_from_in_range; rewrite ?len_app;
    try (pose proof (len_nonneg pre); pose proof (len_nonneg post); lia).
  unfold len. by rewrite Nat2Z.id, drop_app_length.
Qed.

Lemma slice_middle pre mid post :
  slice (pre ++ mid ++ post) (len pre) (len pre + len mid) = mid.
Proof.
  rewrite slice_in_range; rewrite ?len_app;
    try (pose proof (len_nonneg pre); pose proof (len_nonneg mid);
         pose proof (len_nonneg post); lia).
  unfold len. rewrite Nat2Z.id, drop_app_length.
  replace (Z.to_nat (_ + _ - _)) with (length mid) by lia.
  by rewrite take_app_length.
Qed.

Lemma find_whole s sub : find s sub = find_in sub s 0.
Proof.
  unfold find, find_from, find_between.
  pose proof (len_nonneg s).
  rewrite lower_id, clamp_id by lia.
  destruct (Z.ltb_spec (len s) 0); [lia|].
  unfold len. rewrite Z.sub_0_r, Nat2Z.id. change (Z.to_nat 0) with 0%nat.
  by rewrite drop_0, firstn_all.
Qed.

Lemma startswith_char c s :
  startswith s [c] = match s with b :: _ => Ascii.eqb c b | [] => false end.
Proof.
  destruct s as [|b s']; [done|]. destruct s'; simpl; apply andb_true_r.
Qed.

(** A single character that occurs is found at its first occurrence. *)
Lemma find_in_char_first c pre post i :
  c ∉ pre → find_in [c] (pre ++ c :: post) i = i + len pre.
Proof.
  revert i. induction pre as [|b pre IH]; intros i Hnot.
  - cbn [app find_in]. rewrite startswith_char, Ascii.eqb_refl.
    unfold len. simpl length. lia.
  - apply not_elem_of_cons in Hnot as [Hne Hnot].
    cbn [app find_in]. rewrite startswith_char.
    destruct (Ascii.eqb_spec c b); [congruence|].
    rewrite IH by done. unfold len. simpl length. lia.
Qed.

(** A single character that does not occur yields [-1]. *)
Lemma find_in_char_none c s i : c ∉ s → find_in [c] s i = -1.
Proof.
  revert i. induction s as [|b s IH]; intros i Hnot; [done|].
  apply not_elem_of_cons in Hnot as [Hne Hnot].
  cbn [find_in]. rewrite startswith_char.
  destruct (Ascii.eqb_spec c b); [congruence|]. by apply IH.
Qed.

(** In general the value of a single-character search is [-1] or a
    position at which the character stands, with none before it. *)
Lemma find_in_char_cases c s i :
  ((c ∉ s) ∧ find_in [c] s i = -1)
  ∨ (∃ pre post, s = pre ++ c :: post ∧ (c ∉ pre)
                 ∧ find_in [c] s i = i + len pre).
Proof.
  destruct (decide (c ∈ s)) as [Hin | Hnot].
  - right. apply list_elem_of_split_l in Hin as (pre & post & -> & Hnot).
    exists pre, post. split_and!; [done..|]. by apply find_in_char_first.
  - left. split; [done|]. by apply find_in_char_none.
Qed.

End PyStrFacts.

(** ** Classifier *)

(** The classifier on a segment cut at its first equals sign, when no
    colon stands before it. *)
Lemma split_one_arg_value_only (before after : str) :
  "="%char ∉ before → ":"%char ∉ before →
  let arg := before ++ "=" :: after in
  find arg (py "=") = len before
  ∧ (find arg (py ":") = -1 ∨ find arg (py "=") < find arg (py ":"))
  ∧ split_one_arg arg = (strip before, None, Some (strip after)).
Proof.
  intros He Hc arg.
  assert (Heq : find arg (py "=") = len before).
  { unfold arg. rewrite !find_whole. change (py "=") with ["="%char].
    rewrite find_in_char_first by done. lia. }
  assert (Hcol : find arg (py ":") = -1 ∨ len before < find arg (py ":")).
  { unfold arg. rewrite !find_whole. change (py ":") with [":"%char].
    destruct (find_in_char_cases ":" (before ++ "=" :: after) 0)
      as [[_ ->] | (pre & post & Hsplit & Hnot & ->)]; [by left|right].
    assert (length before < length pre)%nat; [|unfold len; lia].
    destruct (Nat.lt_ge_cases (length before) (length pre)) as [|Hle];
      [done|exfalso].
    assert (Hl : (before ++ "=" :: after) !! length pre = Some ":"%char).
    { rewrite Hsplit. by rewrite list_lookup_middle. }
    apply Nat.lt_eq_cases in Hle as [Hlt | Heql].
    - rewrite lookup_app_l in Hl by done.
      apply Hc. eapply list_elem_of_lookup_2. exact Hl.
    - rewrite Heql, list_lookup_middle in Hl by done. discriminate. }
  split_and!; [done | rewrite Heq; tauto |].
  unfold split_one_arg. rewrite Heq.
  pose proof (len_nonneg before) as Hlen.
  destruct (Z.ltb_spec (-1) (len before)); [|lia].
  assert (Hty : (if -1 <? find arg (py ":")
                 then (if negb true then true
                       else find arg (py ":") <? len before)
                 else false) = false).
  { destruct Hcol as [-> | Hlt]; [done|].
    destruct (Z.ltb_spec (-1) (find arg (py ":"))); [|done].
    cbn [negb]. apply Z.ltb_ge. lia. }
  rewrite Hty. cbn [andb negb]. unfold arg.
  rewrite slice_prefix.
  replace (before ++ "=" :: after) with ((before ++ ["="%char]) ++ after)
    by (by rewrite <- app_assoc).
  replace (len before + 1) with (len (before ++ ["="%char]))
    by (rewrite len_app; done).
  by rewrite slice_from_suffix.
Qed.

(** C4.  Tie-break between colon and equals.  When the segment has an
    equals sign and either has no colon or has its first colon at or
    after its first equals sign, the argument gets no type, its name is
    the text before that equals sign and its value the text after it,
    colons included, each trimmed of surrounding white space as every
    field is.  In particular ["arg1: int = 5"] gives [arg1], [int], [5]
    and ["arg2='a:b'"] gives [arg2], no type, ['a:b']. *)
Theorem classifier_tie_break (arg : str) :
  let pos_colon := find arg (py ":") in
  let pos_equal := find arg (py "=") in
  pos_equal ≠ -1 → pos_colon = -1 ∨ pos_equal ≤ pos_colon →
  (∃ before after : str,
     arg = before ++ "=" :: after
     ∧ pos_equal = len before
     ∧ ("="%char ∉ before)
     ∧ split_one_arg arg = (strip before, None, Some (strip after)))
  ∧ split_one_arg (py "arg1: int = 5")
    = (py "arg1", Some (py "int"), Some (py "5"))
  ∧ split_one_arg (py "arg2='a:b'") = (py "arg2", None, Some (py "'a:b'")).
Proof.
  intros pos_colon pos_equal Heq Hcol.
  split; [|split; by vm_compute].
  unfold pos_equal, pos_colon in *. rewrite !find_whole in *.
  change (py "=") with ["="%char] in *. change (py ":") with [":"%char] in *.
  destruct (find_in_char_cases "=" arg 0)
    as [[_ E] | (before & after & Harg & Hnb & E)]; [congruence|].
  rewrite E in *. rewrite Z.add_0_l in *.
  assert (Hnc : ":"%char ∉ before).
  { destruct (find_in_char_cases ":" arg 0)
      as [[Hnone _] | (pre & post & Harg' & Hnone & E')].
    - intros Hin. apply Hnone. rewrite Harg. apply elem_of_app. by left.
    - rewrite E', Z.add_0_l in Hcol. pose proof (len_nonneg pre).
      destruct Hcol as [|Hle]; [lia|].
      intros Hin. apply list_elem_of_lookup in Hin as [j Hj].
      apply lookup_lt_Some in Hj as Hlt.
      assert (Hj' : arg !! j = Some ":"%char)
        by (rewrite Harg; by rewrite lookup_app_l).
      rewrite Harg', lookup_app_l in Hj' by (unfold len in Hle; lia).
      apply Hnone. eapply list_elem_of_lookup_2. exact Hj'. }
  exists before, after. split_and!; [done..|]. rewrite Harg.
  by apply split_one_arg_value_only.
Qed.

(** The tie-break at ["arg=':'"], the case named by the source comment:
    the equals sign is at position 3, the colon at position 5. *)
Lemma classifier_tie_break_witness :
  ∃ before after : str,
    py "arg=':'" = before ++ "=" :: after
    ∧ find (py "arg=':'") (py "=") = len before
    ∧ ("="%char ∉ before)
    ∧ split_one_arg (py "arg=':'") = (strip before, None, Some (strip after)).
Proof.
  refine (proj1 (classifier_tie_break (py "arg=':'") _ _)).
  - by vm_compute.
  - right. by vm_compute.
Defined.

(** ** Renderer: what it changes and what it writes *)

Lemma _generate_numpy_doc_eq func_info quote3 quote3_other :
  _generate_numpy_doc func_info quote3 quote3_other
  = (func_info' ← drop_receiver func_info;
     Ok (numpy_doc_body func_info' quote3 quote3_other, func_info')).
Proof.
  unfold _generate_numpy_doc. fold (drop_receiver func_info).
  destruct (drop_receiver func_info) as [fi'|e]; [|done].
  cbn [mbind result_bind]. unfold numpy_doc_body.
  destruct (0 <? Z.of_nat (length (arg_name_list fi')));
    destruct (return_type fi') as [[|c t]|];
    norm_app; reflexivity.
Qed.

(** On aligned lists the filter never raises; it removes the first entry
    of each list exactly when the first name is [self]. *)
Lemma drop_receiver_aligned fi :
  length (arg_name_list fi) = length (arg_type_list fi) →
  length (arg_type_list fi) = length (arg_value_list fi) →
  drop_receiver fi
  = Ok (if bool_decide (head (arg_name_list fi) = Some (py "self"))
        then set_arg_value_list (tail (arg_value_list fi))
               (set_arg_type_list (tail (arg_type_list fi))
                  (set_arg_name_list (tail (arg_name_list fi)) fi))
        else fi).
Proof.
  destruct fi as [hi ft at_ ni names types values rt]. unfold drop_receiver.
  cbn [arg_name_list arg_type_list arg_value_list].
  intros H1 H2.
  destruct names as [|first names]; [done|].
  destruct types as [|ty types]; [done|].
  destruct values as [|vl values]; [done|].
  cbn [head].
  destruct (decide (first = py "self")) as [->|Hne].
  - rewrite !bool_decide_eq_true_2 by done. reflexivity.
  - rewrite !bool_decide_eq_false_2 by congruence. reflexivity.
Qed.

Lemma parse_aligned self text :
  length (arg_name_list (parse self text))
  = length (arg_type_list (parse self text))
  ∧ length (arg_type_list (parse self text))
    = length (arg_value_list (parse self text)).
Proof.
  destruct (parse_cases self text) as [H | [H | H]].
  - by rewrite H.
  - destruct H as (_ & _ & -> & -> & ->). done.
  - destruct H as (l & _ & _ & -> & -> & ->). by rewrite !length_map.
Qed.

(** C1 (as amended).  For ["def foo(self, x):"] the value of [parse] is a
    valid signature that still lists the receiver: two arguments, the
    first named exactly [self].  The receiver is dropped later, by
    [_generate_numpy_doc], which removes the first entry of each of the
    three lists when the first name is exactly [self]; after it the
    signature has one argument, the one written [x]. *)
Theorem parse_then_render_drops_receiver :
  let fi := parse __init__ (py "def foo(self, x):") in
  has_info fi = true
  ∧ length (arg_name_list fi) = 2%nat
  ∧ head (arg_name_list fi) = Some (py "self")
  ∧ ∀ quote3 quote3_other : str,
      ∃ doc fi',
        _generate_numpy_doc fi quote3 quote3_other = Ok (doc, fi')
        ∧ strip <$> arg_name_list fi' = [py "x"]
        ∧ arg_type_list fi' = [None]
        ∧ arg_value_list fi' = [None].
Proof.
  set (text := py "def foo(self, x):").
  assert (Hp : parse __init__ text
               = mkFunctionInfo true [] (py "self, x") 0
                   [py "self"; py " x"] [None; None] [None; None] None)
    by (by vm_compute).
  intros fi. unfold fi. rewrite Hp. split_and!; [done..|].
  intros quote3 quote3_other. rewrite _generate_numpy_doc_eq.
  rewrite drop_receiver_aligned by done.
  cbn [arg_name_list head]. rewrite bool_decide_eq_true_2 by done.
  eexists _, _. split; [reflexivity|]. split_and!; reflexivity.
Qed.

(** Counterexample to C1 as stated: the argument list [parse] returns for
    ["def foo(self, x):"] is not [["x"]]; the receiver is still there. *)
Lemma parse_keeps_receiver :
  arg_name_list (parse __init__ (py "def foo(self, x):")) ≠ [py "x"]
  ∧ head (arg_name_list (parse __init__ (py "def foo(self, x):")))
    = Some (py "self").
Proof. by vm_compute. Qed.

(** C2, the defect.  In ["def f(a, b:"] no closing parenthesis exists, so
    [rfind] answers [-1]; used as a slice bound, [-1] only cuts the last
    character, and the header is accepted as valid with the two arguments
    [a] and [b], for which a scaffold is rendered. *)
Theorem parse_unclosed_span_accepted :
  let text := py "def f(a, b:" in
  rfind_between text (py ")") (find text (py "(") + 1) (len text) = -1
  ∧ args_text (parse __init__ text) = py "a, b"
  ∧ has_info (parse __init__ text) = true
  ∧ strip <$> arg_name_list (parse __init__ text) = [py "a"; py "b"]
  ∧ ∃ doc, _generate_docstring (py "numpy") (Some text) (py "'")
           = Ok (Some doc).
Proof. vm_compute. split_and!; [done..|]. by eexists. Qed.

(** What holds by construction next to C2: a signature that [parse] marks
    invalid is never rendered, whatever the style, and no exception
    leaves [_generate_docstring]. *)
Lemma invalid_signature_not_rendered doc_type text quote :
  has_info (parse __init__ text) = false →
  _generate_docstring doc_type (Some text) quote = Ok None.
Proof.
  intros H. unfold _generate_docstring. destruct text; [done|]. by rewrite H.
Qed.

(** Also next to C2: when a scan of the argument text fails, [parse]
    marks the signature invalid. *)
Lemma unbalanced_interior_invalid self text :
  split_args_text_to_list (args_text (parse self text)) = None →
  has_info (parse self text) = false.
Proof.
  intros Hs. destruct (parse_cases self text) as [H | [H | H]].
  - by rewrite H.
  - by destruct H as [-> _].
  - destruct H as (l & _ & Hl & _). congruence.
Qed.

(** [render] as the module exposes it to one signature: the filter, then
    the text. *)
Lemma render_aligned fi quote3 quote3_other :
  length (arg_name_list fi) = length (arg_type_list fi) →
  length (arg_type_list fi) = length (arg_value_list fi) →
  ∃ fi', drop_receiver fi = Ok fi'
    ∧ _generate_numpy_doc fi quote3 quote3_other
      = Ok (numpy_doc_body fi' quote3 quote3_other, fi')
    ∧ has_info fi' = has_info fi ∧ func_text fi' = func_text fi
    ∧ args_text fi' = args_text fi ∧ n_indent fi' = n_indent fi
    ∧ return_type fi' = return_type fi
    ∧ length (arg_name_list fi') = length (arg_type_list fi')
    ∧ length (arg_type_list fi') = length (arg_value_list fi')
    ∧ (head (arg_name_list fi) ≠ Some (py "self") → fi' = fi)
    ∧ (head (arg_name_list fi) = Some (py "self") →
       arg_name_list fi' = tail (arg_name_list fi)
       ∧ arg_type_list fi' = tail (arg_type_list fi)
       ∧ arg_value_list fi' = tail (arg_value_list fi)).
Proof.
  intros H1 H2. rewrite _generate_numpy_doc_eq.
  rewrite (drop_receiver_aligned fi H1 H2).
  eexists. split; [reflexivity|]. split; [reflexivity|].
  destruct (decide (head (arg_name_list fi) = Some (py "self"))) as [He|Hne].
  - rewrite bool_decide_eq_true_2 by done. simpl_fields.
    split_and!; try done.
    + destruct (arg_name_list fi), (arg_type_list fi); simpl in *; lia.
    + destruct (arg_type_list fi), (arg_value_list fi); simpl in *; lia.
  - rewrite bool_decide_eq_false_2 by done. split_and!; done.
Qed.

(** C3 (as amended).  Rendering a parsed signature never raises and
    leaves [has_info], [func_text], [args_text], [n_indent] and
    [return_type] as they were.  The three argument lists are left as
    they were when the first name is not [self]; when it is, each list
    loses its first entry, in place.  Rendering the resulting signature
    again yields the same text whenever its first name is not [self]. *)
Theorem render_frame (self : FunctionInfo) (text quote3 quote3_other : str) :
  let fi := parse self text in
  ∃ doc fi',
    _generate_numpy_doc fi quote3 quote3_other = Ok (doc, fi')
    ∧ has_info fi' = has_info fi ∧ func_text fi' = func_text fi
    ∧ args_text fi' = args_text fi ∧ n_indent fi' = n_indent fi
    ∧ return_type fi' = return_type fi
    ∧ (head (arg_name_list fi) ≠ Some (py "self") → fi' = fi)
    ∧ (head (arg_name_list fi) = Some (py "self") →
       arg_name_list fi' = tail (arg_name_list fi)
       ∧ arg_type_list fi' = tail (arg_type_list fi)
       ∧ arg_value_list fi' = tail (arg_value_list fi))
    ∧ (head (arg_name_list fi') ≠ Some (py "self") →
       _generate_numpy_doc fi' quote3 quote3_other = Ok (doc, fi')).
Proof.
  intros fi.
  destruct (parse_aligned self text) as [H1 H2]. fold fi in H1, H2.
  destruct (render_aligned fi quote3 quote3_other H1 H2)
    as (fi' & _ & Hr & Hi & Hf & Ha & Hn & Hrt & H1' & H2' & Hsame & Hdrop).
  exists (numpy_doc_body fi' quote3 quote3_other), fi'.
  split_and!; try done.
  intros Hne.
  destruct (render_aligned fi' quote3 quote3_other H1' H2')
    as (fi'' & _ & Hr' & _ & _ & _ & _ & _ & _ & _ & Hsame' & _).
  rewrite Hr'. by rewrite (Hsame' Hne).
Qed.

(** [render_frame] at ["def foo(self, x):"]: the first rendering removes
    the receiver from the signature, the second changes nothing more and
    writes the same text. *)
Lemma render_frame_witness :
  ∃ doc fi',
    _generate_numpy_doc (parse __init__ (py "def foo(self, x):"))
      quote3_single quote3_double = Ok (doc, fi')
    ∧ length (arg_name_list fi') = 1%nat
    ∧ _generate_numpy_doc fi' quote3_single quote3_double = Ok (doc, fi').
Proof.
  destruct (render_frame __init__ (py "def foo(self, x):")
              quote3_single quote3_double)
    as (doc & fi' & Hr & _ & _ & _ & _ & _ & _ & Hdrop & Hagain).
  exists doc, fi'.
  destruct (Hdrop ltac:(by vm_compute)) as (Hn & _).
  split; [exact Hr|]. split.
  - rewrite Hn. by vm_compute.
  - apply Hagain. rewrite Hn. by vm_compute.
Defined.

(** Counterexample to C3 as stated.  Rendering the signature of
    ["def f(self, self: int):"] changes its argument lists, and rendering
    the same object a second time writes a different text: the first text
    has a Parameters section, the second has none. *)
Lemma render_changes_signature :
  let fi := parse __init__ (py "def f(self, self: int):") in
  ∃ doc1 fi1 doc2 fi2,
    _generate_numpy_doc fi quote3_single quote3_double = Ok (doc1, fi1)
    ∧ arg_name_list fi = [py "self"; py "self"]
    ∧ arg_name_list fi1 = [py "self"]
    ∧ arg_type_list fi1 ≠ arg_type_list fi
    ∧ _generate_numpy_doc fi1 quote3_single quote3_double = Ok (doc2, fi2)
    ∧ arg_name_list fi2 = []
    ∧ doc2 ≠ doc1.
Proof.
  cbv zeta. eexists _, _, _, _.
  split; [by vm_compute|]. split; [by vm_compute|].
  split; [reflexivity|]. split; [by vm_compute|].
  split; [by vm_compute|]. split; [reflexivity|]. by vm_compute.
Qed.

(** ** Renderer: the scaffold of a signature without arguments *)

Lemma absent_app c s1 s2 : absent c (s1 ++ s2) = absent c s1 && absent c s2.
Proof. apply forallb_app. Qed.

Lemma absent_spaces c n : c ≠ " "%char → absent c (repeat_str [" "] n) = true.
Proof.
  intros Hne. unfold repeat_str.
  induction (Z.to_nat n) as [|k IH]; [done|].
  cbn [replicate mjoin list_join app absent forallb].
  destruct (Ascii.eqb_spec " " c); [congruence|]. exact IH.
Qed.

(** A text that lacks the first character of [sub] does not contain
    [sub]. *)
Lemma find_absent c sub s : absent c s = true → find s (c :: sub) = -1.
Proof.
  rewrite find_whole. generalize 0.
  induction s as [|b s IH]; intros i Ha; [done|].
  cbn [absent forallb] in Ha. apply andb_true_iff in Ha as [Hb Ha].
  cbn [find_in startswith].
  destruct (Ascii.eqb_spec c b) as [->|Hne].
  - by rewrite Ascii.eqb_refl in Hb.
  - cbn [andb]. by apply IH.
Qed.

(** C9 (as amended).  Numpy rendering of a signature whose argument list
    is empty once the receiver is filtered out, and whose return type is
    absent, writes no Parameters section and a Returns section that reads
    the literal [None] with no description placeholder after it; the
    closing line is the indent followed by the triple quote of the
    trigger. *)
Theorem render_bare_signature (fi : FunctionInfo) (quote3 quote3_other : str) :
  length (arg_name_list fi) = length (arg_type_list fi) →
  length (arg_type_list fi) = length (arg_value_list fi) →
  arg_name_list fi = [] ∨ arg_name_list fi = [py "self"] →
  truthy (return_type fi) = false →
  ∃ fi',
    _generate_numpy_doc fi quote3 quote3_other
    = Ok (bare_scaffold (n_indent fi) quote3, fi')
    ∧ arg_name_list fi' = []
    ∧ (quote3 = quote3_single ∨ quote3 = quote3_double →
       find (bare_scaffold (n_indent fi) quote3) (py "Parameters") = -1
       ∧ find (bare_scaffold (n_indent fi) quote3) (py "[description]") = -1).
Proof.
  intros H1 H2 Hn Hrt.
  destruct (render_aligned fi quote3 quote3_other H1 H2)
    as (fi' & _ & Hr & _ & _ & _ & Hni & Hrt' & H1' & H2' & Hsame & Hdrop).
  assert (Hnames : arg_name_list fi' = []).
  { destruct Hn as [Hn | Hn].
    - rewrite Hsame; [done|]. by rewrite Hn.
    - destruct Hdrop as (-> & _); by rewrite Hn. }
  exists fi'. split; [|split; [done|]].
  - rewrite Hr. f_equal. f_equal.
    unfold numpy_doc_body, bare_scaffold. rewrite Hnames, Hni, Hrt'.
    assert (arg_type_list fi' = []) as ->.
    { apply length_zero_iff_nil. rewrite <- H1', Hnames. done. }
    destruct (return_type fi) as [[|c t]|]; try done; norm_app; reflexivity.
  - intros Hq.
    assert (Hp : ∀ c, c ≠ " "%char → absent c (py "Returns-None") = true →
                 absent c [LF] = true → absent c quote3 = true →
                 absent c (bare_scaffold (n_indent fi) quote3) = true).
    { intros c Hc Hlit Hlf Hq3. unfold bare_scaffold.
      rewrite !absent_app, !absent_spaces, Hq3 by done.
      unfold absent in *. cbn [py list_ascii_of_string forallb] in *.
      repeat (apply andb_true_iff in Hlit as [? Hlit]).
      apply andb_true_iff in Hlf as [? _].
      repeat (apply andb_true_iff; split); done. }
    split; apply find_absent, Hp; try done;
      destruct Hq as [-> | ->]; by vm_compute.
Qed.

(** [render_bare_signature] at the signature of ["def f():"]. *)
Lemma render_bare_signature_witness :
  ∃ fi',
    _generate_numpy_doc (parse __init__ (py "def f():"))
      quote3_single quote3_double
    = Ok (bare_scaffold 0 quote3_single, fi')
    ∧ arg_name_list fi' = []
    ∧ find (bare_scaffold 0 quote3_single) (py "[description]") = -1.
Proof.
  destruct (render_bare_signature (parse __init__ (py "def f():"))
              quote3_single quote3_double)
    as (fi' & Hr & Hn & Hfind);
    [by vm_compute | by vm_compute | left; by vm_compute | by vm_compute |].
  exists fi'. split; [exact Hr|]. split; [exact Hn|].
  apply Hfind. by left.
Defined.

(** The triple quote handed to the renderer is the quote character of
    the trigger, three times. *)
Lemma _generate_docstring_numpy (text quote : str) :
  text ≠ [] → has_info (parse __init__ text) = true →
  _generate_docstring (py "numpy") (Some text) quote
  = (r ← _generate_numpy_doc (parse __init__ text) (repeat_str quote 3)
          (if bool_decide (quote = [dquote])
           then quote3_single else quote3_double);
     Ok (Some r.1)).
Proof.
  intros Hne Hinfo. unfold _generate_docstring.
  destruct text as [|c text]; [done|]. rewrite Hinfo.
  replace (bool_decide (py "numpy" = py "one-line")) with false
    by (by vm_compute).
  replace (bool_decide (py "numpy" = py "numpy")) with true
    by (by vm_compute).
  fold quote3_single. fold quote3_double.
  by destruct (_generate_numpy_doc _ _ _) as [[doc fi]|].
Qed.

(** Counterexample to C9 as stated: the scaffold rendered for
    ["def f():"] holds no description placeholder at all, so none follows
    the literal [None]; the whole text is the one displayed. *)
Lemma render_none_without_placeholder :
  ∃ doc,
    _generate_docstring (py "numpy") (Some (py "def f():")) (py "'")
    = Ok (Some doc)
    ∧ doc = [LF; LF] ++ py "    Returns" ++ [LF] ++ py "    -------" ++ [LF]
            ++ py "    None" ++ [LF; LF] ++ py "    '''"
    ∧ find doc (py "[description]") = -1.
Proof. eexists. split; [by vm_compute|]. split; by vm_compute. Qed.

(** ** Bracket scanner: the pair map is well nested *)

Lemma bracket_inv_init : bracket_inv 0 ∅ [].
Proof.
  split.
  - intros k v H. by rewrite lookup_empty in H.
  - intros s H. by apply elem_of_nil in H.
  - intros s rest H. apply suffix_nil_inv in H. discriminate.
  - intros s k v H. by apply elem_of_nil in H.
  - intros k1 v1 k2 v2 H. by rewrite lookup_empty in H.
Qed.

Lemma bracket_inv_skip i pos pstack :
  bracket_inv i pos pstack → bracket_inv (i + 1) pos pstack.
Proof.
  intros [Hp Hs Hso Ho Hn]. split; try done.
  - intros k v H. specialize (Hp k v H). lia.
  - intros s H. specialize (Hs s H). lia.
Qed.

Lemma bracket_inv_push i pos pstack :
  0 ≤ i → bracket_inv i pos pstack → bracket_inv (i + 1) pos (i :: pstack).
Proof.
  intros Hi [Hp Hs Hso Ho Hn]. split; try done.
  - intros k v H. specialize (Hp k v H). lia.
  - intros s H. apply elem_of_cons in H as [-> | H]; [lia|].
    specialize (Hs s H). lia.
  - intros s rest Hsuf s' Hin.
    apply suffix_cons_inv in Hsuf as [Heq | Hsuf].
    + injection Heq as -> ->. specialize (Hs s' Hin). lia.
    + by eapply Hso.
  - intros s k v H Hl. apply elem_of_cons in H as [-> | H].
    + specialize (Hp k v Hl). lia.
    + by eapply Ho.
Qed.

Lemma bracket_inv_pop i pos top pstack :
  bracket_inv i pos (top :: pstack) →
  bracket_inv (i + 1) (<[top := i]> pos) pstack.
Proof.
  intros [Hp Hs Hso Ho Hn].
  assert (Htop : 0 ≤ top ∧ top < i) by (apply Hs; left).
  assert (Hbelow : ∀ s, s ∈ pstack → s < top).
  { intros s Hin. by eapply (Hso top pstack). }
  split.
  - intros k v H. apply lookup_insert_Some in H as [[<- <-] | [_ H]]; [lia|].
    specialize (Hp k v H). lia.
  - intros s H. assert (s ∈ top :: pstack) as H' by (by right).
    specialize (Hs s H'). lia.
  - intros s rest Hsuf. eapply Hso. by apply suffix_cons_r.
  - intros s k v Hin H.
    apply lookup_insert_Some in H as [[<- <-] | [_ H]].
    + right. by apply Hbelow.
    + eapply Ho; [by right|done].
  - intros k1 v1 k2 v2 H1 H2 Hne. unfold apart_or_nested.
    apply lookup_insert_Some in H1 as [[<- <-] | [Hk1 H1]];
      apply lookup_insert_Some in H2 as [[<- <-] | [Hk2 H2]].
    + done.
    + destruct (Ho top k2 v2 ltac:(left) H2); specialize (Hp k2 v2 H2); lia.
    + destruct (Ho top k1 v1 ltac:(left) H1); specialize (Hp k1 v1 H1); lia.
    + by apply Hn.
Qed.

Lemma find_bracket_loop_inv bl br pq cs i pos pstack pos' pstack' :
  0 ≤ i → bracket_inv i pos pstack →
  find_bracket_loop bl br pq i cs pos pstack = Ok (pos', pstack') →
  bracket_inv (i + len cs) pos' pstack'.
Proof.
  revert i pos pstack.
  induction cs as [|c cs IH]; intros i pos pstack Hi Hinv Hrun.
  - cbn in Hrun. injection Hrun as <- <-. unfold len. simpl.
    by rewrite Z.add_0_r.
  - replace (i + len (c :: cs)) with ((i + 1) + len cs)
      by (unfold len; simpl length; lia).
    cbn [find_bracket_loop] in Hrun.
    destruct (Ascii.eqb c bl && negb (is_char_in_pairs i pq)).
    { eapply IH; [| |exact Hrun]; [lia|]. by apply bracket_inv_push. }
    destruct (Ascii.eqb c br && negb (is_char_in_pairs i pq)).
    { destruct pstack as [|top pstack]; [discriminate|].
      eapply IH; [| |exact Hrun]; [lia|]. by apply bracket_inv_pop. }
    eapply IH; [| |exact Hrun]; [lia|]. by apply bracket_inv_skip.
Qed.

(** C8.  Whenever the bracket scan succeeds, in the map it returns every
    key maps to a strictly greater value, no value is reached from two
    keys, and any two pairs are either disjoint or one strictly inside
    the other: no two pairs partially overlap.  (Keys and values are
    moreover positions of the text.) *)
Theorem bracket_pairs_well_nested (text : str) (bracket_left bracket_right : ascii)
    (pos_quote pos : gmap Z Z) :
  find_bracket_position text bracket_left bracket_right pos_quote = Ok pos →
  (∀ k v, pos !! k = Some v → k < v)
  ∧ (∀ k1 k2 v, pos !! k1 = Some v → pos !! k2 = Some v → k1 = k2)
  ∧ (∀ k1 v1 k2 v2, pos !! k1 = Some v1 → pos !! k2 = Some v2 → k1 ≠ k2 →
       apart_or_nested k1 v1 k2 v2)
  ∧ (∀ k v, pos !! k = Some v → 0 ≤ k ∧ v < len text).
Proof.
  unfold find_bracket_position. intros H.
  destruct (find_bracket_loop bracket_left bracket_right pos_quote 0 text ∅ [])
    as [[pos' pstack]|e] eqn:Hrun; [|done].
  cbn [mbind result_bind] in H.
  destruct pstack as [|top pstack]; [|done]. injection H as ->.
  apply find_bracket_loop_inv in Hrun; [|done|apply bracket_inv_init].
  destruct Hrun as [Hp _ _ _ Hn].
  split_and!.
  - intros k v H. by apply Hp.
  - intros k1 k2 v H1 H2.
    destruct (decide (k1 = k2)) as [|Hne]; [done|exfalso].
    pose proof (Hn k1 v k2 v H1 H2 Hne) as Ha.
    pose proof (Hp k1 v H1). pose proof (Hp k2 v H2).
    unfold apart_or_nested in Ha. lia.
  - done.
  - intros k v H. specialize (Hp k v H). lia.
Qed.

(** [bracket_pairs_well_nested] on the round brackets of ["((a)(b))"]:
    the pairs are [(0,7)], [(1,3)] and [(4,6)]. *)
Lemma bracket_pairs_well_nested_witness :
  find_bracket_position (py "((a)(b))") "(" ")" ∅
  = Ok (<[0 := 7]> (<[4 := 6]> (<[1 := 3]> ∅)))
  ∧ ∀ k v, (<[0 := 7]> (<[4 := 6]> (<[1 := 3]> ∅)) : gmap Z Z) !! k = Some v
           → k < v.
Proof.
  assert (H : find_bracket_position (py "((a)(b))") "(" ")" ∅
              = Ok (<[0 := 7]> (<[4 := 6]> (<[1 := 3]> ∅))))
    by (vm_compute; reflexivity).
  split; [exact H|].
  exact (proj1 (bracket_pairs_well_nested _ _ _ _ _ H)).
Defined.

(** ** Argument splitter: where the text is cut *)

Lemma find_from_suffix pre rest sub :
  find_from (pre ++ rest) sub (len pre) = find_in sub rest (len pre).
Proof.
  unfold find_from, find_between.
  pose proof (len_nonneg pre). pose proof (len_nonneg rest).
  rewrite lower_id, clamp_id by (rewrite ?len_app; lia).
  destruct (Z.ltb_spec (len (pre ++ rest)) (len pre));
    [rewrite len_app in *; lia|].
  unfold len. rewrite Nat2Z.id, drop_app_length, length_app.
  replace (Z.to_nat _) with (length rest) by lia.
  by rewrite firstn_all.
Qed.

Lemma scan_commas_skip top text i r1 cs a acc :
  ","%char ∉ r1 →
  scan_commas top text i (r1 ++ cs) a acc
  = scan_commas top text (i + len r1) cs a acc.
Proof.
  revert i. induction r1 as [|b r1 IH]; intros i Hnot.
  - unfold len. simpl. by rewrite Z.add_0_r.
  - apply not_elem_of_cons in Hnot as [Hne Hnot].
    cbn [app scan_commas]. destruct (Ascii.eqb_spec b ","); [congruence|].
    cbn [andb]. rewrite IH by done. f_equal. unfold len. simpl length. lia.
Qed.

(** Every iteration of the [while] loop ends at the [break] before the
    fuel runs out, and the loop computes [scan_commas]. *)
Lemma split_loop_scan fuel pr pc ps pq pre rest a acc :
  (length rest < fuel)%nat →
  split_loop fuel (pre ++ rest) pr pc ps pq (len pre) a acc
  = scan_commas (top_level pq pr pc ps) (pre ++ rest) (len pre) rest a acc.
Proof.
  revert pre rest a acc.
  induction fuel as [|fuel IH]; intros pre rest a acc Hfuel; [lia|].
  cbn [split_loop]. rewrite find_from_suffix. change (py ",") with [","%char].
  destruct (find_in_char_cases "," rest (len pre))
    as [[Hnot ->] | (r1 & r2 & -> & Hnot & ->)].
  - rewrite Z.eqb_refl.
    pose proof (scan_commas_skip (top_level pq pr pc ps) (pre ++ rest)
                  (len pre) rest [] a acc Hnot) as E.
    rewrite app_nil_r in E. by rewrite E.
  - pose proof (len_nonneg pre). pose proof (len_nonneg r1).
    destruct (Z.eqb_spec (len pre + len r1) (-1)); [lia|].
    rewrite scan_commas_skip by done.
    cbn [scan_commas]. rewrite Ascii.eqb_refl. cbn [andb].
    assert (Hpre : pre ++ r1 ++ "," :: r2 = (pre ++ r1 ++ [","%char]) ++ r2)
      by (by rewrite <- !app_assoc).
    assert (Hlen : len pre + len r1 + 1 = len (pre ++ r1 ++ [","%char]))
      by (rewrite !len_app; unfold len; simpl length; lia).
    rewrite length_app in Hfuel. simpl in Hfuel.
    unfold top_level.
    destruct (is_char_in_pairs (len pre + len r1) pr
              || is_char_in_pairs (len pre + len r1) pc
              || is_char_in_pairs (len pre + len r1) ps
              || is_char_in_pairs (len pre + len r1) pq);
      cbn [negb]; rewrite Hpre, Hlen; apply IH; lia.
Qed.

Lemma split_loop_scan_all fuel pr pc ps pq (text : str) a acc :
  (length text < fuel)%nat →
  split_loop fuel text pr pc ps pq 0 a acc
  = scan_commas (top_level pq pr pc ps) text 0 text a acc.
Proof. exact (split_loop_scan fuel pr pc ps pq [] text a acc). Qed.

(** With fuel to spare the loop gives the same result: the fuel chosen
    by [split_args_text_to_list] is never exhausted. *)
Lemma split_loop_fuel extra pr pc ps pq (text : str) :
  split_loop (S (length text) + extra) text pr pc ps pq 0 0 []
  = split_loop (S (length text)) text pr pc ps pq 0 0 [].
Proof. rewrite !split_loop_scan_all by lia. reflexivity. Qed.

Lemma trailing_start_cons a p ps :
  trailing_start a (p :: ps) = trailing_start (p + 1) ps.
Proof.
  unfold trailing_start. destruct ps as [|q ps]; [done|].
  rewrite last_cons_cons.
  destruct (last (q :: ps)) eqn:E; [done|]. by apply last_None in E.
Qed.

Lemma scan_commas_points top text i cs a acc :
  scan_commas top text i cs a acc
  = (trailing_start a (comma_points top i cs),
     acc ++ segments_between text (comma_points top i cs) a).
Proof.
  revert i a acc. induction cs as [|c cs IH]; intros i a acc.
  - cbn. by rewrite app_nil_r.
  - cbn [scan_commas comma_points].
    destruct (Ascii.eqb c "," && top i); [|apply IH].
    rewrite IH, trailing_start_cons. cbn [segments_between].
    by rewrite <- app_assoc.
Qed.

Lemma comma_points_elem top i cs p :
  p ∈ comma_points top i cs
  ↔ i ≤ p ∧ cs !! Z.to_nat (p - i) = Some ","%char ∧ top p = true.
Proof.
  revert i. induction cs as [|c cs IH]; intros i.
  - cbn. rewrite lookup_nil.
    split; [intros H; by apply elem_of_nil in H | by intros (_ & H & _)].
  - assert (Hstep : ∀ q, i + 1 ≤ q →
              (c :: cs) !! Z.to_nat (q - i) = cs !! Z.to_nat (q - (i + 1))).
    { intros q Hq. replace (Z.to_nat (q - i)) with (S (Z.to_nat (q - (i + 1))))
        by lia. done. }
    cbn [comma_points].
    destruct (Ascii.eqb_spec c ",") as [->|Hne]; cbn [andb].
    + destruct (top i) eqn:Htop.
      * rewrite elem_of_cons, IH. split.
        -- intros [-> | (Hi & Hl & Ht)].
           ++ rewrite Z.sub_diag. split_and!; [lia|done|done].
           ++ rewrite Hstep by lia. split_and!; [lia|done|done].
        -- intros (Hi & Hl & Ht).
           destruct (decide (p = i)) as [|Hne]; [by left|right].
           rewrite Hstep in Hl by lia. split_and!; [lia|done|done].
      * rewrite IH. split.
        -- intros (Hi & Hl & Ht). rewrite Hstep by lia.
           split_and!; [lia|done|done].
        -- intros (Hi & Hl & Ht).
           destruct (decide (p = i)) as [->|Hne]; [congruence|].
           rewrite Hstep in Hl by lia. split_and!; [lia|done|done].
    + rewrite IH. split.
      * intros (Hi & Hl & Ht). rewrite Hstep by lia.
        split_and!; [lia|done|done].
      * intros (Hi & Hl & Ht).
        destruct (decide (p = i)) as [->|Hne'].
        -- rewrite Z.sub_diag in Hl. change (Z.to_nat 0) with 0%nat in Hl.
           cbn in Hl. congruence.
        -- rewrite Hstep in Hl by lia. split_and!; [lia|done|done].
Qed.

(** The value of the splitter, given the four maps. *)
Lemma split_args_text_to_list_eq args_text pq pr pc ps :
  scan_delimiters args_text = Ok (pq, pr, pc, ps) →
  let pts := split_points args_text pq pr pc ps in
  split_args_text_to_list args_text
  = Some (segments_between args_text pts 0
          ++ (if trailing_start 0 pts <? len args_text
              then [slice_from args_text (trailing_start 0 pts)]
              else [])).
Proof.
  intros Hscan pts. unfold split_args_text_to_list. rewrite Hscan.
  rewrite split_loop_scan_all by lia.
  rewrite scan_commas_points.
  fold (split_points args_text pq pr pc ps). fold pts. cbn [app].
  destruct (trailing_start 0 pts <? len args_text); [done|].
  by rewrite app_nil_r.
Qed.

Lemma is_char_in_pairs_iff p (pairs : gmap Z Z) :
  is_char_in_pairs p pairs = true
  ↔ ∃ k v, pairs !! k = Some v ∧ k < p ∧ p < v.
Proof.
  unfold is_char_in_pairs. rewrite existsb_exists. split.
  - intros ([k v] & Hin & H). apply andb_true_iff in H as [H1 H2].
    exists k, v. apply list_elem_of_In, elem_of_map_to_list in Hin.
    split_and!; [done|lia..].
  - intros (k & v & Hl & H1 & H2). exists (k, v). split.
    + by apply list_elem_of_In, elem_of_map_to_list.
    + apply andb_true_iff. split; lia.
Qed.

Lemma top_level_true pq pr pc ps p :
  top_level pq pr pc ps p = true
  ↔ is_char_in_pairs p pq = false ∧ is_char_in_pairs p pr = false
    ∧ is_char_in_pairs p pc = false ∧ is_char_in_pairs p ps = false.
Proof.
  unfold top_level.
  destruct (is_char_in_pairs p pq), (is_char_in_pairs p pr),
    (is_char_in_pairs p pc), (is_char_in_pairs p ps); cbn;
    intuition congruence.
Qed.

Lemma split_points_elem args_text pq pr pc ps p :
  p ∈ split_points args_text pq pr pc ps
  ↔ 0 ≤ p ∧ args_text !! Z.to_nat p = Some ","%char
    ∧ is_char_in_pairs p pq = false ∧ is_char_in_pairs p pr = false
    ∧ is_char_in_pairs p pc = false ∧ is_char_in_pairs p ps = false.
Proof.
  unfold split_points. rewrite comma_points_elem, top_level_true.
  by rewrite Z.sub_0_r.
Qed.

Lemma segments_between_length text pts a :
  length (segments_between text pts a) = length pts.
Proof.
  revert a. induction pts as [|p pts IH]; intros a; [done|].
  cbn. by rewrite IH.
Qed.

(** C5.  The splitter cuts the argument text exactly at the commas whose
    position is enclosed by no pair of the four delimiter maps (quotes,
    parentheses, square brackets, curly braces): a comma enclosed by a
    pair of any map is never a split point.  In particular the span of
    ["(a, b=[1,2], c={'x':1}, d: int = 3)"] is split into exactly four
    segments, and neither [[1,2]] nor [{'x':1}] is cut. *)
Theorem splitter_cuts_at_top_level_commas (args_text : str)
    (pos_quote pos_round pos_curly pos_square : gmap Z Z) :
  scan_delimiters args_text
  = Ok (pos_quote, pos_round, pos_curly, pos_square) →
  let pts := split_points args_text pos_quote pos_round pos_curly pos_square in
  (∀ p, p ∈ pts
        ↔ 0 ≤ p ∧ args_text !! Z.to_nat p = Some ","%char
          ∧ is_char_in_pairs p pos_quote = false
          ∧ is_char_in_pairs p pos_round = false
          ∧ is_char_in_pairs p pos_curly = false
          ∧ is_char_in_pairs p pos_square = false)
  ∧ split_args_text_to_list args_text
    = Some (segments_between args_text pts 0
            ++ (if trailing_start 0 pts <? len args_text
                then [slice_from args_text (trailing_start 0 pts)]
                else []))
  ∧ split_args_text_to_list (py "a, b=[1,2], c={'x':1}, d: int = 3")
    = Some [py "a"; py " b=[1,2]"; py " c={'x':1}"; py " d: int = 3"]
  ∧ raw_segments
      (parse __init__ (py "def f(a, b=[1,2], c={'x':1}, d: int = 3):"))
    = [py "a"; py " b=[1,2]"; py " c={'x':1}"; py " d: int = 3"].
Proof.
  intros Hscan pts. split_and!.
  - intros p. apply split_points_elem.
  - by apply split_args_text_to_list_eq.
  - by vm_compute.
  - by vm_compute.
Qed.

(** [splitter_cuts_at_top_level_commas] at ["f(a,b), c"]: the comma at
    position 3 lies inside the parentheses [(1,5)], the one at position 6
    is the only split point. *)
Lemma splitter_cuts_at_top_level_commas_witness :
  scan_delimiters (py "f(a,b), c") = Ok (∅, <[1 := 5]> ∅, ∅, ∅)
  ∧ split_points (py "f(a,b), c") ∅ (<[1 := 5]> ∅) ∅ ∅ = [6]
  ∧ split_args_text_to_list (py "f(a,b), c") = Some [py "f(a,b)"; py " c"].
Proof.
  assert (H : scan_delimiters (py "f(a,b), c") = Ok (∅, <[1 := 5]> ∅, ∅, ∅))
    by (vm_compute; reflexivity).
  split; [exact H|]. split; [by vm_compute|].
  rewrite (proj1 (proj2 (splitter_cuts_at_top_level_commas _ _ _ _ _ H))).
  by vm_compute.
Defined.

Lemma trailing_start_nonneg args_text pq pr pc ps :
  0 ≤ trailing_start 0 (split_points args_text pq pr pc ps).
Proof.
  unfold trailing_start.
  destruct (last _) as [p|] eqn:E; [|done].
  apply last_Some_elem_of, split_points_elem in E. lia.
Qed.

Lemma slice_from_nil_iff (s : str) a :
  0 ≤ a → slice_from s a = [] ↔ len s ≤ a.
Proof.
  intros Ha. unfold slice_from, clamp. pose proof (len_nonneg s).
  destruct (Z.ltb_spec a 0); [lia|]. unfold len in *. split.
  - intros Hd%drop_nil_inv. lia.
  - intros Hle. apply drop_ge. lia.
Qed.

(** C6 (as amended).  When all four scans succeed, the substring after
    the last split point is the last segment of the output whenever it is
    not empty; when it is empty (the text is empty or ends in a split
    point) no segment is added for it.  In particular an empty text
    yields no argument at all. *)
Theorem splitter_trailing_segment (args_text : str)
    (pos_quote pos_round pos_curly pos_square : gmap Z Z) :
  scan_delimiters args_text
  = Ok (pos_quote, pos_round, pos_curly, pos_square) →
  let pts := split_points args_text pos_quote pos_round pos_curly pos_square in
  let trailing := slice_from args_text (trailing_start 0 pts) in
  ∃ segs,
    split_args_text_to_list args_text = Some segs
    ∧ (trailing ≠ [] →
       last segs = Some trailing ∧ length segs = S (length pts))
    ∧ (trailing = [] →
       segs = segments_between args_text pts 0
       ∧ length segs = length pts)
    ∧ (args_text = [] → segs = []).
Proof.
  intros Hscan pts trailing.
  rewrite (split_args_text_to_list_eq _ _ _ _ _ Hscan). fold pts.
  eexists. split; [reflexivity|].
  pose proof (trailing_start_nonneg args_text pos_quote pos_round pos_curly
                pos_square) as Hnn. fold pts in Hnn.
  pose proof (slice_from_nil_iff args_text _ Hnn) as Hnil. fold trailing in Hnil.
  destruct (Z.ltb_spec (trailing_start 0 pts) (len args_text)) as [Hlt|Hge].
  - split_and!.
    + intros _. fold trailing. rewrite last_snoc, length_app.
      rewrite segments_between_length. simpl. split; [done|lia].
    + intros Ht. apply Hnil in Ht. lia.
    + intros ->. unfold len in Hlt. simpl in Hlt. lia.
  - rewrite app_nil_r. split_and!.
    + intros Ht. exfalso. apply Ht, Hnil. lia.
    + intros _. by rewrite segments_between_length.
    + intros Hempty. unfold pts. by rewrite Hempty.
Qed.

(** [splitter_trailing_segment] at ["a,b"] and at the empty text. *)
Lemma splitter_trailing_segment_witness :
  split_args_text_to_list (py "a,b") = Some [py "a"; py "b"]
  ∧ split_args_text_to_list [] = Some [].
Proof.
  assert (H1 : scan_delimiters (py "a,b") = Ok (∅, ∅, ∅, ∅))
    by (vm_compute; reflexivity).
  assert (H2 : scan_delimiters [] = Ok (∅, ∅, ∅, ∅))
    by (vm_compute; reflexivity).
  destruct (splitter_trailing_segment _ _ _ _ _ H1)
    as (segs1 & E1 & _ & _ & _).
  destruct (splitter_trailing_segment _ _ _ _ _ H2)
    as (segs2 & E2 & _ & _ & Hempty).
  split.
  - rewrite E1. vm_compute in E1. by injection E1 as <-.
  - rewrite E2. f_equal. by apply Hempty.
Defined.

(** Counterexample to C6 as stated.  In ["a,"] every scan succeeds and
    the only split point is position 1; the substring after it is empty
    and the output has no segment for it: the output is [["a"]]. *)
Lemma trailing_empty_not_included :
  scan_delimiters (py "a,") = Ok (∅, ∅, ∅, ∅)
  ∧ split_points (py "a,") ∅ ∅ ∅ ∅ = [1]
  ∧ slice_from (py "a,") (1 + 1) = []
  ∧ split_args_text_to_list (py "a,") = Some [py "a"]
  ∧ last [py "a"] ≠ Some (slice_from (py "a,") (1 + 1))
  ∧ slice_from (py "a,") (1 + 1) ∉ [py "a"].
Proof.
  split_and!; try (vm_compute; reflexivity).
  - intros H. vm_compute in H. discriminate.
  - intros H. apply list_elem_of_singleton in H. vm_compute in H.
    discriminate.
Qed.

(** ** The scanners as lists of pairs *)

(** To compare the scan of a text with the scan of one of its segments,
    the two scanners are read as functions that emit their pairs in a
    list; the maps built by the source hold exactly these pairs. *)

Section PairLists.

Implicit Types (cs pre post seg : str) (pairs : list (Z * Z)).

Lemma enclosed_true p pairs :
  enclosed p pairs = true ↔ ∃ k v, (k, v) ∈ pairs ∧ k < p ∧ p < v.
Proof.
  unfold enclosed, encloses. rewrite existsb_exists. split.
  - intros ([k v] & Hin & H). apply andb_true_iff in H as [H1 H2].
    exists k, v. apply list_elem_of_In in Hin. cbn in *.
    split_and!; [done|lia..].
  - intros (k & v & Hin & H1 & H2). exists (k, v).
    split; [by apply list_elem_of_In|]. cbn. apply andb_true_iff. split; lia.
Qed.

Lemma enclosed_app p pairs1 pairs2 :
  enclosed p (pairs1 ++ pairs2) = enclosed p pairs1 || enclosed p pairs2.
Proof. apply existsb_app. Qed.

(** A map that holds exactly the pairs of a list answers
    [is_char_in_pairs] as the list does. *)
Lemma is_char_in_pairs_enclosed p (m : gmap Z Z) pairs :
  (∀ k v, m !! k = Some v ↔ (k, v) ∈ pairs) →
  is_char_in_pairs p m = enclosed p pairs.
Proof.
  intros Hm. apply eq_true_iff_eq.
  rewrite is_char_in_pairs_iff, enclosed_true.
  split; intros (k & v & H & Hlt); exists k, v; (split; [by apply Hm|done]).
Qed.

Lemma getitem_prev pre cs :
  pre ≠ [] → getitem (pre ++ cs) (len pre - 1) = last pre.
Proof.
  intros Hne. apply last_is_Some in Hne as [a Ha]. rewrite Ha.
  apply last_Some in Ha as [pre' ->].
  assert (Hn : (len (pre' ++ [a]) - 1 <? 0) = false)
    by (apply Z.ltb_ge; rewrite len_app; unfold len; simpl length; lia).
  unfold getitem. rewrite Hn. cbv zeta. rewrite Hn.
  replace (Z.to_nat _) with (length pre')
    by (rewrite len_app; unfold len; simpl length; lia).
  rewrite <- app_assoc. cbn [app]. by apply list_lookup_middle.
Qed.

(** The loop of [find_quote_position] builds the map of [quote_pairs]. *)
Lemma find_quote_loop_pairs cs text pre i (pos : gmap Z Z) opened :
  text = pre ++ cs → i = len pre →
  (opened = None ∨ pre ≠ []) →
  (∀ k v, pos !! k = Some v →
          k < match opened with Some (_, l) => l | None => i end) →
  (∀ q l, opened = Some (q, l) → l < i) →
  ∃ pos',
    find_quote_loop text i cs pos opened
    = (pos', (quote_pairs (last pre) i cs opened).2)
    ∧ ∀ k v, pos' !! k = Some v
             ↔ pos !! k = Some v
               ∨ (k, v) ∈ (quote_pairs (last pre) i cs opened).1.
Proof.
  revert pre i pos opened.
  induction cs as [|c cs IH]; intros pre i pos opened Htext Hi Hprev Hkeys Hleft.
  { exists pos. cbn. split; [done|]. intros k v. rewrite elem_of_nil. tauto. }
  assert (Htext' : text = (pre ++ [c]) ++ cs)
    by (by rewrite <- app_assoc).
  assert (Hi' : i + 1 = len (pre ++ [c]))
    by (rewrite Hi, len_app; unfold len; simpl length; lia).
  assert (Hne : pre ++ [c] ≠ []) by (by destruct pre).
  pose proof (IH (pre ++ [c]) (i + 1)) as IH'.
  rewrite last_snoc in IH'.
  cbn [find_quote_loop quote_pairs]. fold (is_quote c).
  destruct opened as [[q l]|].
  - destruct Hprev as [|Hpre]; [done|].
    assert (Hget : getitem text (i - 1) = last pre)
      by (rewrite Htext, Hi; by apply getitem_prev).
    rewrite Hget.
    specialize (Hleft q l eq_refl).
    destruct (Ascii.eqb c q && negb (bool_decide (last pre = Some backslash))).
    + destruct (IH' (<[l := i]> pos) None) as (pos' & E & Hl); try done.
      * by left.
      * intros k v Hk. apply lookup_insert_Some in Hk as [[<- _] | [_ Hk]].
        -- lia.
        -- specialize (Hkeys k v Hk). lia.
      * exists pos'. split; [exact E|].
        intros k v. cbn [fst snd]. rewrite Hl, lookup_insert_Some, elem_of_cons.
        split.
        -- intros [[[<- <-] | [_ Hk]] | Hin]; auto.
        -- intros [Hk | [Heq | Hin]]; auto.
           ++ left. right. split; [|done]. specialize (Hkeys k v Hk). lia.
           ++ injection Heq as -> ->. auto.
    + apply IH'; [done | done | by right | exact Hkeys |].
      intros q' l' [= <- <-]. lia.
  - destruct (is_quote c).
    + apply IH'; [done | done | by right | exact Hkeys |].
      intros q' l' [= <- <-]. lia.
    + apply IH'; [done | done | by right | | done].
      intros k v Hk. specialize (Hkeys k v Hk). lia.
Qed.

(** The value of [find_quote_position] in terms of [quote_pairs]. *)
Lemma find_quote_position_pairs text :
  match (quote_pairs None 0 text None).2 with
  | None =>
      ∃ m, find_quote_position text = Ok m
           ∧ ∀ k v, m !! k = Some v
                    ↔ (k, v) ∈ (quote_pairs None 0 text None).1
  | Some _ => ∃ e, find_quote_position text = Raise e
  end.
Proof.
  destruct (find_quote_loop_pairs text text [] 0 ∅ None eq_refl eq_refl
              (or_introl eq_refl)) as (m & E & Hm).
  { intros k v H. by rewrite lookup_empty in H. }
  { intros q l H. discriminate. }
  unfold find_quote_position. rewrite E. cbn [last] in *.
  destruct (quote_pairs None 0 text None).2 as [[q l]|].
  - by eexists.
  - exists m. split; [done|]. intros k v. rewrite Hm, lookup_empty.
    split; [by intros [|]|by right].
Qed.

End PairLists.

(** The loop of [find_bracket_position] builds the map of
    [bracket_pairs]. *)
Lemma find_bracket_loop_pairs bl br pq cs i (pos : gmap Z Z) pstack :
  0 ≤ i → bracket_inv i pos pstack →
  match bracket_pairs bl br (fun j => is_char_in_pairs j pq) i cs pstack with
  | Some r =>
      ∃ pos', find_bracket_loop bl br pq i cs pos pstack = Ok (pos', r.2)
              ∧ ∀ k v, pos' !! k = Some v ↔ pos !! k = Some v ∨ (k, v) ∈ r.1
  | None => ∃ e, find_bracket_loop bl br pq i cs pos pstack = Raise e
  end.
Proof.
  revert i pos pstack. induction cs as [|c cs IH]; intros i pos pstack Hi Hinv.
  { cbn. exists pos. split; [done|]. intros k v. rewrite elem_of_nil. tauto. }
  cbn [bracket_pairs find_bracket_loop].
  destruct (Ascii.eqb c bl && negb (is_char_in_pairs i pq)).
  { apply IH; [lia|]. by apply bracket_inv_push. }
  destruct (Ascii.eqb c br && negb (is_char_in_pairs i pq)).
  2: { apply IH; [lia|]. by apply bracket_inv_skip. }
  destruct pstack as [|top pstack]; [by eexists|].
  specialize (IH (i + 1) (<[top := i]> pos) pstack ltac:(lia)
                (bracket_inv_pop _ _ _ _ Hinv)).
  destruct (bracket_pairs bl br _ (i + 1) cs pstack) as [r|]; [|exact IH].
  cbn [mbind option_bind fst snd].
  destruct IH as (pos' & E & Hl). exists pos'. split; [exact E|].
  intros k v. rewrite Hl, lookup_insert_Some, elem_of_cons. split.
  - intros [[[<- <-] | [_ Hk]] | Hin]; auto.
  - intros [Hk | [Heq | Hin]]; auto.
    + left. right. split; [|done].
      destruct Hinv as [Hp _ _ Ho _].
      destruct (Ho top k v ltac:(left) Hk); specialize (Hp k v Hk); lia.
    + injection Heq as -> ->. auto.
Qed.

(** The value of [find_bracket_position] in terms of [bracket_pairs]. *)
Lemma find_bracket_position_pairs text bl br pq :
  match bracket_pairs bl br (fun j => is_char_in_pairs j pq) 0 text [] with
  | Some (pairs, []) =>
      ∃ m, find_bracket_position text bl br pq = Ok m
           ∧ ∀ k v, m !! k = Some v ↔ (k, v) ∈ pairs
  | _ => ∃ e, find_bracket_position text bl br pq = Raise e
  end.
Proof.
  pose proof (find_bracket_loop_pairs bl br pq text 0 ∅ [] ltac:(done)
                bracket_inv_init) as H.
  unfold find_bracket_position.
  destruct (bracket_pairs bl br _ 0 text []) as [[pairs pstack]|].
  - destruct H as (m & -> & Hm). cbn [mbind result_bind fst snd] in *.
    destruct pstack as [|top pstack]; [|by eexists].
    exists m. split; [done|]. intros k v. rewrite Hm, lookup_empty.
    split; [by intros [|]|by right].
  - destruct H as (e & ->). by eexists.
Qed.

(** *** Scanning a text in two parts, and scanning a part on its own *)

Lemma prev_after_cons prev c cs :
  prev_after prev (c :: cs) = prev_after (Some c) cs.
Proof.
  unfold prev_after. destruct cs as [|b cs]; [done|].
  rewrite last_cons_cons.
  destruct (last (b :: cs)) eqn:E; [done|]. by apply last_None in E.
Qed.

Lemma len_cons c (cs : str) : len (c :: cs) = 1 + len cs.
Proof. unfold len. simpl length. lia. Qed.

Lemma quote_pairs_app prev i cs1 cs2 opened :
  quote_pairs prev i (cs1 ++ cs2) opened
  = let r1 := quote_pairs prev i cs1 opened in
    let r2 := quote_pairs (prev_after prev cs1) (i + len cs1) cs2 r1.2 in
    (r1.1 ++ r2.1, r2.2).
Proof.
  revert prev i opened.
  induction cs1 as [|c cs1 IH]; intros prev i opened; cbv zeta.
  { cbn [app quote_pairs fst snd]. change (len []) with 0.
    rewrite Z.add_0_r. unfold prev_after. cbn [last].
    by destruct (quote_pairs prev i cs2 opened). }
  rewrite prev_after_cons, len_cons, Z.add_assoc.
  cbn [app quote_pairs].
  destruct opened as [[q l]|].
  - destruct (Ascii.eqb c q && negb (bool_decide (prev = Some backslash))).
    + cbv zeta. rewrite IH. done.
    + by rewrite IH.
  - destruct (is_quote c); by rewrite IH.
Qed.

Lemma quote_pairs_shift d prev i cs opened :
  quote_pairs prev (i + d) cs (shift_state d opened)
  = (shift_pair d <$> (quote_pairs prev i cs opened).1,
     shift_state d (quote_pairs prev i cs opened).2).
Proof.
  revert prev i opened. induction cs as [|c cs IH]; intros prev i opened.
  { done. }
  cbn [quote_pairs]. replace (i + d + 1) with (i + 1 + d) by lia.
  pose proof (IH (Some c) (i + 1) None) as IHn.
  pose proof (IH (Some c) (i + 1) (Some (c, i))) as IHc.
  destruct opened as [[q l]|].
  - pose proof (IH (Some c) (i + 1) (Some (q, l))) as IHo.
    cbn [shift_state fmap option_fmap option_map fst snd] in *.
    destruct (Ascii.eqb c q && negb (bool_decide (prev = Some backslash))).
    + cbv zeta. rewrite IHn. reflexivity.
    + exact IHo.
  - cbn [shift_state fmap option_fmap option_map fst snd] in *.
    destruct (is_quote c); [exact IHc | exact IHn].
Qed.

Lemma quote_pairs_prev prev prev' i cs :
  quote_pairs prev i cs None = quote_pairs prev' i cs None.
Proof. by destruct cs. Qed.

(** Where the pairs and the open quote of a scan lie. *)
Lemma quote_pairs_bounds prev i cs opened :
  (∀ q l, opened = Some (q, l) → l < i ∧ is_quote q = true) →
  (∀ k v, (k, v) ∈ (quote_pairs prev i cs opened).1 →
     ((∃ q, opened = Some (q, k)) ∨ i ≤ k) ∧ i ≤ v ∧ v < i + len cs)
  ∧ (∀ q l, (quote_pairs prev i cs opened).2 = Some (q, l) →
       l < i + len cs ∧ is_quote q = true).
Proof.
  revert prev i opened.
  induction cs as [|c cs IH]; intros prev i opened Hop.
  { cbn. split.
    - intros k v H. by apply elem_of_nil in H.
    - intros q l ->. change (len []) with 0. rewrite Z.add_0_r. by apply Hop. }
  rewrite len_cons. cbn [quote_pairs].
  destruct opened as [[q l]|].
  - destruct (Hop q l eq_refl) as [Hl Hq].
    destruct (Ascii.eqb c q && negb (bool_decide (prev = Some backslash))).
    + destruct (IH (Some c) (i + 1) None) as [IH1 IH2]; [done|].
      cbv zeta. cbn [fst snd]. split.
      * intros k v Hin. apply elem_of_cons in Hin as [[= -> ->] | Hin].
        -- split; [left; by exists q|]. pose proof (len_nonneg cs). lia.
        -- destruct (IH1 k v Hin) as ([[q' H] | H] & H1 & H2); [done|].
           split; [right|]; lia.
      * intros q' l' H. destruct (IH2 q' l' H). split; [lia|done].
    + destruct (IH (Some c) (i + 1) (Some (q, l))) as [IH1 IH2].
      { intros q' l' [= <- <-]. split; [lia|done]. }
      split.
      * intros k v Hin.
        destruct (IH1 k v Hin) as ([[q' H] | H] & H1 & H2).
        -- injection H as <- <-. split; [left; by exists q|]. lia.
        -- split; [right|]; lia.
      * intros q' l' H. destruct (IH2 q' l' H). split; [lia|done].
  - destruct (is_quote c) eqn:Hc.
    + destruct (IH (Some c) (i + 1) (Some (c, i))) as [IH1 IH2].
      { intros q' l' [= <- <-]. split; [lia|done]. }
      split.
      * intros k v Hin.
        destruct (IH1 k v Hin) as ([[q' H] | H] & H1 & H2).
        -- injection H as <- <-. split; [right|]; lia.
        -- split; [right|]; lia.
      * intros q' l' H. destruct (IH2 q' l' H). split; [lia|done].
    + destruct (IH (Some c) (i + 1) None) as [IH1 IH2]; [done|].
      split.
      * intros k v Hin.
        destruct (IH1 k v Hin) as ([[q' H] | H] & H1 & H2); [done|].
        split; [right|]; lia.
      * intros q' l' H. destruct (IH2 q' l' H). split; [lia|done].
Qed.

(** A quote that is open and gets closed is the left end of a pair. *)
Lemma quote_pairs_closes prev i cs q l :
  (quote_pairs prev i cs (Some (q, l))).2 = None →
  ∃ v, i ≤ v ∧ (l, v) ∈ (quote_pairs prev i cs (Some (q, l))).1.
Proof.
  revert prev i. induction cs as [|c cs IH]; intros prev i; [done|].
  cbn [quote_pairs].
  destruct (Ascii.eqb c q && negb (bool_decide (prev = Some backslash))).
  - intros _. exists i. split; [lia|]. cbv zeta. cbn [fst]. by left.
  - intros H. destruct (IH _ _ H) as (v & Hv & Hin). exists v. split; [lia|done].
Qed.

Lemma enclosed_shift d p pairs :
  enclosed (p + d) (shift_pair d <$> pairs) = enclosed p pairs.
Proof.
  unfold enclosed. induction pairs as [|[k v] pairs IH]; [done|].
  cbn [fmap list_fmap existsb]. rewrite IH. f_equal.
  unfold encloses, shift_pair. cbn [fst snd].
  destruct (Z.ltb_spec (k + d) (p + d)), (Z.ltb_spec k p);
    destruct (Z.ltb_spec (p + d) (v + d)), (Z.ltb_spec p v); lia || done.
Qed.

(** Pairs that end before [p], or start at or after [p], do not enclose
    [p]. *)
Lemma enclosed_outside p pairs :
  (∀ k v, (k, v) ∈ pairs → v ≤ p ∨ p ≤ k) → enclosed p pairs = false.
Proof.
  intros H. destruct (enclosed p pairs) eqn:E; [|done].
  apply enclosed_true in E as (k & v & Hin & H1 & H2).
  destruct (H k v Hin); lia.
Qed.

(** At a character that is not a quote and that no pair encloses, the
    quote scanner is outside every string, before and after it. *)
Lemma quote_boundary pre c post :
  (quote_pairs None 0 (pre ++ c :: post) None).2 = None →
  is_quote c = false →
  enclosed (len pre) (quote_pairs None 0 (pre ++ c :: post) None).1 = false →
  (quote_pairs None 0 pre None).2 = None
  ∧ (quote_pairs None 0 (pre ++ [c]) None).2 = None.
Proof.
  rewrite !quote_pairs_app. cbv zeta. cbn [fst snd]. rewrite Z.add_0_l.
  intros Hfin Hc Henc.
  destruct (quote_pairs None 0 pre None).2 as [[q l]|] eqn:E.
  - exfalso.
    destruct (quote_pairs_bounds None 0 pre None) as [_ Hb]; [done|].
    destruct (Hb q l E) as [Hl Hq].
    cbn [quote_pairs] in Hfin, Henc.
    assert (Hne : Ascii.eqb c q = false).
    { destruct (Ascii.eqb_spec c q) as [->|]; [congruence|done]. }
    rewrite Hne in *. cbn [andb] in *.
    destruct (quote_pairs_closes _ _ _ _ _ Hfin) as (v & Hv & Hin).
    rewrite enclosed_app in Henc. apply orb_false_iff in Henc as [_ Henc].
    assert (Ht : enclosed (len pre)
                   (quote_pairs (Some c) (len pre + 1) post (Some (q, l))).1
                 = true).
    { apply enclosed_true. exists l, v. split; [done|lia]. }
    congruence.
  - split; [done|]. cbn [quote_pairs]. by rewrite Hc.
Qed.

(** A part of the text that the quote scanner enters and leaves outside
    every string has, scanned on its own, the pairs it has in the text,
    moved to the left. *)
Lemma quote_pairs_middle pre seg post :
  (quote_pairs None 0 pre None).2 = None →
  (quote_pairs None 0 (pre ++ seg) None).2 = None →
  (quote_pairs None 0 seg None).2 = None
  ∧ ∀ j, 0 ≤ j → j < len seg →
      enclosed (j + len pre) (quote_pairs None 0 (pre ++ seg ++ post) None).1
      = enclosed j (quote_pairs None 0 seg None).1.
Proof.
  intros Hpre Hseg.
  pose proof (quote_pairs_shift (len pre) None 0 seg None) as Hsh.
  cbn [shift_state fmap option_fmap option_map] in Hsh.
  rewrite Z.add_0_l in Hsh.
  assert (Hmid : quote_pairs (prev_after None pre) (len pre) seg None
                 = (shift_pair (len pre) <$> (quote_pairs None 0 seg None).1,
                    shift_state (len pre) (quote_pairs None 0 seg None).2)).
  { by rewrite (quote_pairs_prev _ None). }
  rewrite quote_pairs_app in Hseg. cbv zeta in Hseg. cbn [snd] in Hseg.
  rewrite Hpre, Z.add_0_l, Hmid in Hseg. cbn [snd] in Hseg.
  assert (Hs : (quote_pairs None 0 seg None).2 = None).
  { by destruct (quote_pairs None 0 seg None).2. }
  split; [exact Hs|]. intros j Hj0 Hj.
  rewrite app_assoc, quote_pairs_app. cbv zeta. cbn [fst].
  rewrite (quote_pairs_app None 0 pre seg). cbv zeta. cbn [fst snd].
  rewrite Hpre, Z.add_0_l, Hmid. cbn [fst snd]. rewrite Hs.
  rewrite !enclosed_app, enclosed_shift.
  cbn [shift_state fmap option_fmap option_map].
  destruct (quote_pairs_bounds None 0 pre None) as [Hb1 _]; [done|].
  destruct (quote_pairs_bounds (prev_after None (pre ++ seg))
              (len (pre ++ seg)) post None) as [Hb3 _]; [done|].
  rewrite (enclosed_outside _ (quote_pairs None 0 pre None).1).
  2: { intros k v Hin. destruct (Hb1 k v Hin) as (_ & _ & H). lia. }
  rewrite (enclosed_outside _ (quote_pairs _ _ post None).1).
  2: { intros k v Hin. destruct (Hb3 k v Hin) as ([[q H] | H] & _ & _);
         [done|]. rewrite len_app in H. lia. }
  by rewrite orb_false_r.
Qed.

(** *** The same for the bracket scanner *)

Lemma bracket_pairs_app bl br inq i cs1 cs2 pstack :
  bracket_pairs bl br inq i (cs1 ++ cs2) pstack
  = (r1 ← bracket_pairs bl br inq i cs1 pstack;
     r2 ← bracket_pairs bl br inq (i + len cs1) cs2 r1.2;
     Some (r1.1 ++ r2.1, r2.2)).
Proof.
  revert i pstack. induction cs1 as [|c cs1 IH]; intros i pstack.
  { cbn [app bracket_pairs mbind option_bind fst snd]. change (len []) with 0.
    rewrite Z.add_0_r. by destruct (bracket_pairs bl br inq i cs2 pstack)
      as [[a b]|]. }
  rewrite len_cons, Z.add_assoc. cbn [app bracket_pairs].
  destruct (Ascii.eqb c bl && negb (inq i)); [apply IH|].
  destruct (Ascii.eqb c br && negb (inq i)); [|apply IH].
  destruct pstack as [|top pstack]; [done|].
  rewrite IH.
  destruct (bracket_pairs bl br inq (i + 1) cs1 pstack) as [r1|]; [|done].
  cbn [mbind option_bind fst snd].
  by destruct (bracket_pairs bl br inq (i + 1 + len cs1) cs2 r1.2) as [r2|].
Qed.

Lemma bracket_pairs_shift bl br inq inq' d i cs (pstack : list Z) :
  (∀ j, i ≤ j → j < i + len cs → inq (j + d) = inq' j) →
  bracket_pairs bl br inq (i + d) cs ((fun s => s + d) <$> pstack)
  = (fun r : list (Z * Z) * list Z =>
       (shift_pair d <$> r.1, (fun s => s + d) <$> r.2))
      <$> bracket_pairs bl br inq' i cs pstack.
Proof.
  revert i pstack. induction cs as [|c cs IH]; intros i pstack Hinq; [done|].
  rewrite len_cons in Hinq. pose proof (len_nonneg cs) as Hlen.
  cbn [bracket_pairs]. rewrite (Hinq i) by lia.
  replace (i + d + 1) with (i + 1 + d) by lia.
  assert (Hinq' : ∀ j, i + 1 ≤ j → j < i + 1 + len cs → inq (j + d) = inq' j)
    by (intros j ? ?; apply Hinq; lia).
  destruct (Ascii.eqb c bl && negb (inq' i)).
  { by rewrite <- (IH (i + 1) (i :: pstack) Hinq'). }
  destruct (Ascii.eqb c br && negb (inq' i)); [|by apply IH].
  destruct pstack as [|top pstack]; [done|].
  cbn [fmap list_fmap]. rewrite (IH (i + 1) pstack Hinq').
  by destruct (bracket_pairs bl br inq' (i + 1) cs pstack) as [r|].
Qed.

Lemma bracket_pairs_bounds bl br inq i cs pstack r :
  bracket_pairs bl br inq i cs pstack = Some r →
  (∀ k v, (k, v) ∈ r.1 → (k ∈ pstack ∨ i ≤ k) ∧ i ≤ v ∧ v < i + len cs)
  ∧ (∀ s, s ∈ r.2 → s ∈ pstack ∨ (i ≤ s ∧ s < i + len cs)).
Proof.
  revert i pstack r. induction cs as [|c cs IH]; intros i pstack r.
  { intros [= <-]. cbn [fst snd]. split; [|by left].
    intros k v H. by apply elem_of_nil in H. }
  rewrite len_cons. pose proof (len_nonneg cs) as Hlen.
  cbn [bracket_pairs].
  destruct (Ascii.eqb c bl && negb (inq i)).
  { intros H. destruct (IH _ _ _ H) as [IH1 IH2]. split.
    - intros k v Hin. destruct (IH1 k v Hin) as ([Hk | Hk] & H1 & H2).
      + apply elem_of_cons in Hk as [-> | Hk]; (split; [|lia]); [right; lia|by left].
      + split; [right|]; lia.
    - intros s Hin. destruct (IH2 s Hin) as [Hs | Hs].
      + apply elem_of_cons in Hs as [-> | Hs]; [right; lia|by left].
      + right. lia. }
  destruct (Ascii.eqb c br && negb (inq i)).
  2: { intros H. destruct (IH _ _ _ H) as [IH1 IH2]. split.
       - intros k v Hin. destruct (IH1 k v Hin) as ([Hk | Hk] & H1 & H2).
         + split; [by left|lia].
         + split; [right|]; lia.
       - intros s Hin. destruct (IH2 s Hin) as [Hs | Hs]; [by left|right; lia]. }
  destruct pstack as [|top pstack]; [done|].
  destruct (bracket_pairs bl br inq (i + 1) cs pstack) as [r'|] eqn:E; [|done].
  cbn [mbind option_bind]. intros [= <-]. cbn [fst snd].
  destruct (IH _ _ _ E) as [IH1 IH2]. split.
  - intros k v Hin. apply elem_of_cons in Hin as [[= -> ->] | Hin].
    + split; [left; by left|lia].
    + destruct (IH1 k v Hin) as ([Hk | Hk] & H1 & H2).
      * split; [left; by right|lia].
      * split; [right|]; lia.
  - intros s Hin. destruct (IH2 s Hin) as [Hs | Hs].
    + left. by right.
    + right. lia.
Qed.

(** An opener that is on the stack of a scan that ends with an empty
    stack is the left end of a pair. *)
Lemma bracket_pairs_closes bl br inq i cs pstack r :
  bracket_pairs bl br inq i cs pstack = Some r → r.2 = [] →
  ∀ s, s ∈ pstack → ∃ v, i ≤ v ∧ (s, v) ∈ r.1.
Proof.
  revert i pstack r. induction cs as [|c cs IH]; intros i pstack r.
  { intros [= <-]. cbn [snd]. intros -> s H. by apply elem_of_nil in H. }
  cbn [bracket_pairs].
  destruct (Ascii.eqb c bl && negb (inq i)).
  { intros H Hr s Hs. destruct (IH _ _ _ H Hr s ltac:(by right)) as (v & Hv & Hin).
    exists v. split; [lia|done]. }
  destruct (Ascii.eqb c br && negb (inq i)).
  2: { intros H Hr s Hs. destruct (IH _ _ _ H Hr s Hs) as (v & Hv & Hin).
       exists v. split; [lia|done]. }
  destruct pstack as [|top pstack]; [done|].
  destruct (bracket_pairs bl br inq (i + 1) cs pstack) as [r'|] eqn:E; [|done].
  cbn [mbind option_bind]. intros [= <-]. cbn [fst snd]. intros Hr s Hs.
  apply elem_of_cons in Hs as [-> | Hs].
  - exists i. split; [lia|by left].
  - destruct (IH _ _ _ E Hr s Hs) as (v & Hv & Hin).
    exists v. split; [lia|by right].
Qed.

(** At a character that is no bracket of the kind scanned and that no
    pair encloses, the stack is empty, before and after it. *)
Lemma bracket_boundary bl br inq pre c post r :
  bracket_pairs bl br inq 0 (pre ++ c :: post) [] = Some r → r.2 = [] →
  c ≠ bl → c ≠ br → enclosed (len pre) r.1 = false →
  ∃ r1, bracket_pairs bl br inq 0 pre [] = Some r1 ∧ r1.2 = []
        ∧ bracket_pairs bl br inq 0 (pre ++ [c]) [] = Some (r1.1 ++ [], []).
Proof.
  rewrite !bracket_pairs_app. rewrite Z.add_0_l.
  destruct (bracket_pairs bl br inq 0 pre []) as [r1|] eqn:E1; [|done].
  cbn [mbind option_bind bracket_pairs].
  destruct (Ascii.eqb_spec c bl) as [|_]; [done|].
  destruct (Ascii.eqb_spec c br) as [|_]; [done|]. cbn [andb].
  destruct (bracket_pairs bl br inq (len pre + 1) post r1.2) as [r2|] eqn:E2;
    [|done].
  intros [= <-] Hr _ _ Henc. cbn [fst snd] in *.
  exists r1. split; [done|].
  destruct r1.2 as [|s st] eqn:Es; [done|exfalso].
  destruct (bracket_pairs_bounds _ _ _ _ _ _ _ E1) as [_ Hb].
  destruct (Hb s) as [Hs | Hs]; [rewrite Es; by left|by apply elem_of_nil in Hs|].
  destruct (bracket_pairs_closes _ _ _ _ _ _ _ E2 Hr s ltac:(by left))
    as (v & Hv & Hin).
  rewrite enclosed_app in Henc. apply orb_false_iff in Henc as [_ Henc].
  assert (Ht : enclosed (len pre) r2.1 = true).
  { apply enclosed_true. exists s, v. split; [done|lia]. }
  congruence.
Qed.

(** A part of the text that the bracket scanner enters and leaves with
    an empty stack has, scanned on its own, the pairs it has in the text,
    moved to the left. *)
Lemma bracket_pairs_middle bl br inq inq_s pre seg post r r1 r12 :
  bracket_pairs bl br inq 0 (pre ++ seg ++ post) [] = Some r →
  bracket_pairs bl br inq 0 pre [] = Some r1 → r1.2 = [] →
  bracket_pairs bl br inq 0 (pre ++ seg) [] = Some r12 → r12.2 = [] →
  (∀ j, 0 ≤ j → j < len seg → inq (j + len pre) = inq_s j) →
  ∃ rs, bracket_pairs bl br inq_s 0 seg [] = Some rs ∧ rs.2 = []
        ∧ ∀ j, 0 ≤ j → j < len seg →
            enclosed (j + len pre) r.1 = enclosed j rs.1.
Proof.
  intros Hr Hr1 Hs1 Hr12 Hs12 Hinq.
  pose proof (bracket_pairs_shift bl br inq inq_s (len pre) 0 seg []) as Hsh.
  rewrite !Z.add_0_l in Hsh. cbn [fmap list_fmap] in Hsh.
  specialize (Hsh Hinq).
  pose proof Hr12 as Hsplit.
  rewrite bracket_pairs_app, Hr1, Z.add_0_l in Hsplit.
  cbn [mbind option_bind] in Hsplit. rewrite Hs1, Hsh in Hsplit.
  destruct (bracket_pairs bl br inq_s 0 seg []) as [rs|] eqn:Es; [|done].
  cbn [fmap option_fmap option_map mbind option_bind fst snd] in Hsplit.
  injection Hsplit as <-. cbn [snd] in Hs12.
  exists rs. split; [done|]. split.
  { by destruct rs.2. }
  intros j Hj0 Hj.
  rewrite app_assoc, bracket_pairs_app, Hr12 in Hr.
  cbn [mbind option_bind fst snd] in Hr. rewrite Hs12 in Hr.
  destruct (bracket_pairs bl br inq (0 + len (pre ++ seg)) post [])
    as [r3|] eqn:E3; [|done].
  cbn [mbind option_bind] in Hr. injection Hr as <-. cbn [fst].
  rewrite !enclosed_app, enclosed_shift.
  destruct (bracket_pairs_bounds _ _ _ _ _ _ _ Hr1) as [Hb1 _].
  destruct (bracket_pairs_bounds _ _ _ _ _ _ _ E3) as [Hb3 _].
  rewrite (enclosed_outside _ r1.1).
  2: { intros k v Hin. destruct (Hb1 k v Hin) as (_ & _ & H). lia. }
  rewrite (enclosed_outside _ r3.1).
  2: { intros k v Hin. destruct (Hb3 k v Hin) as ([H | H] & _ & _).
       - by apply elem_of_nil in H.
       - rewrite len_app in H. lia. }
  by rewrite orb_false_r.
Qed.

(** ** Re-splitting a segment *)

(** Every segment the splitter returns is such a piece. *)
Lemma segments_pieces_from top text cs pre cur i a seg :
  text = pre ++ cur ++ cs → i = len pre + len cur → a = len pre →
  (pre = [] ∨ ∃ pre', pre = pre' ++ [","%char] ∧ top (len pre') = true) →
  (∀ j : nat, cur !! j = Some ","%char →
              top (len pre + Z.of_nat j) = false) →
  seg ∈ segments_between text (comma_points top i cs) a
        ++ (if trailing_start a (comma_points top i cs) <? len text
            then [slice_from text (trailing_start a (comma_points top i cs))]
            else []) →
  ∃ pre' post', is_piece top text pre' seg post'.
Proof.
  revert pre cur i a.
  induction cs as [|c cs IH]; intros pre cur i a Htext Hi Ha HL Hint Hin.
  - cbn [comma_points segments_between app] in Hin.
    unfold trailing_start in Hin. cbn [last] in Hin.
    destruct (a <? len text); [|by apply elem_of_nil in Hin].
    apply list_elem_of_singleton in Hin.
    rewrite app_nil_r in Htext.
    assert (seg = cur) as ->.
    { rewrite Hin, Htext, Ha. apply slice_from_suffix. }
    exists pre, []. split_and!; [by rewrite app_nil_r|done|by left|done].
  - assert (Hcur : slice text a i = cur).
    { rewrite Htext, Hi, Ha. apply slice_middle. }
    cbn [comma_points] in Hin.
    destruct (Ascii.eqb_spec c ",") as [->|Hc]; cbn [andb] in Hin.
    + destruct (top i) eqn:Htop.
      * cbn [segments_between app] in Hin. rewrite trailing_start_cons in Hin.
        apply elem_of_cons in Hin as [-> | Hin].
        -- rewrite Hcur. exists pre, (","%char :: cs).
           split_and!; [done|done| |done].
           right. exists cs. split; [done|]. by rewrite <- Hi.
        -- apply (IH (pre ++ cur ++ [","%char]) [] (i + 1) (i + 1)); try done.
           ++ rewrite Htext, <- !app_assoc. done.
           ++ rewrite !len_app, Hi. unfold len. simpl length. lia.
           ++ rewrite !len_app, Hi. unfold len. simpl length. lia.
           ++ right. exists (pre ++ cur). split; [by rewrite <- app_assoc|].
              by rewrite len_app, <- Hi.
      * apply (IH pre (cur ++ [","%char]) (i + 1) a); try done.
        -- rewrite Htext, <- !app_assoc. done.
        -- rewrite !len_app, Hi. unfold len. simpl length. lia.
        -- intros j Hj. destruct (decide (j < length cur)%nat) as [Hlt|Hge].
           ++ rewrite lookup_app_l in Hj by done. by apply Hint.
           ++ apply lookup_lt_Some in Hj as Hb. rewrite length_app in Hb.
              simpl in Hb. assert (j = length cur) as -> by lia.
              rewrite <- Htop. f_equal. rewrite Hi. unfold len. lia.
    + apply (IH pre (cur ++ [c]) (i + 1) a); try done.
      * rewrite Htext, <- !app_assoc. done.
      * rewrite !len_app, Hi. unfold len. simpl length. lia.
      * intros j Hj. destruct (decide (j < length cur)%nat) as [Hlt|Hge].
        -- rewrite lookup_app_l in Hj by done. by apply Hint.
        -- apply lookup_lt_Some in Hj as Hb. rewrite length_app in Hb.
           simpl in Hb. assert (j = length cur) as -> by lia.
           rewrite list_lookup_middle in Hj by done. congruence.
Qed.

Lemma segments_pieces top (text seg : str) :
  seg ∈ segments_between text (comma_points top 0 text) 0
        ++ (if trailing_start 0 (comma_points top 0 text) <? len text
            then [slice_from text (trailing_start 0 (comma_points top 0 text))]
            else []) →
  ∃ pre post, is_piece top text pre seg post.
Proof.
  apply (segments_pieces_from top text text [] [] 0 0); try done;
    first [by left | intros j Hj; by rewrite lookup_nil in Hj].
Qed.

(** The quote scan of a piece. *)
Lemma quote_piece text pre seg post (m : gmap Z Z) :
  find_quote_position text = Ok m →
  text = pre ++ seg ++ post →
  (pre = [] ∨ ∃ pre', pre = pre' ++ [","%char]
                      ∧ is_char_in_pairs (len pre') m = false) →
  (post = [] ∨ ∃ post', post = ","%char :: post'
                        ∧ is_char_in_pairs (len pre + len seg) m = false) →
  ∃ ms, find_quote_position seg = Ok ms
        ∧ ∀ j, 0 ≤ j → j < len seg →
            is_char_in_pairs (j + len pre) m = is_char_in_pairs j ms.
Proof.
  intros Hm Htext HL HR.
  pose proof (find_quote_position_pairs text) as Ht.
  destruct (quote_pairs None 0 text None).2 as [st|] eqn:Efin.
  { destruct Ht as (e & He). congruence. }
  destruct Ht as (m' & Hm' & Hlook). rewrite Hm in Hm'. injection Hm' as <-.
  assert (Henc : ∀ p, is_char_in_pairs p m
                      = enclosed p (quote_pairs None 0 text None).1)
    by (intros p; by apply is_char_in_pairs_enclosed).
  assert (HpreS : (quote_pairs None 0 pre None).2 = None).
  { destruct HL as [-> | (pre' & -> & Htop)]; [done|].
    rewrite Henc in Htop. rewrite Htext, <- app_assoc in Efin, Htop.
    cbn [app] in Efin, Htop.
    by destruct (quote_boundary pre' "," (seg ++ post) Efin eq_refl Htop). }
  assert (HsegS : (quote_pairs None 0 (pre ++ seg) None).2 = None).
  { destruct HR as [-> | (post' & -> & Htop)].
    - by rewrite Htext, app_nil_r in Efin.
    - rewrite Henc, <- len_app in Htop. rewrite Htext, app_assoc in Efin, Htop.
      by destruct (quote_boundary (pre ++ seg) "," post' Efin eq_refl Htop). }
  destruct (quote_pairs_middle pre seg post HpreS HsegS) as [Hs Hmid].
  pose proof (find_quote_position_pairs seg) as Hq. rewrite Hs in Hq.
  destruct Hq as (ms & Hms & Hlooks). exists ms. split; [done|].
  intros j Hj0 Hj.
  rewrite Henc, (is_char_in_pairs_enclosed j ms _ Hlooks), Htext.
  by apply Hmid.
Qed.

(** The bracket scan of a piece, for one kind of bracket. *)
Lemma bracket_piece bl br text pre seg post (pq mq m : gmap Z Z) :
  find_bracket_position text bl br pq = Ok m →
  text = pre ++ seg ++ post →
  ","%char ≠ bl → ","%char ≠ br →
  (pre = [] ∨ ∃ pre', pre = pre' ++ [","%char]
                      ∧ is_char_in_pairs (len pre') m = false) →
  (post = [] ∨ ∃ post', post = ","%char :: post'
                        ∧ is_char_in_pairs (len pre + len seg) m = false) →
  (∀ j, 0 ≤ j → j < len seg →
        is_char_in_pairs (j + len pre) pq = is_char_in_pairs j mq) →
  ∃ ms, find_bracket_position seg bl br mq = Ok ms
        ∧ ∀ j, 0 ≤ j → j < len seg →
            is_char_in_pairs (j + len pre) m = is_char_in_pairs j ms.
Proof.
  intros Hm Htext Hbl Hbr HL HR Hinq.
  pose proof (find_bracket_position_pairs text bl br pq) as Ht.
  destruct (bracket_pairs bl br (fun j => is_char_in_pairs j pq) 0 text [])
    as [[pairs st]|] eqn:Efin.
  2: { destruct Ht as (e & He). congruence. }
  destruct st as [|s st].
  2: { destruct Ht as (e & He). congruence. }
  destruct Ht as (m' & Hm' & Hlook). rewrite Hm in Hm'. injection Hm' as <-.
  assert (Henc : ∀ p, is_char_in_pairs p m = enclosed p pairs)
    by (intros p; by apply is_char_in_pairs_enclosed).
  rewrite Htext in Efin.
  assert (HpreS : ∃ r1, bracket_pairs bl br (fun j => is_char_in_pairs j pq)
                          0 pre [] = Some r1 ∧ r1.2 = []).
  { destruct HL as [-> | (pre' & -> & Htop)]; [by exists ([], [])|].
    rewrite Henc in Htop. rewrite <- app_assoc in Efin. cbn [app] in Efin.
    destruct (bracket_boundary _ _ _ pre' "," (seg ++ post) _ Efin eq_refl
                Hbl Hbr Htop) as (r1 & _ & _ & H).
    eexists. split; [exact H|done]. }
  assert (HsegS : ∃ r12, bracket_pairs bl br (fun j => is_char_in_pairs j pq)
                           0 (pre ++ seg) [] = Some r12 ∧ r12.2 = []).
  { destruct HR as [-> | (post' & -> & Htop)].
    - rewrite app_nil_r in Efin. eexists. split; [exact Efin|done].
    - rewrite Henc, <- len_app in Htop. rewrite app_assoc in Efin.
      destruct (bracket_boundary _ _ _ (pre ++ seg) "," post' _ Efin eq_refl
                  Hbl Hbr Htop) as (r1 & H & Hr & _).
      by exists r1. }
  destruct HpreS as (r1 & H1 & Hs1). destruct HsegS as (r12 & H12 & Hs12).
  destruct (bracket_pairs_middle bl br _ (fun j => is_char_in_pairs j mq)
              pre seg post _ r1 r12 Efin H1 Hs1 H12 Hs12 Hinq)
    as ([prs sts] & Hrs & Hrs2 & Hmid).
  cbn [snd] in Hrs2. subst sts.
  pose proof (find_bracket_position_pairs seg bl br mq) as Hq.
  rewrite Hrs in Hq. destruct Hq as (ms & Hms & Hlooks).
  exists ms. split; [done|]. intros j Hj0 Hj.
  rewrite Henc, (is_char_in_pairs_enclosed j ms _ Hlooks).
  by apply Hmid.
Qed.

(** Splitting a non-empty piece again returns the piece alone. *)
Lemma piece_resplit text pq pr pc ps pre seg post :
  scan_delimiters text = Ok (pq, pr, pc, ps) →
  is_piece (top_level pq pr pc ps) text pre seg post →
  seg ≠ [] →
  split_args_text_to_list seg = Some [seg].
Proof.
  intros Hscan (Htext & HL & HR & Hint) Hne.
  unfold scan_delimiters in Hscan.
  destruct (find_quote_position text) as [pq'|] eqn:Eq; [|done].
  cbn [mbind result_bind] in Hscan.
  destruct (find_bracket_position text "(" ")" pq') as [pr'|] eqn:Er; [|done].
  cbn [mbind result_bind] in Hscan.
  destruct (find_bracket_position text "{" "}" pq') as [pc'|] eqn:Ec; [|done].
  cbn [mbind result_bind] in Hscan.
  destruct (find_bracket_position text "[" "]" pq') as [ps'|] eqn:Es; [|done].
  cbn [mbind result_bind] in Hscan. injection Hscan as -> -> -> ->.
  assert (HLall : ∀ m, m = pq ∨ m = pr ∨ m = pc ∨ m = ps →
            pre = [] ∨ ∃ pre', pre = pre' ++ [","%char]
                               ∧ is_char_in_pairs (len pre') m = false).
  { intros m Hm. destruct HL as [-> | (pre' & -> & Htop)]; [by left|right].
    exists pre'. split; [done|].
    apply top_level_true in Htop as (? & ? & ? & ?).
    destruct Hm as [-> | [-> | [-> | ->]]]; done. }
  assert (HRall : ∀ m, m = pq ∨ m = pr ∨ m = pc ∨ m = ps →
            post = [] ∨ ∃ post', post = ","%char :: post'
                        ∧ is_char_in_pairs (len pre + len seg) m = false).
  { intros m Hm. destruct HR as [-> | (post' & -> & Htop)]; [by left|right].
    exists post'. split; [done|].
    apply top_level_true in Htop as (? & ? & ? & ?).
    destruct Hm as [-> | [-> | [-> | ->]]]; done. }
  destruct (quote_piece text pre seg post pq Eq Htext
              (HLall pq ltac:(auto)) (HRall pq ltac:(auto)))
    as (mq & Hmq & Hq).
  destruct (bracket_piece "(" ")" text pre seg post pq mq pr Er Htext
              ltac:(done) ltac:(done)
              (HLall pr ltac:(auto)) (HRall pr ltac:(auto)) Hq)
    as (mr & Hmr & Hr).
  destruct (bracket_piece "{" "}" text pre seg post pq mq pc Ec Htext
              ltac:(done) ltac:(done)
              (HLall pc ltac:(auto)) (HRall pc ltac:(auto)) Hq)
    as (mc & Hmc & Hc).
  destruct (bracket_piece "[" "]" text pre seg post pq mq ps Es Htext
              ltac:(done) ltac:(done)
              (HLall ps ltac:(auto)) (HRall ps ltac:(auto)) Hq)
    as (ms & Hms & Hs).
  assert (Hscan : scan_delimiters seg = Ok (mq, mr, mc, ms)).
  { unfold scan_delimiters. rewrite Hmq. cbn [mbind result_bind].
    rewrite Hmr. cbn [mbind result_bind]. rewrite Hmc.
    cbn [mbind result_bind]. by rewrite Hms. }
  rewrite (split_args_text_to_list_eq _ _ _ _ _ Hscan). cbv zeta.
  assert (Hpts : split_points seg mq mr mc ms = []).
  { destruct (split_points seg mq mr mc ms) as [|p pts] eqn:E; [done|exfalso].
    assert (Hp : p ∈ split_points seg mq mr mc ms) by (rewrite E; by left).
    apply split_points_elem in Hp as (Hp0 & Hl & H1 & H2 & H3 & H4).
    apply lookup_lt_Some in Hl as Hlt.
    assert (Hplt : p < len seg) by (unfold len; lia).
    specialize (Hint _ Hl). rewrite Z2Nat.id in Hint by done.
    assert (Htrue : top_level pq pr pc ps (len pre + p) = true).
    { apply top_level_true. rewrite (Z.add_comm (len pre) p).
      rewrite Hq, Hr, Hc, Hs by done. done. }
    congruence. }
  rewrite Hpts. cbn [segments_between app].
  unfold trailing_start. cbn [last].
  assert (Hpos : 0 < len seg) by (destruct seg; [done|rewrite len_cons;
                                   pose proof (len_nonneg seg); lia]).
  destruct (Z.ltb_spec 0 (len seg)); [|lia].
  rewrite slice_from_in_range by lia. done.
Qed.

(** C7 (as amended).  Splitting is idempotent on every non-empty segment
    of its own output: if the splitter succeeds on a text, then on each
    non-empty segment of the result it succeeds too and returns exactly
    the one-element list made of that segment. *)
Theorem resplit_nonempty_segment (args_text : str) (segs : list str)
    (seg : str) :
  split_args_text_to_list args_text = Some segs →
  seg ∈ segs → seg ≠ [] →
  split_args_text_to_list seg = Some [seg].
Proof.
  intros Hsplit Hin Hne.
  destruct (scan_delimiters args_text) as [[[[pq pr] pc] ps]|e] eqn:E.
  2: { unfold split_args_text_to_list in Hsplit. rewrite E in Hsplit.
       by destruct e. }
  rewrite (split_args_text_to_list_eq _ _ _ _ _ E) in Hsplit.
  injection Hsplit as <-.
  apply segments_pieces in Hin as (pre & post & Hpiece).
  by eapply piece_resplit.
Qed.

(** [resplit_nonempty_segment] on the segment [" b=[1,2]"] of
    ["a, b=[1,2], c"]. *)
Lemma resplit_nonempty_segment_witness :
  split_args_text_to_list (py "a, b=[1,2], c")
  = Some [py "a"; py " b=[1,2]"; py " c"]
  ∧ split_args_text_to_list (py " b=[1,2]") = Some [py " b=[1,2]"].
Proof.
  assert (H : split_args_text_to_list (py "a, b=[1,2], c")
              = Some [py "a"; py " b=[1,2]"; py " c"]) by (by vm_compute).
  split; [exact H|].
  apply (resplit_nonempty_segment _ _ _ H).
  - right. left.
  - done.
Defined.

(** Counterexample to C7 as stated.  The splitter succeeds on [",a"] and
    its first segment is the empty string; splitting that segment again
    gives the empty list, not the list holding the segment. *)
Lemma resplit_empty_segment :
  split_args_text_to_list (py ",a") = Some [[]; py "a"]
  ∧ [] ∈ [[]; py "a"]
  ∧ split_args_text_to_list [] = Some []
  ∧ split_args_text_to_list [] ≠ Some [[]].
Proof.
  split_and!; [by vm_compute | by left | by vm_compute |].
  intros H. vm_compute in H. discriminate.
Qed.

(** * Further properties of the module *)

(** ** Quote scanner: what the map holds, and what a failure reports *)

Lemma lookup_snoc_text (pre cs : str) c :
  (pre ++ c :: cs) !! Z.to_nat (len pre) = Some c.
Proof. unfold len. rewrite Nat2Z.id. by apply list_lookup_middle. Qed.

Lemma len_snoc (pre : str) c : len (pre ++ [c]) = len pre + 1.
Proof. rewrite len_app. unfold len. simpl length. lia. Qed.

(** The character before position [len pre] is the last one of [pre]. *)
Lemma lookup_before (pre cs : str) :
  pre ≠ [] → (pre ++ cs) !! Z.to_nat (len pre - 1) = last pre.
Proof.
  intros Hne. apply last_is_Some in Hne as [a Ha]. rewrite Ha.
  apply last_Some in Ha as [pre' ->].
  rewrite len_snoc. replace (len pre' + 1 - 1) with (len pre') by lia.
  rewrite <- app_assoc. cbn [app]. apply lookup_snoc_text.
Qed.

(** Pairs and open quote of a scan, against the text. *)
Lemma quote_pairs_chars cs text pre i opened :
  text = pre ++ cs → i = len pre →
  (∀ q l, opened = Some (q, l) →
     0 ≤ l ∧ l < i ∧ is_quote q = true ∧ text !! Z.to_nat l = Some q) →
  (∀ k v, (k, v) ∈ (quote_pairs (last pre) i cs opened).1 →
     0 ≤ k ∧ k < v ∧ v < len text
     ∧ ∃ q, is_quote q = true ∧ text !! Z.to_nat k = Some q
            ∧ text !! Z.to_nat v = Some q
            ∧ text !! Z.to_nat (v - 1) ≠ Some backslash)
  ∧ (∀ q l, (quote_pairs (last pre) i cs opened).2 = Some (q, l) →
       0 ≤ l ∧ l < len text ∧ is_quote q = true
       ∧ text !! Z.to_nat l = Some q).
Proof.
  revert pre i opened.
  induction cs as [|c cs IH]; intros pre i opened Htext Hi Hop.
  { cbn. split.
    - intros k v H. by apply elem_of_nil in H.
    - intros q l ->. destruct (Hop q l eq_refl) as (? & ? & ? & ?).
      split_and!; [done| |done..].
      rewrite Htext, app_nil_r, <- Hi. done. }
  assert (Htext' : text = (pre ++ [c]) ++ cs)
    by (rewrite Htext, <- app_assoc; done).
  assert (Hi' : i + 1 = len (pre ++ [c])) by (by rewrite len_snoc, Hi).
  assert (Hc : text !! Z.to_nat i = Some c)
    by (rewrite Htext, Hi; apply lookup_snoc_text).
  assert (Hlt : i < len text).
  { rewrite Htext, len_app, len_cons, <- Hi. pose proof (len_nonneg cs). lia. }
  assert (Hi0 : 0 ≤ i) by (rewrite Hi; apply len_nonneg).
  pose proof (IH (pre ++ [c]) (i + 1)) as IH'. rewrite last_snoc in IH'.
  cbn [quote_pairs].
  destruct opened as [[q l]|].
  - destruct (Hop q l eq_refl) as (Hl0 & Hl & Hq & Hlq).
    destruct (Ascii.eqb_spec c q) as [->|Hne]; cbn [andb].
    + case_bool_decide as Hbs; cbn [negb].
      * apply IH'; [done..|].
        intros q' l' [= <- <-]. split_and!; [done|lia|done..].
      * destruct (IH' None Htext' Hi') as [IH1 IH2]; [done|].
        cbv zeta. cbn [fst snd]. split; [|exact IH2].
        intros k v Hin. apply elem_of_cons in Hin as [[= -> ->] | Hin];
          [|by apply IH1].
        split_and!; [done..|]. exists q. split_and!; [done..|].
        assert (Hpre : pre ≠ []).
        { intros ->. change (len []) with 0 in Hi. lia. }
        rewrite Htext, Hi, (lookup_before pre (q :: cs) Hpre). done.
    + apply IH'; [done..|].
      intros q' l' [= <- <-]. split_and!; [done|lia|done..].
  - destruct (is_quote c) eqn:Hq.
    + apply IH'; [done..|].
      intros q' l' [= <- <-]. split_and!; [done|lia|done..].
    + by apply IH'.
Qed.

(** The strings found lie one after the other. *)
Lemma quote_pairs_ordered prev i cs opened :
  (∀ q l, opened = Some (q, l) → l < i ∧ is_quote q = true) →
  ∀ k1 v1 k2 v2,
    (k1, v1) ∈ (quote_pairs prev i cs opened).1 →
    (k2, v2) ∈ (quote_pairs prev i cs opened).1 →
    k1 < k2 → v1 < k2.
Proof.
  revert prev i opened.
  induction cs as [|c cs IH]; intros prev i opened Hop k1 v1 k2 v2.
  { intros H. by apply elem_of_nil in H. }
  cbn [quote_pairs].
  destruct opened as [[q l]|].
  - destruct (Hop q l eq_refl) as [Hl Hq].
    destruct (Ascii.eqb c q && negb (bool_decide (prev = Some backslash))).
    + cbv zeta. cbn [fst].
      destruct (quote_pairs_bounds (Some c) (i + 1) cs None) as [Hb _];
        [done|].
      intros H1 H2 Hlt.
      apply elem_of_cons in H1 as [[= -> ->] | H1];
        apply elem_of_cons in H2 as [[= -> ->] | H2].
      * lia.
      * destruct (Hb _ _ H2) as ([[q' Hq'] | Hk] & _ & _); [done|lia].
      * destruct (Hb _ _ H1) as ([[q' Hq'] | Hk] & _ & _); [done|lia].
      * by eapply (IH (Some c) (i + 1) None).
    + apply IH. intros q' l' [= <- <-]. split; [lia|done].
  - destruct (is_quote c) eqn:Hq.
    + apply IH. intros q' l' [= <- <-]. split; [lia|done].
    + by apply IH.
Qed.

(** X1.  Whenever the quote scan succeeds, every pair of its map runs
    from a quote character to a later occurrence of the same quote
    character that is not preceded by a backslash, both inside the text,
    and the pairs follow one another: a pair that starts after another
    starts after that one has ended, so strings never nest or overlap. *)
Theorem quote_map_strings (text : str) (pos : gmap Z Z) :
  find_quote_position text = Ok pos →
  (∀ k v, pos !! k = Some v →
     0 ≤ k ∧ k < v ∧ v < len text
     ∧ ∃ q, (q = "'"%char ∨ q = dquote)
            ∧ text !! Z.to_nat k = Some q ∧ text !! Z.to_nat v = Some q
            ∧ text !! Z.to_nat (v - 1) ≠ Some backslash)
  ∧ (∀ k1 v1 k2 v2, pos !! k1 = Some v1 → pos !! k2 = Some v2 →
       k1 < k2 → v1 < k2).
Proof.
  intros Hpos.
  pose proof (find_quote_position_pairs text) as Ht.
  destruct (quote_pairs None 0 text None).2 as [st|] eqn:Efin.
  { destruct Ht as (e & He). congruence. }
  destruct Ht as (m & Hm & Hlook). rewrite Hpos in Hm. injection Hm as <-.
  split.
  - intros k v Hkv. apply Hlook in Hkv.
    destruct (quote_pairs_chars text text [] 0 None eq_refl eq_refl
                ltac:(done)) as [Hc _].
    destruct (Hc k v Hkv) as (H1 & H2 & H3 & q & Hq & H4 & H5 & H6).
    split_and!; [done..|]. exists q. split_and!; [|done..].
    unfold is_quote in Hq. apply orb_true_iff in Hq as [Hq | Hq];
      apply Ascii.eqb_eq in Hq; auto.
  - intros k1 v1 k2 v2 H1 H2 Hlt. apply Hlook in H1, H2.
    eapply (quote_pairs_ordered None 0 text None);
      [done | exact H1 | exact H2 | done].
Qed.

(** [quote_map_strings] on ["f('a', 'b')"]: the strings are [(2,4)] and
    [(7,9)]. *)
Lemma quote_map_strings_witness :
  find_quote_position (py "f('a', 'b')") = Ok (<[7 := 9]> (<[2 := 4]> ∅))
  ∧ ∀ k1 v1 k2 v2,
      (<[7 := 9]> (<[2 := 4]> ∅) : gmap Z Z) !! k1 = Some v1 →
      (<[7 := 9]> (<[2 := 4]> ∅) : gmap Z Z) !! k2 = Some v2 →
      k1 < k2 → v1 < k2.
Proof.
  assert (H : find_quote_position (py "f('a', 'b')")
              = Ok (<[7 := 9]> (<[2 := 4]> ∅))) by (vm_compute; reflexivity).
  split; [exact H|].
  exact (proj2 (quote_map_strings _ _ H)).
Defined.

(** The quote left open at the end of a scan has no closing quote after
    it. *)
Lemma quote_pairs_unclosed cs text pre i opened :
  text = pre ++ cs → i = len pre →
  (∀ q l, opened = Some (q, l) → l < i) →
  ∀ q l, (quote_pairs (last pre) i cs opened).2 = Some (q, l) →
    (opened = Some (q, l) ∨ i ≤ l)
    ∧ ∀ j, l < j → i ≤ j → j < len text →
        text !! Z.to_nat j = Some q →
        text !! Z.to_nat (j - 1) = Some backslash.
Proof.
  revert pre i opened.
  induction cs as [|c cs IH]; intros pre i opened Htext Hi Hop q l.
  { cbn. intros ->. split; [by left|]. intros j _ Hj1 Hj2.
    rewrite Htext, app_nil_r, <- Hi in Hj2. lia. }
  assert (Htext' : text = (pre ++ [c]) ++ cs)
    by (rewrite Htext, <- app_assoc; done).
  assert (Hi' : i + 1 = len (pre ++ [c])) by (by rewrite len_snoc, Hi).
  assert (Hc : text !! Z.to_nat i = Some c)
    by (rewrite Htext, Hi; apply lookup_snoc_text).
  pose proof (IH (pre ++ [c]) (i + 1)) as IH'. rewrite last_snoc in IH'.
  cbn [quote_pairs].
  destruct opened as [[q0 l0]|].
  - specialize (Hop q0 l0 eq_refl).
    assert (Hstay : (quote_pairs (Some c) (i + 1) cs (Some (q0, l0))).2
                    = Some (q, l) →
              (c = q0 → last pre = Some backslash) →
              (Some (q0, l0) = Some (q, l) ∨ i ≤ l)
              ∧ ∀ j, l < j → i ≤ j → j < len text →
                  text !! Z.to_nat j = Some q →
                  text !! Z.to_nat (j - 1) = Some backslash).
    { intros Hfin Hesc.
      destruct (IH' (Some (q0, l0)) Htext' Hi') with (q := q) (l := l)
        as [Hst Hno]; [intros ? ? [= <- <-]; lia|done|].
      split; [destruct Hst; [by left|right; lia]|].
      intros j Hj Hji Hjlen Hjq.
      destruct (decide (j = i)) as [->|Hne]; [|apply Hno; [done|lia|done..]].
      destruct Hst as [[= <- <-] | Hl]; [|lia].
      assert (c = q0) as Hcq by congruence.
      specialize (Hesc Hcq).
      assert (Hpre : pre ≠ []) by (intros ->; discriminate).
      rewrite Htext, Hi, (lookup_before pre (c :: cs) Hpre). done. }
    destruct (Ascii.eqb_spec c q0) as [->|Hne]; cbn [andb].
    + case_bool_decide as Hbs; cbn [negb].
      * intros Hfin. by apply Hstay.
      * cbv zeta. cbn [snd]. intros Hfin.
        destruct (IH' None Htext' Hi') with (q := q) (l := l)
          as [Hst Hno]; [done..|].
        destruct Hst as [|Hl]; [done|].
        split; [right; lia|]. intros j Hj Hji Hjlen Hjq.
        apply Hno; [done|lia|done..].
    + intros Hfin. apply Hstay; [done|]. intros ->. done.
  - destruct (is_quote c) eqn:Hq; intros Hfin.
    + destruct (IH' (Some (c, i)) Htext' Hi') with (q := q) (l := l)
        as [Hst Hno]; [intros ? ? [= <- <-]; lia|done|].
      assert (Hil : i ≤ l) by (destruct Hst as [[= <- <-] | Hl]; lia).
      split; [by right|]. intros j Hj Hji Hjlen Hjq.
      apply Hno; [done|lia|done..].
    + destruct (IH' None Htext' Hi') with (q := q) (l := l)
        as [Hst Hno]; [done..|].
      destruct Hst as [|Hl]; [done|].
      split; [right; lia|]. intros j Hj Hji Hjlen Hjq.
      apply Hno; [done|lia|done..].
Qed.

(** X2.  When the quote scan raises, the exception names a position of
    the text that holds a quote character after which the text has no
    occurrence of the same quote character, except right after a
    backslash: the position of the string left open. *)
Theorem quote_scan_error (text : str) (e : exn) :
  find_quote_position text = Raise e →
  ∃ l q,
    e = IndexError (py "No matching close quote at: " ++ str_of_int l)
    ∧ 0 ≤ l ∧ l < len text
    ∧ (q = "'"%char ∨ q = dquote)
    ∧ text !! Z.to_nat l = Some q
    ∧ ∀ j, l < j → j < len text → text !! Z.to_nat j = Some q →
           text !! Z.to_nat (j - 1) = Some backslash.
Proof.
  intros Hraise.
  destruct (find_quote_loop_pairs text text [] 0 ∅ None eq_refl eq_refl
              (or_introl eq_refl)) as (m & E & _).
  { intros k v H. by rewrite lookup_empty in H. }
  { intros q l H. discriminate. }
  unfold find_quote_position in Hraise. rewrite E in Hraise.
  cbn [last] in *.
  destruct (quote_pairs None 0 text None).2 as [[q l]|] eqn:Efin; [|done].
  injection Hraise as <-.
  destruct (quote_pairs_chars text text [] 0 None eq_refl eq_refl
              ltac:(done)) as [_ Hst].
  destruct (Hst q l Efin) as (H1 & H2 & Hq & H3).
  destruct (quote_pairs_unclosed text text [] 0 None eq_refl eq_refl
              ltac:(done) q l Efin) as [_ Hno].
  exists l, q. split_and!; [done..| |done|].
  - unfold is_quote in Hq. apply orb_true_iff in Hq as [Hq | Hq];
      apply Ascii.eqb_eq in Hq; auto.
  - intros j Hj Hjl Hjq. apply Hno; [done|lia|done..].
Qed.

(** [quote_scan_error] on ["f('a"]: the string opened at position 2 is
    never closed. *)
Lemma quote_scan_error_witness :
  ∃ l q,
    find_quote_position (py "f('a")
    = Raise (IndexError (py "No matching close quote at: " ++ str_of_int l))
    ∧ 0 ≤ l ∧ l < len (py "f('a")
    ∧ py "f('a" !! Z.to_nat l = Some q.
Proof.
  assert (H : find_quote_position (py "f('a")
              = Raise (IndexError (py "No matching close quote at: 2")))
    by (by vm_compute).
  destruct (quote_scan_error _ _ H) as (l & q & He & H0 & H1 & _ & Hq & _).
  exists l, q. rewrite H, He. done.
Defined.

(** ** Bracket scanner: who is matched with whom, and what a failure
    reports *)

(** Pairs and stack of a scan, against the text: keys are openers,
    values are closers, all outside strings; every opener met or already
    on the stack ends in a pair or on the stack; every closer met ends in
    a pair. *)
Lemma bracket_pairs_chars bl br inq cs text pre i (pstack : list Z) r :
  text = pre ++ cs → i = len pre →
  (∀ s, s ∈ pstack →
     0 ≤ s ∧ s < i ∧ text !! Z.to_nat s = Some bl ∧ inq s = false) →
  bracket_pairs bl br inq i cs pstack = Some r →
  (∀ k v, (k, v) ∈ r.1 →
     0 ≤ k ∧ k < v ∧ v < len text
     ∧ text !! Z.to_nat k = Some bl ∧ inq k = false
     ∧ text !! Z.to_nat v = Some br ∧ inq v = false)
  ∧ (∀ s, s ∈ r.2 →
       0 ≤ s ∧ s < len text ∧ text !! Z.to_nat s = Some bl ∧ inq s = false)
  ∧ (∀ s, s ∈ pstack → (∃ v, (s, v) ∈ r.1) ∨ s ∈ r.2)
  ∧ (∀ j, i ≤ j → text !! Z.to_nat j = Some bl → inq j = false →
       (∃ v, (j, v) ∈ r.1) ∨ j ∈ r.2)
  ∧ (bl ≠ br →
     ∀ j, i ≤ j → text !! Z.to_nat j = Some br → inq j = false →
       ∃ k, (k, j) ∈ r.1).
Proof.
  revert pre i pstack r.
  induction cs as [|c cs IH]; intros pre i pstack r Htext Hi Hst.
  { intros [= <-]. cbn [fst snd].
    assert (Hout : ∀ j, i ≤ j → text !! Z.to_nat j = None).
    { intros j Hj. apply lookup_ge_None.
      rewrite Htext, app_nil_r. rewrite Hi in Hj. unfold len in Hj. lia. }
    split_and!.
    - intros k v H. by apply elem_of_nil in H.
    - intros s Hs. destruct (Hst s Hs) as (? & ? & ? & ?).
      split_and!; [done| |done..].
      rewrite Htext, app_nil_r, <- Hi. done.
    - intros s Hs. by right.
    - intros j Hj Hc. rewrite (Hout j Hj) in Hc. done.
    - intros _ j Hj Hc. rewrite (Hout j Hj) in Hc. done. }
  assert (Htext' : text = (pre ++ [c]) ++ cs)
    by (rewrite Htext, <- app_assoc; done).
  assert (Hi' : i + 1 = len (pre ++ [c])) by (by rewrite len_snoc, Hi).
  assert (Hc : text !! Z.to_nat i = Some c)
    by (rewrite Htext, Hi; apply lookup_snoc_text).
  assert (Hlt : i < len text).
  { rewrite Htext, len_app, len_cons, <- Hi. pose proof (len_nonneg cs). lia. }
  assert (Hi0 : 0 ≤ i) by (rewrite Hi; apply len_nonneg).
  pose proof (IH (pre ++ [c]) (i + 1)) as IH'.
  cbn [bracket_pairs].
  destruct (Ascii.eqb c bl && negb (inq i)) eqn:E1.
  { apply andb_true_iff in E1 as [Hcb Hq]. apply Ascii.eqb_eq in Hcb.
    apply negb_true_iff in Hq. subst c. intros Hr.
    destruct (IH' (i :: pstack) r Htext' Hi') as (A & B & C & D & E);
      [|done|].
    { intros s Hs. apply elem_of_cons in Hs as [-> | Hs].
      { split_and!; [done|lia|done..]. }
      destruct (Hst s Hs) as (? & ? & ? & ?). split_and!; [done|lia|done..]. }
    split_and!; [done|done| | |].
    - intros s Hs. apply C. by right.
    - intros j Hj Hjc Hjq. destruct (decide (j = i)) as [->|Hne].
      + apply C. by left.
      + apply D; [lia|done..].
    - intros Hne j Hj Hjc Hjq. destruct (decide (j = i)) as [->|Hne'].
      + congruence.
      + apply E; [done|lia|done..]. }
  destruct (Ascii.eqb c br && negb (inq i)) eqn:E2.
  2: { intros Hr.
       destruct (IH' pstack r Htext' Hi') as (A & B & C & D & E); [|done|].
       { intros s Hs. destruct (Hst s Hs) as (? & ? & ? & ?).
         split_and!; [done|lia|done..]. }
       split_and!; [done..| |].
       - intros j Hj Hjc Hjq. destruct (decide (j = i)) as [->|Hne].
         + assert (c = bl) as -> by congruence.
           rewrite Ascii.eqb_refl, Hjq in E1. done.
         + apply D; [lia|done..].
       - intros Hne j Hj Hjc Hjq. destruct (decide (j = i)) as [->|Hne'].
         + assert (c = br) as -> by congruence.
           rewrite Ascii.eqb_refl, Hjq in E2. done.
         + apply E; [done|lia|done..]. }
  apply andb_true_iff in E2 as [Hcb Hq]. apply Ascii.eqb_eq in Hcb.
  apply negb_true_iff in Hq. subst c.
  destruct pstack as [|top pstack]; [done|].
  destruct (bracket_pairs bl br inq (i + 1) cs pstack) as [r'|] eqn:Er;
    [|done].
  cbn [mbind option_bind]. intros [= <-]. cbn [fst snd].
  destruct (IH' pstack r' Htext' Hi') as (A & B & C & D & E); [|done|].
  { intros s Hs. destruct (Hst s ltac:(by right)) as (? & ? & ? & ?).
    split_and!; [done|lia|done..]. }
  destruct (Hst top ltac:(by left)) as (Ht0 & Ht1 & Ht2 & Ht3).
  split_and!; [| done | | |].
  - intros k v Hin. apply elem_of_cons in Hin as [[= -> ->] | Hin];
      [|by apply A].
    split_and!; done.
  - intros s Hs. apply elem_of_cons in Hs as [-> | Hs].
    + left. exists i. by left.
    + destruct (C s Hs) as [[v Hv] | Hs']; [left; exists v; by right|by right].
  - intros j Hj Hjc Hjq. destruct (decide (j = i)) as [->|Hne].
    + assert (br = bl) as Heq by congruence.
      rewrite Heq, Ascii.eqb_refl, Hjq in E1. done.
    + destruct (D j ltac:(lia) Hjc Hjq) as [[v Hv] | Hs'];
        [left; exists v; by right|by right].
  - intros Hne j Hj Hjc Hjq. destruct (decide (j = i)) as [->|Hne'].
    + exists top. by left.
    + destruct (E Hne j ltac:(lia) Hjc Hjq) as [k Hk]. exists k. by right.
Qed.

(** X3.  Whenever the bracket scan succeeds, its map matches openers
    with closers: every key is the position of an opening bracket and its
    value the position of a closing bracket, both outside quoted
    strings; and nothing is left unmatched: every opening bracket outside
    the strings is a key and every closing bracket outside the strings is
    a value. *)
Theorem bracket_map_matches (text : str) (bracket_left bracket_right : ascii)
    (pos_quote pos : gmap Z Z) :
  find_bracket_position text bracket_left bracket_right pos_quote = Ok pos →
  (∀ k v, pos !! k = Some v →
     text !! Z.to_nat k = Some bracket_left
     ∧ text !! Z.to_nat v = Some bracket_right
     ∧ is_char_in_pairs k pos_quote = false
     ∧ is_char_in_pairs v pos_quote = false)
  ∧ (∀ j, 0 ≤ j → text !! Z.to_nat j = Some bracket_left →
       is_char_in_pairs j pos_quote = false → is_Some (pos !! j))
  ∧ (bracket_left ≠ bracket_right →
     ∀ j, 0 ≤ j → text !! Z.to_nat j = Some bracket_right →
       is_char_in_pairs j pos_quote = false → ∃ k, pos !! k = Some j).
Proof.
  intros Hpos.
  pose proof (find_bracket_position_pairs text bracket_left bracket_right
                pos_quote) as Ht.
  destruct (bracket_pairs bracket_left bracket_right
              (fun j => is_char_in_pairs j pos_quote) 0 text [])
    as [[pairs st]|] eqn:Efin.
  2: { destruct Ht as (e & He). congruence. }
  destruct st as [|s st].
  2: { destruct Ht as (e & He). congruence. }
  destruct Ht as (m & Hm & Hlook). rewrite Hpos in Hm. injection Hm as <-.
  destruct (bracket_pairs_chars _ _ _ text text [] 0 [] _ eq_refl eq_refl
              ltac:(intros s Hs; by apply elem_of_nil in Hs) Efin)
    as (A & _ & _ & D & E).
  cbn [fst snd] in *. split_and!.
  - intros k v Hkv. apply Hlook in Hkv.
    destruct (A k v Hkv) as (_ & _ & _ & ? & ? & ? & ?). done.
  - intros j Hj Hc Hq. destruct (D j Hj Hc Hq) as [[v Hv] | Hs].
    + exists v. by apply Hlook.
    + by apply elem_of_nil in Hs.
  - intros Hne j Hj Hc Hq. destruct (E Hne j Hj Hc Hq) as [k Hk].
    exists k. by apply Hlook.
Qed.

(** [bracket_map_matches] on the round brackets of ["f(a)(b)"]. *)
Lemma bracket_map_matches_witness :
  find_bracket_position (py "f(a)(b)") "(" ")" ∅
  = Ok (<[4 := 6]> (<[1 := 3]> ∅))
  ∧ ∀ j, 0 ≤ j → py "f(a)(b)" !! Z.to_nat j = Some "("%char →
         is_char_in_pairs j ∅ = false →
         is_Some ((<[4 := 6]> (<[1 := 3]> ∅) : gmap Z Z) !! j).
Proof.
  assert (H : find_bracket_position (py "f(a)(b)") "(" ")" ∅
              = Ok (<[4 := 6]> (<[1 := 3]> ∅))) by (vm_compute; reflexivity).
  split; [exact H|].
  exact (proj1 (proj2 (bracket_map_matches _ _ _ _ _ H))).
Defined.

(** A closer that finds the stack empty is what makes the loop raise. *)
Lemma find_bracket_loop_raise bl br pq cs text pre i (pos : gmap Z Z)
    (pstack : list Z) e :
  text = pre ++ cs → i = len pre →
  find_bracket_loop bl br pq i cs pos pstack = Raise e →
  ∃ j, e = IndexError (py "No matching closing parens at: " ++ str_of_int j)
       ∧ i ≤ j ∧ text !! Z.to_nat j = Some br
       ∧ is_char_in_pairs j pq = false.
Proof.
  revert pre i pos pstack.
  induction cs as [|c cs IH]; intros pre i pos pstack Htext Hi; [done|].
  assert (Htext' : text = (pre ++ [c]) ++ cs)
    by (rewrite Htext, <- app_assoc; done).
  assert (Hi' : i + 1 = len (pre ++ [c])) by (by rewrite len_snoc, Hi).
  assert (Hc : text !! Z.to_nat i = Some c)
    by (rewrite Htext, Hi; apply lookup_snoc_text).
  assert (Hnext : ∀ pos' pstack',
            find_bracket_loop bl br pq (i + 1) cs pos' pstack' = Raise e →
            ∃ j, e = IndexError (py "No matching closing parens at: "
                                 ++ str_of_int j)
                 ∧ i ≤ j ∧ text !! Z.to_nat j = Some br
                 ∧ is_char_in_pairs j pq = false).
  { intros pos' pstack' H.
    destruct (IH _ _ _ _ Htext' Hi' H) as (j & ? & ? & ? & ?).
    exists j. split_and!; [done|lia|done..]. }
  cbn [find_bracket_loop].
  destruct (Ascii.eqb c bl && negb (is_char_in_pairs i pq)); [apply Hnext|].
  destruct (Ascii.eqb c br && negb (is_char_in_pairs i pq)) eqn:E2;
    [|apply Hnext].
  apply andb_true_iff in E2 as [Hcb Hq]. apply Ascii.eqb_eq in Hcb.
  apply negb_true_iff in Hq. subst c.
  destruct pstack as [|top pstack]; [|apply Hnext].
  intros [= <-]. exists i. split_and!; [done|lia|done..].
Qed.

(** X4.  When the bracket scan raises, either the exception names the
    position of a closing bracket outside the strings (one that found no
    opening bracket to match), or it names the position of an opening
    bracket outside the strings (one left unmatched at the end of the
    text). *)
Theorem bracket_scan_error (text : str) (bracket_left bracket_right : ascii)
    (pos_quote : gmap Z Z) (e : exn) :
  find_bracket_position text bracket_left bracket_right pos_quote = Raise e →
  (∃ j, e = IndexError (py "No matching closing parens at: "
                        ++ str_of_int j)
        ∧ 0 ≤ j ∧ text !! Z.to_nat j = Some bracket_right
        ∧ is_char_in_pairs j pos_quote = false)
  ∨ (∃ j, e = IndexError (py "No matching opening parens at: "
                          ++ str_of_int j)
          ∧ 0 ≤ j ∧ text !! Z.to_nat j = Some bracket_left
          ∧ is_char_in_pairs j pos_quote = false).
Proof.
  unfold find_bracket_position. intros Hraise.
  destruct (find_bracket_loop bracket_left bracket_right pos_quote 0 text
              ∅ []) as [[pos pstack]|e'] eqn:Eloop.
  - cbn [mbind result_bind] in Hraise.
    destruct pstack as [|top pstack]; [done|]. injection Hraise as <-.
    right. exists top.
    pose proof (find_bracket_loop_pairs bracket_left bracket_right pos_quote
                  text 0 ∅ [] ltac:(done) bracket_inv_init) as Hp.
    destruct (bracket_pairs bracket_left bracket_right
                (fun j => is_char_in_pairs j pos_quote) 0 text [])
      as [r|] eqn:Er.
    2: { destruct Hp as (e' & He'). congruence. }
    destruct Hp as (pos' & Hloop & _). rewrite Eloop in Hloop.
    injection Hloop as _ Hstack.
    destruct (bracket_pairs_chars _ _ _ text text [] 0 [] _ eq_refl eq_refl
                ltac:(intros s Hs; by apply elem_of_nil in Hs) Er)
      as (_ & B & _).
    destruct (B top) as (? & ? & ? & ?); [rewrite <- Hstack; by left|].
    done.
  - cbn [mbind result_bind] in Hraise. injection Hraise as <-.
    left.
    destruct (find_bracket_loop_raise _ _ _ text text [] 0 _ _ _ eq_refl
                eq_refl Eloop) as (j & ? & ? & ? & ?).
    by exists j.
Qed.

(** [bracket_scan_error] on ["f(a))"] and on ["f((a)"]. *)
Lemma bracket_scan_error_witness :
  find_bracket_position (py "f(a))") "(" ")" ∅
  = Raise (IndexError (py "No matching closing parens at: 4"))
  ∧ find_bracket_position (py "f((a)") "(" ")" ∅
    = Raise (IndexError (py "No matching opening parens at: 1"))
  ∧ ((∃ j, IndexError (py "No matching closing parens at: 4")
           = IndexError (py "No matching closing parens at: "
                         ++ str_of_int j)
           ∧ 0 ≤ j ∧ py "f(a))" !! Z.to_nat j = Some ")"%char
           ∧ is_char_in_pairs j ∅ = false)
     ∨ (∃ j, IndexError (py "No matching closing parens at: 4")
             = IndexError (py "No matching opening parens at: "
                           ++ str_of_int j)
             ∧ 0 ≤ j ∧ py "f(a))" !! Z.to_nat j = Some "("%char
             ∧ is_char_in_pairs j ∅ = false)).
Proof.
  assert (H : find_bracket_position (py "f(a))") "(" ")" ∅
              = Raise (IndexError (py "No matching closing parens at: 4")))
    by (by vm_compute).
  split; [exact H|]. split; [by vm_compute|].
  exact (bracket_scan_error _ _ _ _ _ H).
Defined.

(** ** Splitter: nothing is lost *)

Lemma join_cons_cons (sep part : str) part' parts :
  join sep (part :: part' :: parts) = part ++ sep ++ join sep (part' :: parts).
Proof. reflexivity. Qed.

Lemma join_snoc (sep : str) parts (t : str) :
  join sep (parts ++ [t]) = concat (map (fun s => s ++ sep) parts) ++ t.
Proof.
  induction parts as [|s parts IH]; [reflexivity|].
  cbn [app map concat]. rewrite <- !app_assoc, <- IH.
  destruct parts as [|s' parts]; [reflexivity|]. apply join_cons_cons.
Qed.

Lemma join_all_closed (sep : str) (parts : list str) :
  parts ≠ [] → concat (map (fun s => s ++ sep) parts) = join sep parts ++ sep.
Proof.
  intros Hne. destruct (exists_last Hne) as (parts' & t & ->).
  rewrite join_snoc, map_app, concat_app. cbn [map concat].
  by rewrite app_nil_r, app_assoc.
Qed.

(** The segments cut by the loop, each followed by its comma, and then the
    rest of the text, are the text. *)
Lemma segments_concat top text cs pre cur i a :
  text = pre ++ cur ++ cs → i = len pre + len cur → a = len pre →
  concat (map (fun s => s ++ [","%char])
            (segments_between text (comma_points top i cs) a))
  ++ slice_from text (trailing_start a (comma_points top i cs))
  = cur ++ cs.
Proof.
  revert pre cur i a.
  induction cs as [|c cs IH]; intros pre cur i a Htext Hi Ha.
  - cbn [comma_points segments_between map concat app].
    unfold trailing_start. cbn [last].
    rewrite app_nil_r in *. rewrite Htext, Ha. apply slice_from_suffix.
  - assert (Hcur : slice text a i = cur).
    { rewrite Htext, Hi, Ha. apply slice_middle. }
    assert (Hkeep : ∀ b : ascii,
              c = b →
              concat (map (fun s => s ++ [","%char])
                        (segments_between text
                           (comma_points top (i + 1) cs) a))
              ++ slice_from text
                   (trailing_start a (comma_points top (i + 1) cs))
              = cur ++ b :: cs).
    { intros b <-.
      rewrite (IH pre (cur ++ [c]) (i + 1) a);
        [by rewrite <- app_assoc| |by rewrite len_snoc; lia|done].
      rewrite Htext, <- !app_assoc. done. }
    cbn [comma_points].
    destruct (Ascii.eqb_spec c ",") as [->|Hc]; cbn [andb]; [|by apply Hkeep].
    destruct (top i); [|by apply Hkeep].
    cbn [segments_between map concat]. rewrite trailing_start_cons, Hcur.
    rewrite <- !app_assoc. f_equal. cbn [app]. f_equal.
    apply (IH (pre ++ cur ++ [","%char]) [] (i + 1) (i + 1)).
    + rewrite Htext, <- !app_assoc. done.
    + rewrite !len_app, Hi. unfold len. simpl length. lia.
    + rewrite !len_app, Hi. unfold len. simpl length. lia.
Qed.

(** X5.  Splitting loses no character: whenever the splitter returns a
    list, joining its segments with commas gives back the argument text,
    up to one final comma (the comma after which the splitter found
    nothing more to add). *)
Theorem split_then_join (args_text : str) (segs : list str) :
  split_args_text_to_list args_text = Some segs →
  args_text = join (py ",") segs
  ∨ (segs ≠ [] ∧ args_text = join (py ",") segs ++ py ",").
Proof.
  intros Hsplit.
  destruct (scan_delimiters args_text) as [[[[pq pr] pc] ps]|e] eqn:Escan.
  2: { unfold split_args_text_to_list in Hsplit. rewrite Escan in Hsplit.
       by destruct e. }
  rewrite (split_args_text_to_list_eq _ _ _ _ _ Escan) in Hsplit.
  cbv zeta in Hsplit. injection Hsplit as <-.
  pose proof (segments_concat (top_level pq pr pc ps) args_text args_text
                [] [] 0 0 eq_refl eq_refl eq_refl) as Hcat.
  fold (split_points args_text pq pr pc ps) in Hcat. cbn [app] in Hcat.
  pose proof (trailing_start_nonneg args_text pq pr pc ps) as Hts.
  set (pts := split_points args_text pq pr pc ps) in *.
  change (py ",") with [","%char].
  destruct (Z.ltb_spec (trailing_start 0 pts) (len args_text)) as [Hlt|Hge].
  - left. by rewrite join_snoc.
  - rewrite app_nil_r.
    rewrite (proj2 (slice_from_nil_iff args_text _ Hts) Hge), app_nil_r
      in Hcat.
    destruct (segments_between args_text pts 0) as [|s segs] eqn:Esegs.
    + left. by rewrite <- Hcat.
    + right. split; [done|]. by rewrite <- join_all_closed.
Qed.

(** [split_then_join] on a text with nested commas and a final comma. *)
Lemma split_then_join_witness :
  split_args_text_to_list (py "a, b=(1, 2), c='x,y',")
  = Some [py "a"; py " b=(1, 2)"; py " c='x,y'"]
  ∧ (py "a, b=(1, 2), c='x,y',"
     = join (py ",") [py "a"; py " b=(1, 2)"; py " c='x,y'"]
     ∨ ([py "a"; py " b=(1, 2)"; py " c='x,y'"] ≠ []
        ∧ py "a, b=(1, 2), c='x,y',"
          = join (py ",") [py "a"; py " b=(1, 2)"; py " c='x,y'"]
            ++ py ",")).
Proof.
  assert (H : split_args_text_to_list (py "a, b=(1, 2), c='x,y',")
              = Some [py "a"; py " b=(1, 2)"; py " c='x,y'"])
    by (vm_compute; reflexivity).
  split; [exact H|]. exact (split_then_join _ _ H).
Defined.

(** ** Classifier: the four shapes of a segment *)

Lemma find_char_first c (pre post : str) :
  c ∉ pre → find (pre ++ c :: post) [c] = len pre.
Proof. intros H. rewrite find_whole, find_in_char_first by done. lia. Qed.

Lemma find_char_none c (s : str) : c ∉ s → find s [c] = -1.
Proof. intros H. rewrite find_whole. by apply find_in_char_none. Qed.

(** A segment with a colon before any equals sign. *)
Lemma split_one_arg_typed (name ty : str) :
  ":"%char ∉ name → "="%char ∉ name → "="%char ∉ ty →
  split_one_arg (name ++ ":" :: ty) = (strip name, Some (strip ty), None)
  ∧ ∀ after,
      split_one_arg (name ++ ":" :: ty ++ "=" :: after)
      = (strip name, Some (strip ty), Some (strip after)).
Proof.
  intros Hc He Het.
  pose proof (len_nonneg name) as Hn. pose proof (len_nonneg ty) as Ht.
  assert (Hpre : "="%char ∉ name ++ ":" :: ty).
  { rewrite not_elem_of_app, not_elem_of_cons. split_and!; done. }
  split.
  - unfold split_one_arg. cbv zeta.
    change (py ":") with [":"%char]. change (py "=") with ["="%char].
    rewrite find_char_first, find_char_none by done.
    change (-1 <? -1) with false.
    destruct (Z.ltb_spec (-1) (len name)); [|lia].
    cbn [negb andb]. rewrite slice_prefix.
    replace (name ++ ":" :: ty) with ((name ++ [":"%char]) ++ ty)
      by (by rewrite <- app_assoc).
    rewrite <- (len_snoc name ":"), slice_from_suffix. done.
  - intros after.
    assert (Heq : find (name ++ ":" :: ty ++ "=" :: after) ["="%char]
                  = len name + 1 + len ty).
    { replace (name ++ ":" :: ty ++ "=" :: after)
        with ((name ++ ":" :: ty) ++ "=" :: after)
        by (by rewrite <- app_assoc).
      rewrite find_char_first, len_app, len_cons by done. lia. }
    assert (Hty : slice (name ++ ":" :: ty ++ "=" :: after)
                    (len name + 1) (len name + 1 + len ty) = ty).
    { replace (name ++ ":" :: ty ++ "=" :: after)
        with ((name ++ [":"%char]) ++ ty ++ "=" :: after)
        by (by rewrite <- app_assoc).
      rewrite <- (len_snoc name ":"). apply slice_middle. }
    assert (Hval : slice_from (name ++ ":" :: ty ++ "=" :: after)
                     (len name + 1 + len ty + 1) = after).
    { replace (name ++ ":" :: ty ++ "=" :: after)
        with ((name ++ ":" :: ty ++ ["="%char]) ++ after)
        by (rewrite <- !app_assoc; cbn [app]; by rewrite <- app_assoc).
      replace (len name + 1 + len ty + 1)
        with (len (name ++ ":" :: ty ++ ["="%char]))
        by (rewrite len_app, len_cons, len_snoc; lia).
      apply slice_from_suffix. }
    unfold split_one_arg. cbv zeta.
    change (py ":") with [":"%char]. change (py "=") with ["="%char].
    rewrite Heq, find_char_first by done.
    destruct (Z.ltb_spec (-1) (len name)); [|lia].
    destruct (Z.ltb_spec (-1) (len name + 1 + len ty)); [|lia].
    destruct (Z.ltb_spec (len name) (len name + 1 + len ty)); [|lia].
    cbn [negb andb]. by rewrite slice_prefix, Hty, Hval.
Qed.

(** A segment with neither a colon nor an equals sign. *)
Lemma split_one_arg_bare (arg : str) :
  ":"%char ∉ arg → "="%char ∉ arg → split_one_arg arg = (arg, None, None).
Proof.
  intros Hc He. unfold split_one_arg. cbv zeta.
  change (py ":") with [":"%char]. change (py "=") with ["="%char].
  by rewrite !find_char_none by done.
Qed.

(** The case analysis of [split_one_arg] on the first colon and the first
    equals sign. *)
Lemma split_one_arg_cases (arg : str) :
  ((":"%char ∉ arg) ∧ ("="%char ∉ arg)
   ∧ split_one_arg arg = (arg, None, None))
  ∨ (∃ name ty,
       arg = name ++ ":" :: ty
       ∧ (":"%char ∉ name) ∧ ("="%char ∉ arg)
       ∧ split_one_arg arg = (strip name, Some (strip ty), None))
  ∨ (∃ name ty value,
       arg = name ++ ":" :: ty ++ "=" :: value
       ∧ (":"%char ∉ name) ∧ ("="%char ∉ name) ∧ ("="%char ∉ ty)
       ∧ split_one_arg arg
         = (strip name, Some (strip ty), Some (strip value)))
  ∨ (∃ name value,
       arg = name ++ "=" :: value
       ∧ (":"%char ∉ name) ∧ ("="%char ∉ name)
       ∧ split_one_arg arg = (strip name, None, Some (strip value))).
Proof.
  destruct (decide (":"%char ∈ arg)) as [Hc | Hc].
  - apply list_elem_of_split_l in Hc as (pre & post & -> & Hpre).
    destruct (decide ("="%char ∈ pre)) as [He | He].
    + apply list_elem_of_split_l in He as (name & rest & -> & Hname).
      apply not_elem_of_app in Hpre as [Hc _].
      right; right; right. exists name, (rest ++ ":" :: post).
      rewrite <- app_assoc. cbn [app]. split_and!; [done..|].
      by destruct (split_one_arg_value_only name (rest ++ ":" :: post)
                     Hname Hc) as (_ & _ & ->).
    + destruct (decide ("="%char ∈ post)) as [Hp | Hp].
      * apply list_elem_of_split_l in Hp as (ty & value & -> & Hty).
        right; right; left. exists pre, ty, value. split_and!; [done..|].
        by destruct (split_one_arg_typed pre ty Hpre He Hty) as [_ ->].
      * right; left. exists pre, post.
        assert ("="%char ∉ pre ++ ":" :: post).
        { rewrite not_elem_of_app, not_elem_of_cons. split_and!; done. }
        split_and!; [done..|].
        by destruct (split_one_arg_typed pre post Hpre He Hp) as [-> _].
  - destruct (decide ("="%char ∈ arg)) as [He | He].
    + apply list_elem_of_split_l in He as (name & value & -> & Hname).
      apply not_elem_of_app in Hc as [Hc _].
      right; right; right. exists name, value. split_and!; [done..|].
      by destruct (split_one_arg_value_only name value Hname Hc)
        as (_ & _ & ->).
    + left. split_and!; [done..|]. by apply split_one_arg_bare.
Qed.

(** X6.  The classifier reads every segment in one of four ways,
    decided by the first colon and the first equals sign: a segment with
    neither is kept whole as the name, untrimmed; a segment with a colon
    and no equals sign is [name : type]; a segment whose first equals
    sign comes after its first colon is [name : type = value], the type
    ending at that equals sign; any other segment with an equals sign is
    [name = value] and has no type.  Name, type and value are trimmed in
    the last three cases. *)
Theorem classifier_shapes (arg : str) :
  ((":"%char ∉ arg) ∧ ("="%char ∉ arg)
   ∧ split_one_arg arg = (arg, None, None))
  ∨ (∃ name ty,
       arg = name ++ ":" :: ty
       ∧ (":"%char ∉ name) ∧ ("="%char ∉ arg)
       ∧ split_one_arg arg = (strip name, Some (strip ty), None))
  ∨ (∃ name ty value,
       arg = name ++ ":" :: ty ++ "=" :: value
       ∧ (":"%char ∉ name) ∧ ("="%char ∉ name) ∧ ("="%char ∉ ty)
       ∧ split_one_arg arg
         = (strip name, Some (strip ty), Some (strip value)))
  ∨ (∃ name value,
       arg = name ++ "=" :: value
       ∧ (":"%char ∉ name) ∧ ("="%char ∉ name)
       ∧ split_one_arg arg = (strip name, None, Some (strip value))).
Proof. apply split_one_arg_cases. Qed.

(** Trimming only removes characters. *)
Lemma lstrip_split (s : str) :
  ∃ ws, s = ws ++ lstrip s ∧ forallb is_space ws = true.
Proof.
  induction s as [|c s (ws & IH & Hws)]; [by exists []|].
  cbn [lstrip]. destruct (is_space c) eqn:Hc; [|by exists []].
  exists (c :: ws). cbn [app forallb]. rewrite Hc, Hws. by rewrite <- IH.
Qed.

Lemma elem_of_lstrip (x : ascii) s : x ∈ lstrip s → x ∈ s.
Proof.
  destruct (lstrip_split s) as (ws & Hs & _). intros H.
  rewrite Hs, elem_of_app. by right.
Qed.

Lemma elem_of_rev (x : ascii) s : x ∈ rev s ↔ x ∈ s.
Proof. rewrite !list_elem_of_In. symmetry. apply in_rev. Qed.

Lemma elem_of_strip (x : ascii) s : x ∈ strip s → x ∈ s.
Proof.
  unfold strip, rstrip. rewrite elem_of_rev. intros H.
  apply elem_of_lstrip in H. rewrite elem_of_rev in H.
  by apply elem_of_lstrip.
Qed.

(** X7.  Whatever the segment, the name the classifier stores contains
    neither a colon nor an equals sign, and the type it stores, if any,
    contains no equals sign. *)
Theorem classifier_name_clean (arg : str) :
  (":"%char ∉ arg_name_of arg) ∧ ("="%char ∉ arg_name_of arg)
  ∧ ∀ t, arg_type_of arg = Some t → "="%char ∉ t.
Proof.
  unfold arg_name_of, arg_type_of.
  destruct (split_one_arg_cases arg)
    as [(Hc & He & ->)
       | [(name & ty & Harg & Hc & He & ->)
         | [(name & ty & value & Harg & Hc & He & Het & ->)
           | (name & value & Harg & Hc & He & ->)]]]; cbn [fst snd].
  - done.
  - rewrite Harg in He. apply not_elem_of_app in He as [He Hty].
    apply not_elem_of_cons in Hty as [_ Hty].
    split_and!; [by intros H%elem_of_strip..|].
    intros t [= <-]. by intros H%elem_of_strip.
  - split_and!; [by intros H%elem_of_strip..|].
    intros t [= <-]. by intros H%elem_of_strip.
  - split_and!; [by intros H%elem_of_strip..|done].
Qed.

(** ** The assembler, field by field *)

Lemma parse_not_function self text :
  is_start_of_function text = false → parse self text = __init__.
Proof. intros H. unfold parse. by rewrite H. Qed.

(** What [parse] stores for a text that starts a function definition. *)
Lemma parse_function self text :
  is_start_of_function text = true →
  let t := replace (replace (strip text) [CR; LF] []) [LF] [] in
  let rt := return_type_search t in
  let text_end :=
    match rt with Some (g0, _) => rfind t g0 | None => len t end in
  let a := find t (py "(") + 1 in
  let args := slice t a (rfind_between t (py ")") a text_end) in
  let fi := parse self text in
  n_indent fi = find text (lstrip text)
  ∧ return_type fi = match rt with Some (_, g1) => Some g1 | None => None end
  ∧ args_text fi = args
  ∧ has_info fi
    = match split_args_text_to_list args with
      | Some _ => true
      | None => false
      end
  ∧ arg_name_list fi
    = map arg_name_of (default [] (split_args_text_to_list args))
  ∧ arg_type_list fi
    = map arg_type_of (default [] (split_args_text_to_list args))
  ∧ arg_value_list fi
    = map arg_value_of (default [] (split_args_text_to_list args)).
Proof.
  intros Hstart. unfold parse. rewrite Hstart. cbn [negb].
  set (t := replace (replace (strip text) [CR; LF] []) [LF] []).
  destruct (return_type_search t) as [[g0 g1]|]; cbv beta iota zeta;
    simpl_fields;
    match goal with
    | |- context [split_args_text_to_list ?a] =>
        destruct (split_args_text_to_list a) as [args_list|] eqn:Hs
    end;
    cbn [default];
    try match goal with
    | |- context [split_arg_to_name_type_value ?s ?l] =>
        pose proof (split_arg_to_name_type_value_spec s l) as H;
        cbv zeta in H;
        destruct H as (H1 & H2 & H3 & H4 & H5 & H6 & H7 & H8);
        rewrite H1, H2, H3, H4, H6, H7, H8
    end; simpl_fields; done.
Qed.

(** [_generate_docstring] case by case. *)
Lemma _generate_docstring_cases (doc_type : str) (text : option str)
    (quote : str) :
  ∃ r, _generate_docstring doc_type text quote = Ok r
       ∧ ∀ d, r = Some d →
           (doc_type = py "one-line" ∨ doc_type = py "numpy")
           ∧ (∃ t, text = Some t ∧ is_start_of_function t = true
                   ∧ has_info (parse __init__ t) = true)
           ∧ ∃ d', d = d' ++ repeat_str quote 3.
Proof.
  unfold _generate_docstring.
  destruct text as [[|c t]|]; try by (eexists; split; [done|]).
  set (text := c :: t).
  destruct (has_info (parse __init__ text)) eqn:Hinfo;
    [|by (eexists; split; [done|])].
  assert (Hstart : is_start_of_function text = true).
  { destruct (is_start_of_function text) eqn:E; [done|].
    by rewrite (parse_not_function _ _ E) in Hinfo. }
  assert (Htext : ∃ t0, Some text = Some t0 ∧ is_start_of_function t0 = true
                        ∧ has_info (parse __init__ t0) = true)
    by (by exists text).
  case_bool_decide as H1.
  { eexists. split; [done|]. intros d [= <-].
    split_and!; [by left|done|by exists []]. }
  case_bool_decide as H2; [|by (eexists; split; [done|])].
  destruct (parse_aligned __init__ text) as [Ha Hb].
  destruct (render_aligned (parse __init__ text) (repeat_str quote 3)
              (if bool_decide (quote = [dquote]) then py "'''"
               else [dquote; dquote; dquote]) Ha Hb)
    as (fi' & _ & -> & _).
  cbn [mbind result_bind]. eexists. split; [done|]. intros d [= <-].
  split_and!; [by right|done|].
  unfold numpy_doc_body. eexists.
  rewrite !app_assoc. reflexivity.
Qed.

(** X8.  Generating a docstring never raises.  A docstring is produced
    only for the types ["one-line"] and ["numpy"] and only when the text
    handed over starts a function definition and is accepted by [parse];
    the docstring then ends with the quote character of the trigger
    written three times. *)
Theorem generate_docstring_total (doc_type : str) (text : option str)
    (quote : str) :
  ∃ r, _generate_docstring doc_type text quote = Ok r
       ∧ ∀ d, r = Some d →
           (doc_type = py "one-line" ∨ doc_type = py "numpy")
           ∧ (∃ t, text = Some t ∧ is_start_of_function t = true
                   ∧ has_info (parse __init__ t) = true)
           ∧ ∃ d', d = d' ++ repeat_str quote 3.
Proof. apply _generate_docstring_cases. Qed.

(** ** Indentation *)

Lemma startswith_refl (s : str) : startswith s s = true.
Proof.
  induction s as [|c s IH]; [done|]. cbn [startswith].
  by rewrite Ascii.eqb_refl, IH.
Qed.

Lemma lstrip_head (s : str) c r : lstrip s = c :: r → is_space c = false.
Proof.
  induction s as [|b s IH]; [done|]. cbn [lstrip].
  destruct (is_space b) eqn:Hb; [done|]. by intros [= <- _].
Qed.

Lemma take_while_lstrip (s : str) : take_while is_space s ++ lstrip s = s.
Proof.
  induction s as [|c s IH]; [done|]. cbn [take_while lstrip].
  destruct (is_space c); [|done]. cbn [app]. by rewrite IH.
Qed.

(** The text without its leading white space is first found right after
    that white space. *)
Lemma find_in_lstrip (s : str) i :
  lstrip s ≠ [] → find_in (lstrip s) s i = i + len (take_while is_space s).
Proof.
  revert i. induction s as [|c s IH]; intros i; [done|].
  cbn [lstrip take_while]. destruct (is_space c) eqn:Hc.
  - intros Hne. specialize (IH (i + 1) Hne).
    destruct (lstrip s) as [|d r] eqn:E; [done|].
    apply lstrip_head in E.
    cbn [find_in startswith].
    destruct (Ascii.eqb_spec d c) as [->|_]; [congruence|].
    cbn [andb]. rewrite IH, len_cons. lia.
  - intros _. cbn [find_in]. rewrite startswith_refl.
    unfold len. simpl length. lia.
Qed.

(** X9.  For every text that starts a function definition, the indent
    width that [parse] stores is the number of white-space characters in
    front of the [def] (or [async def]) keyword. *)
Theorem parse_indent (self : FunctionInfo) (text : str) :
  is_start_of_function text = true →
  n_indent (parse self text) = len (take_while is_space text)
  ∧ text = take_while is_space text ++ lstrip text
  ∧ (startswith (lstrip text) (py "def") = true
     ∨ startswith (lstrip text) (py "async def") = true).
Proof.
  intros Hstart.
  destruct (parse_function self text Hstart) as (-> & _).
  assert (Hkw : startswith (lstrip text) (py "def") = true
                ∨ startswith (lstrip text) (py "async def") = true).
  { unfold is_start_of_function in Hstart. cbn [existsb] in Hstart.
    rewrite orb_false_r in Hstart. by apply orb_true_iff in Hstart. }
  split_and!; [|by rewrite take_while_lstrip|done].
  rewrite find_whole, find_in_lstrip; [lia|].
  intros Hnil. rewrite Hnil in Hkw. by destruct Hkw.
Qed.

(** [parse_indent] on a method header indented by four spaces. *)
Lemma parse_indent_witness :
  n_indent (parse __init__ (py "    def f(self):")) = 4.
Proof.
  exact (proj1 (parse_indent __init__ (py "    def f(self):") eq_refl)).
Defined.

(** ** Parsing a header built from its parts *)

Lemma forallb_rev {A} (f : A → bool) (l : list A) :
  forallb f (rev l) = forallb f l.
Proof.
  induction l as [|a l IH]; [done|]. cbn [rev forallb].
  rewrite forallb_app, IH. cbn [forallb]. rewrite andb_true_r.
  apply andb_comm.
Qed.

Lemma lstrip_app (ws s : str) :
  forallb is_space ws = true → lstrip (ws ++ s) = lstrip s.
Proof.
  induction ws as [|c ws IH]; [done|]. cbn [forallb app lstrip].
  intros [-> H]%andb_true_iff. by apply IH.
Qed.

Lemma rstrip_app (s ws : str) :
  forallb is_space ws = true → rstrip (s ++ ws) = rstrip s.
Proof.
  intros H. unfold rstrip.
  by rewrite rev_app_distr, lstrip_app by (by rewrite forallb_rev).
Qed.

Lemma rstrip_snoc (s : str) c :
  is_space c = false → rstrip (s ++ [c]) = s ++ [c].
Proof.
  intros H. unfold rstrip. rewrite rev_unit. cbn [lstrip]. rewrite H.
  cbn [rev]. by rewrite rev_involutive.
Qed.

Lemma startswith_nil (s : str) : startswith s [] = true.
Proof. by destruct s. Qed.

Lemma startswith_app (s p r : str) :
  startswith s p = true → startswith (s ++ r) p = true.
Proof.
  revert s. induction p as [|a p IH]; intros s; [by destruct (s ++ r)|].
  destruct s as [|b s]; [done|]. cbn [startswith app].
  intros [-> H]%andb_true_iff. by apply IH.
Qed.

Lemma startswith_elem (s p : str) x :
  startswith s p = true → x ∈ p → x ∈ s.
Proof.
  revert s. induction p as [|a p IH]; intros s Hs Hx.
  { by apply elem_of_nil in Hx. }
  destruct s as [|b s]; [done|]. cbn [startswith] in Hs.
  apply andb_true_iff in Hs as [Hab Hs]. apply Ascii.eqb_eq in Hab as ->.
  apply elem_of_cons in Hx as [-> | Hx]; [by left|right; by apply IH].
Qed.

Lemma startswith_length (s p : str) :
  startswith s p = true → (length p ≤ length s)%nat.
Proof.
  revert s. induction p as [|a p IH]; intros s; [cbn; lia|].
  destruct s as [|b s]; [done|]. cbn [startswith].
  intros [_ H]%andb_true_iff. apply IH in H. cbn [length]. lia.
Qed.

(** Replacing a substring one of whose characters does not occur changes
    nothing. *)
Lemma replace_absent (s old new : str) c :
  c ∈ old → c ∉ s → replace s old new = s.
Proof.
  intros Hold. destruct old as [|o old]; [by apply elem_of_nil in Hold|].
  unfold replace. induction s as [|a s IH]; intros Hs; [done|].
  cbn [replace_go].
  destruct (startswith (a :: s) (o :: old)) eqn:E.
  { destruct Hs. by apply (startswith_elem _ _ _ E). }
  apply not_elem_of_cons in Hs as [_ Hs]. by rewrite IH.
Qed.

Lemma take_while_stop (p : ascii → bool) (l : str) c (r : str) :
  forallb p l = true → p c = false →
  take_while p (l ++ c :: r) = l ∧ drop_while p (l ++ c :: r) = c :: r.
Proof.
  intros Hl Hc. induction l as [|a l IH].
  - cbn [app take_while drop_while]. by rewrite Hc.
  - cbn [forallb] in Hl. apply andb_true_iff in Hl as [Ha Hl].
    cbn [app take_while drop_while]. rewrite Ha.
    destruct (IH Hl) as [-> ->]. done.
Qed.

Lemma forallb_replicate_space n :
  forallb (Ascii.eqb " ") (replicate n " "%char) = true.
Proof. induction n as [|n IH]; [done|]. cbn [replicate forallb]. exact IH. Qed.

(** No arrow starts at a character that is not followed by [>]. *)
Lemma return_type_match_skip a (l : str) :
  (∀ b r, l = b :: r → b ≠ ">"%char) → return_type_match (a :: l) = None.
Proof.
  intros H. unfold return_type_match.
  replace (startswith (a :: l) (py "->")) with false; [done|].
  change (py "->") with ["-"%char; ">"%char]. cbn [startswith].
  rewrite startswith_char.
  destruct l as [|b r]; [by rewrite andb_false_r|].
  destruct (Ascii.eqb_spec ">" b) as [<-|_];
    [by destruct (H ">"%char r eq_refl)|].
  by rewrite andb_false_r.
Qed.

(** The search for the return annotation passes over a text without
    [>]. *)
Lemma return_type_search_skip (p cs : str) :
  ">"%char ∉ p → (cs = [] ∨ ∃ r, cs = "-"%char :: r) →
  return_type_search (p ++ cs) = return_type_search cs.
Proof.
  intros Hp Hcs. induction p as [|a p IH]; [done|].
  apply not_elem_of_cons in Hp as [_ Hp].
  cbn [app return_type_search]. rewrite return_type_match_skip; [by apply IH|].
  intros b r Hbr ->. destruct p as [|b' p].
  - cbn [app] in Hbr. destruct Hcs as [-> | (r' & ->)]; done.
  - injection Hbr as -> _. apply Hp. by left.
Qed.

(** The pattern at an arrow followed by spaces, a type and the colon. *)
Lemma return_type_match_arrow n (ty : str) :
  forallb return_type_char ty = true →
  (∀ r, ty ≠ " "%char :: r) →
  return_type_match (py "->" ++ replicate n " "%char ++ ty ++ [":"%char])
  = Some (py "->" ++ replicate n " "%char ++ ty ++ [":"%char], ty).
Proof.
  intros Hty Hhead. unfold return_type_match.
  change (py "->") with ["-"%char; ">"%char].
  cbn [app startswith Ascii.eqb Bool.eqb andb drop].
  assert (Hsp : drop_while (Ascii.eqb " ")
                  (replicate n " "%char ++ ty ++ [":"%char])
                = ty ++ [":"%char]).
  { destruct ty as [|c ty].
    - apply (take_while_stop (Ascii.eqb " ") _ ":" []);
        [apply forallb_replicate_space|done].
    - cbn [app]. apply take_while_stop; [apply forallb_replicate_space|].
      destruct (Ascii.eqb_spec " " c) as [<-|]; [|done].
      by destruct (Hhead ty). }
  rewrite startswith_nil, drop_0, Hsp.
  destruct (take_while_stop return_type_char ty ":" [] Hty eq_refl)
    as [-> ->].
  rewrite bool_decide_eq_true_2 by done. cbn [orb]. f_equal. f_equal.
  apply take_ge. cbn [length]. lia.
Qed.

Lemma rfind_in_short (sub cs : str) i :
  (length cs < length sub)%nat → rfind_in sub cs i = -1.
Proof.
  revert i. induction cs as [|c cs IH]; intros i Hlt.
  - cbn [rfind_in]. destruct sub; [cbn in Hlt; lia|done].
  - cbn [rfind_in]. rewrite IH by (cbn [length] in Hlt; lia).
    cbn [Z.eqb Pos.eqb].
    destruct (startswith (c :: cs) sub) eqn:E; [|done].
    apply startswith_length in E. lia.
Qed.

(** The last occurrence of a non-empty suffix. *)
Lemma rfind_in_suffix (g pre : str) i :
  g ≠ [] → 0 ≤ i → rfind_in g (pre ++ g) i = i + len pre.
Proof.
  intros Hg. revert i. induction pre as [|a pre IH]; intros i Hi.
  - cbn [app]. destruct g as [|c g]; [done|]. cbn [rfind_in].
    rewrite rfind_in_short by (cbn [length]; lia).
    cbn [Z.eqb Pos.eqb]. rewrite startswith_refl. unfold len. cbn. lia.
  - cbn [app rfind_in]. rewrite IH by lia. rewrite len_cons.
    pose proof (len_nonneg pre).
    destruct (Z.eqb_spec (i + 1 + len pre) (-1)); lia.
Qed.

Lemma rfind_in_char_none c (s : str) i : c ∉ s → rfind_in [c] s i = -1.
Proof.
  revert i. induction s as [|b s IH]; intros i Hnot; [done|].
  apply not_elem_of_cons in Hnot as [Hne Hnot].
  cbn [rfind_in]. rewrite IH by done. cbn [Z.eqb Pos.eqb].
  rewrite startswith_char. by destruct (Ascii.eqb_spec c b).
Qed.

(** The last occurrence of a character. *)
Lemma rfind_in_char_last c (pre post : str) i :
  c ∉ post → 0 ≤ i → rfind_in [c] (pre ++ c :: post) i = i + len pre.
Proof.
  intros Hpost. revert i. induction pre as [|a pre IH]; intros i Hi.
  - cbn [app rfind_in]. rewrite rfind_in_char_none by done.
    cbn [Z.eqb Pos.eqb]. rewrite startswith_char, Ascii.eqb_refl.
    unfold len. cbn. lia.
  - cbn [app rfind_in]. rewrite IH by lia. rewrite len_cons.
    pose proof (len_nonneg pre).
    destruct (Z.eqb_spec (i + 1 + len pre) (-1)); lia.
Qed.

(** A search confined to the middle of a text. *)
Lemma rfind_between_window (p w q sub : str) :
  rfind_between (p ++ w ++ q) sub (len p) (len p + len w)
  = rfind_in sub w (len p).
Proof.
  pose proof (len_nonneg p). pose proof (len_nonneg w).
  pose proof (len_nonneg q).
  unfold rfind_between. rewrite lower_id by done.
  rewrite clamp_id by (rewrite !len_app; lia).
  destruct (Z.ltb_spec (len p + len w) (len p)); [lia|].
  unfold len. rewrite Nat2Z.id, drop_app_length.
  replace (Z.to_nat (_ + _ - _)) with (length w) by lia.
  by rewrite take_app_length.
Qed.

Lemma rfind_whole (s sub : str) : rfind s sub = rfind_in sub s 0.
Proof.
  pose proof (rfind_between_window [] s [] sub) as H.
  rewrite app_nil_r in H. exact H.
Qed.

Lemma return_type_search_hit (cs : str) m :
  return_type_match cs = Some m → return_type_search cs = Some m.
Proof. intros H. destruct cs; cbn [return_type_search]; by rewrite H. Qed.

(** Cutting the parameter list out of a text: from the first opening
    parenthesis to the last closing one before [text_end]. *)
Lemma cut_args (head args mid q : str) :
  "("%char ∉ head → ")"%char ∉ mid →
  let t := (head ++ ["("%char]) ++ (args ++ ")" :: mid) ++ q in
  let a := find t (py "(") + 1 in
  slice t a
    (rfind_between t (py ")") a
       (len (head ++ ["("%char]) + len (args ++ ")" :: mid)))
  = args.
Proof.
  intros Hhead Hmid t a.
  pose proof (len_nonneg head).
  assert (Ha : a = len (head ++ ["("%char])).
  { unfold a, t. rewrite <- !app_assoc. cbn [app].
    change (py "(") with ["("%char].
    rewrite find_char_first by done. by rewrite len_snoc. }
  rewrite Ha. unfold t. change (py ")") with [")"%char].
  rewrite rfind_between_window.
  rewrite rfind_in_char_last by (rewrite ?len_snoc; done || lia).
  rewrite <- (app_assoc args). apply slice_middle.
Qed.

Lemma header_text_snoc head args mid n ty :
  header_text head args mid n ty
  = (head ++ "(" :: args ++ ")" :: mid ++ arrow_text n ty) ++ [":"%char].
Proof.
  unfold header_text. norm_app. reflexivity.
Qed.

(** The fields [parse] stores for a header built from its parts. *)
Lemma parse_header_fields (self : FunctionInfo) (ws head args mid ws' : str)
    (n : nat) (ty : option str) :
  forallb is_space ws = true → forallb is_space ws' = true →
  (startswith head (py "def") = true
   ∨ startswith head (py "async def") = true) →
  "("%char ∉ head → ")"%char ∉ mid →
  ">"%char ∉ head ++ args ++ mid →
  LF ∉ header_text head args mid n ty →
  (∀ t, ty = Some t →
     forallb return_type_char t = true ∧ ∀ r, t ≠ " "%char :: r) →
  let fi := parse self (ws ++ header_text head args mid n ty ++ ws') in
  let segments := default [] (split_args_text_to_list args) in
  n_indent fi = len ws
  ∧ args_text fi = args
  ∧ return_type fi = ty
  ∧ has_info fi
    = match split_args_text_to_list args with
      | Some _ => true
      | None => false
      end
  ∧ arg_name_list fi = map arg_name_of segments
  ∧ arg_type_list fi = map arg_type_of segments
  ∧ arg_value_list fi = map arg_value_of segments.
Proof.
  intros Hws Hws' Hkw Hhead Hmid Hgt HLF Hty fi segments.
  unfold segments, fi. clear segments fi.
  set (body := header_text head args mid n ty) in *.
  set (pre := head ++ "(" :: args ++ ")" :: mid).
  assert (Hc : ∃ c r, head = c :: r ∧ is_space c = false).
  { destruct head as [|c r]; [by destruct Hkw|]. exists c, r.
    split; [done|]. destruct Hkw as [H|H].
    - change (py "def") with ("d"%char :: py "ef") in H.
      cbn [startswith] in H. apply andb_true_iff in H as [H _].
      by apply Ascii.eqb_eq in H as <-.
    - change (py "async def") with ("a"%char :: py "sync def") in H.
      cbn [startswith] in H. apply andb_true_iff in H as [H _].
      by apply Ascii.eqb_eq in H as <-. }
  destruct Hc as (c & r & Hhd & Hsp).
  assert (H1 : lstrip (ws ++ body ++ ws') = body ++ ws').
  { rewrite lstrip_app by done. unfold body, header_text. rewrite Hhd.
    cbn [app lstrip]. by rewrite Hsp. }
  assert (Hstart : is_start_of_function (ws ++ body ++ ws') = true).
  { unfold is_start_of_function. cbv zeta. rewrite H1. cbn [existsb].
    rewrite orb_false_r. apply orb_true_iff.
    unfold body, header_text. rewrite <- app_assoc.
    destruct Hkw; [left|right]; by apply startswith_app. }
  assert (Hstrip : strip (ws ++ body ++ ws') = body).
  { unfold strip. rewrite H1, rstrip_app by done. unfold body.
    rewrite header_text_snoc. by apply rstrip_snoc. }
  assert (Hrep : replace (replace body [CR; LF] []) [LF] [] = body).
  { rewrite (replace_absent body [CR; LF] [] LF); [|by (right; left)|done].
    by rewrite (replace_absent body [LF] [] LF); [|left|]. }
  apply not_elem_of_app in Hgt as [Hg1 Hg2].
  apply not_elem_of_app in Hg2 as [Hg2 Hg3].
  assert (Hpre : ">"%char ∉ pre).
  { unfold pre. rewrite not_elem_of_app, not_elem_of_cons, not_elem_of_app,
      not_elem_of_cons. split_and!; done. }
  assert (Hbody : body = pre ++ arrow_text n ty ++ [":"%char]).
  { unfold body, header_text, pre. norm_app. reflexivity. }
  assert (Hrt : return_type_search body
                = match ty with
                  | Some t => Some (arrow_text n ty ++ [":"%char], t)
                  | None => None
                  end).
  { rewrite Hbody. destruct ty as [t|].
    - rewrite return_type_search_skip;
        [|done|right; eexists; reflexivity].
      apply return_type_search_hit. cbn [arrow_text].
      rewrite <- !app_assoc.
      by apply return_type_match_arrow; apply Hty.
    - cbn [arrow_text app].
      rewrite <- (app_nil_r (pre ++ [":"%char])), return_type_search_skip;
        [done| |by left].
      rewrite not_elem_of_app, not_elem_of_cons. split_and!; [done..|].
      apply not_elem_of_nil. }
  assert (Hargs :
    slice body (find body (py "(") + 1)
      (rfind_between body (py ")") (find body (py "(") + 1)
         match return_type_search body with
         | Some (g0, _) => rfind body g0
         | None => len body
         end) = args).
  { rewrite Hrt. destruct ty as [t|].
    - assert (Hend : rfind body (arrow_text n (Some t) ++ [":"%char])
                     = len pre).
      { rewrite Hbody, rfind_whole, rfind_in_suffix; [lia| |lia].
        intros H. by apply app_eq_nil in H as [_ H]. }
      rewrite Hend.
      replace (len pre)
        with (len (head ++ ["("%char]) + len (args ++ ")" :: mid))
        by (unfold pre; len_solve).
      replace body
        with ((head ++ ["("%char]) ++ (args ++ ")" :: mid)
              ++ arrow_text n (Some t) ++ [":"%char])
        by (unfold body, header_text; norm_app; reflexivity).
      by apply cut_args.
    - replace (len body)
        with (len (head ++ ["("%char])
              + len (args ++ ")" :: mid ++ [":"%char]))
        by (unfold body, header_text; cbn [arrow_text app]; len_solve).
      replace body
        with ((head ++ ["("%char]) ++ (args ++ ")" :: mid ++ [":"%char])
              ++ [])
        by (unfold body, header_text; cbn [arrow_text]; norm_app;
            reflexivity).
      apply cut_args; [done|].
      rewrite not_elem_of_app, not_elem_of_cons. split_and!; [done..|].
      apply not_elem_of_nil. }
  pose proof (parse_function self _ Hstart) as F. cbv zeta in F.
  destruct F as (F1 & F2 & F3 & F4 & F5 & F6 & F7).
  rewrite Hstrip, Hrep, Hrt in F2.
  rewrite Hstrip, Hrep, Hargs in F3, F4, F5, F6, F7.
  split_and!; [|done| |done..].
  - rewrite F1, find_whole, find_in_lstrip.
    + unfold body, header_text. rewrite Hhd. cbn [app].
      destruct (take_while_stop is_space ws c
                  (r ++ "(" :: args ++ ")" :: mid ++ arrow_text n ty
                   ++ [":"%char] ++ ws')) as [Htw _]; [done..|].
      norm_app. cbn [app] in Htw. rewrite Htw. lia.
    + rewrite H1. unfold body, header_text. rewrite Hhd. done.
  - rewrite F2. by destruct ty.
Qed.

(** X10.  [parse] recovers the parts of a well-formed header.  Take a
    header made of a head that begins with [def] or [async def] and has
    no opening parenthesis, a parameter text, a closing parenthesis
    followed by a text without closing parenthesis, an optional return
    annotation (an arrow, spaces, and a type made of the characters that
    the return pattern accepts) and a colon, with white space before and
    after, no newline, and no [>] before the annotation.  Then the indent
    width is the length of the leading white space, the argument text is
    exactly the parameter text, the return type is the annotated type (or
    absent), the signature is valid exactly when the splitter accepts the
    parameter text, and the three lists are the classifier's readings of
    its segments. *)
Theorem parse_header (self : FunctionInfo) (ws head args mid ws' : str)
    (n : nat) (ty : option str) :
  forallb is_space ws = true → forallb is_space ws' = true →
  (startswith head (py "def") = true
   ∨ startswith head (py "async def") = true) →
  "("%char ∉ head → ")"%char ∉ mid →
  ">"%char ∉ head ++ args ++ mid →
  LF ∉ header_text head args mid n ty →
  (∀ t, ty = Some t →
     forallb return_type_char t = true ∧ ∀ r, t ≠ " "%char :: r) →
  let fi := parse self (ws ++ header_text head args mid n ty ++ ws') in
  let segments := default [] (split_args_text_to_list args) in
  n_indent fi = len ws
  ∧ args_text fi = args
  ∧ return_type fi = ty
  ∧ has_info fi
    = match split_args_text_to_list args with
      | Some _ => true
      | None => false
      end
  ∧ arg_name_list fi = map arg_name_of segments
  ∧ arg_type_list fi = map arg_type_of segments
  ∧ arg_value_list fi = map arg_value_of segments.
Proof.
  intros Hws Hws' Hkw Hhead Hmid Hgt HLF Hty.
  by apply parse_header_fields.
Qed.

(** [parse_header] on ["    def f(a, b=1) -> int:"]. *)
Lemma parse_header_witness :
  let fi := parse __init__ (py "    def f(a, b=1) -> int:") in
  n_indent fi = 4
  ∧ args_text fi = py "a, b=1"
  ∧ return_type fi = Some (py "int")
  ∧ has_info fi = true
  ∧ arg_name_list fi = [py "a"; py "b"]
  ∧ arg_type_list fi = [None; None]
  ∧ arg_value_list fi = [None; Some (py "1")].
Proof.
  apply (parse_header __init__ (py "    ") (py "def f") (py "a, b=1")
           (py " ") [] 1 (Some (py "int"))).
  - reflexivity.
  - reflexivity.
  - left. reflexivity.
  - apply (bool_decide_unpack _). vm_compute. exact I.
  - apply (bool_decide_unpack _). vm_compute. exact I.
  - apply (bool_decide_unpack _). vm_compute. exact I.
  - apply (bool_decide_unpack _). vm_compute. exact I.
  - intros t [= <-]. split; [reflexivity|]. intros r. discriminate.
Defined.

(** ** Default values and the delimiter of the docstring *)

(** A [q] at the head of the result was copied from the head of the
    text. *)
Lemma replace_go_head (q o : ascii) (s r : str) :
  q ≠ o →
  replace_go [q; q; q] [o; o; o] s 0 = q :: r →
  ∃ s', s = q :: s' ∧ r = replace_go [q; q; q] [o; o; o] s' 0.
Proof.
  intros Hqo. destruct s as [|c s]; [done|]. cbn [replace_go].
  destruct (startswith (c :: s) [q; q; q]).
  - cbn [app]. intros [= H]. by destruct Hqo.
  - intros [= -> <-]. by exists s.
Qed.

(** Replacing three [q] by three [o] leaves no three [q] in a row. *)
Lemma replace_go_clean (q o : ascii) (s : str) k pre post :
  q ≠ o →
  replace_go [q; q; q] [o; o; o] s k ≠ pre ++ [q; q; q] ++ post.
Proof.
  intros Hqo. revert k pre. induction s as [|c s IH]; intros k pre.
  { cbn [replace_go]. by destruct pre. }
  cbn [replace_go]. destruct k as [|k]; [|apply IH].
  destruct (startswith (c :: s) [q; q; q]) eqn:E.
  - cbn [length Nat.sub app].
    destruct pre as [|a [|b [|d pre]]]; cbn [app];
      try (intros [= H]; by destruct Hqo).
    intros [= _ _ _ H]. by apply IH in H.
  - destruct pre as [|a pre]; cbn [app]; [|intros [= _ H]; by apply IH in H].
    intros [= -> H].
    apply (replace_go_head q o) in H as (s1 & -> & H); [|done].
    symmetry in H. apply (replace_go_head q o) in H as (s2 & -> & _); [|done].
    cbn [startswith] in E.
    rewrite !Ascii.eqb_refl, startswith_nil in E. done.
Qed.

(** X11.  The default value written into the scaffold never contains the
    delimiter of the docstring: after the replacement of the triple quote
    by the alternate triple quote chosen by [_generate_docstring], the
    value holds no occurrence of the trigger's quote character three
    times in a row, whatever the value was. *)
Theorem default_value_without_delimiter (quote_char : ascii) (value : str) :
  let quote := [quote_char] in
  let quote3 := repeat_str quote 3 in
  ∀ pre post,
    replace value quote3 (quote3_other_of quote) ≠ pre ++ quote3 ++ post.
Proof.
  intros quote quote3 pre post. unfold quote3, quote, quote3_other_of.
  change (repeat_str [quote_char] 3) with [quote_char; quote_char; quote_char].
  case_bool_decide as Hq.
  - injection Hq as ->. by apply (replace_go_clean dquote "'").
  - apply (replace_go_clean quote_char dquote). congruence.
Qed.

(** ** Looking for the header above the cursor *)

Lemma endswith_char (s : str) c : endswith s [c] = true ↔ last s = Some c.
Proof.
  unfold endswith. cbn [rev app]. rewrite startswith_char.
  destruct s as [|x l _] using rev_ind; [done|].
  rewrite rev_unit, last_snoc. split.
  - by intros ->%Ascii.eqb_eq.
  - intros [= ->]. apply Ascii.eqb_refl.
Qed.

Lemma getitem_last (s : str) : getitem s (-1) = last s.
Proof.
  unfold getitem. destruct s as [|x l _] using rev_ind; [done|].
  change (-1 <? 0) with true. cbv iota. rewrite len_snoc, last_snoc.
  pose proof (len_nonneg l).
  destruct (Z.ltb_spec (-1 + (len l + 1)) 0); [lia|].
  replace (Z.to_nat (-1 + (len l + 1))) with (length l)
    by (unfold len; lia).
  by rewrite list_lookup_middle.
Qed.

Lemma endswith_app (x s : str) c :
  endswith s [c] = true → endswith (x ++ s) [c] = true.
Proof.
  rewrite !endswith_char. destruct s as [|y l _] using rev_ind; [done|].
  by rewrite app_assoc, !last_snoc.
Qed.

Lemma lstrip_app_keep (a b : str) :
  lstrip a ≠ [] → lstrip (a ++ b) = lstrip a ++ b.
Proof.
  induction a as [|c a IH]; [done|]. cbn [app lstrip].
  destruct (is_space c); [exact IH|done].
Qed.

(** A text that starts a function definition still does when more text
    follows. *)
Lemma is_start_of_function_app (a b : str) :
  is_start_of_function a = true → is_start_of_function (a ++ b) = true.
Proof.
  unfold is_start_of_function. cbv zeta. cbn [existsb].
  rewrite !orb_false_r. intros H.
  rewrite lstrip_app_keep.
  - apply orb_true_iff in H as [H|H]; apply orb_true_iff; [left|right];
      by apply startswith_app.
  - intros Hnil. rewrite Hnil in H. done.
Qed.

(** The loop of [_get_function_definition_from_cursor]: it never raises,
    and a text it returns is made of the cleaned lines from the nearest
    line above the cursor that starts a function definition down to the
    line right above the cursor. *)
Lemma get_definition_loop_spec (n : nat) (document : list str)
    (cursor : nat) (is_first_line : bool) (func_text : str) :
  (is_first_line = true → func_text = []) →
  (is_first_line = false → endswith func_text (py ":") = true) →
  ∃ r c',
    get_definition_loop n document cursor is_first_line func_text
    = Ok (r, c')
    ∧ ∀ t, r = Some t →
        (c' < cursor)%nat ∧ (cursor - c' ≤ n)%nat
        ∧ t = concat (map (fun j => clean_line (block_text document j))
                        (seq c' (cursor - c'))) ++ func_text
        ∧ is_start_of_function (clean_line (block_text document c')) = true
        ∧ (∀ j, (c' < j < cursor)%nat →
             is_start_of_function (clean_line (block_text document j))
             = false)
        ∧ endswith t (py ":") = true.
Proof.
  revert cursor is_first_line func_text.
  induction n as [|n IH]; intros cursor is_first_line func_text Hfirst Hnext.
  { by exists None, cursor. }
  cbn [get_definition_loop].
  case_bool_decide as Hzero; [by exists None, cursor|].
  set (prev_text := rstrip (block_text document (cursor - 1))).
  destruct (if is_first_line then negb (endswith prev_text (py ":"))
            else endswith prev_text (py ":") || bool_decide (prev_text = []))
    eqn:Hcond; [by exists None, (cursor - 1)%nat|].
  assert (Hne : prev_text ≠ []).
  { intros Hnil. rewrite Hnil in Hcond. destruct is_first_line; [done|].
    rewrite bool_decide_eq_true_2 in Hcond by done.
    by rewrite orb_true_r in Hcond. }
  assert (Hclean : clean_line (block_text document (cursor - 1))
                   = match getitem prev_text (-1) with
                     | Some last_char =>
                         if Ascii.eqb last_char backslash
                         then slice prev_text 0 (-1) else prev_text
                     | None => prev_text
                     end) by done.
  destruct (getitem prev_text (-1)) as [last_char|] eqn:Hlast.
  2: { rewrite getitem_last in Hlast. by apply last_None in Hlast. }
  rewrite <- Hclean.
  set (line := clean_line (block_text document (cursor - 1))) in *.
  assert (Hends : endswith (line ++ func_text) (py ":") = true).
  { destruct is_first_line.
    - rewrite (Hfirst eq_refl), app_nil_r.
      apply negb_false_iff in Hcond. rewrite Hclean.
      apply endswith_char in Hcond as Hl. rewrite <- getitem_last in Hl.
      rewrite Hlast in Hl. injection Hl as ->. done.
    - apply endswith_app. by apply Hnext. }
  destruct (is_start_of_function line) eqn:Hstart.
  - exists (Some (line ++ func_text)), (cursor - 1)%nat. split; [done|].
    intros t [= <-].
    replace (cursor - (cursor - 1))%nat with 1%nat by lia.
    cbn [seq map concat]. rewrite app_nil_r.
    split_and!; [lia|lia|done|done| |done].
    intros j Hj. lia.
  - destruct (IH (cursor - 1)%nat false (line ++ func_text))
      as (r & c' & Hloop & Hr); [done|done|].
    exists r, c'. split; [done|]. intros t Ht.
    destruct (Hr t Ht) as (Hlt & Hle & Heq & Hdef & Hnear & Hend).
    split_and!; [lia|lia| |done| |done].
    + rewrite Heq.
      replace (cursor - c')%nat with (S (cursor - 1 - c')) by lia.
      rewrite seq_S, map_app, concat_app. cbn [map concat].
      replace (c' + (cursor - 1 - c'))%nat with (cursor - 1)%nat by lia.
      fold line. by rewrite app_nil_r, <- app_assoc.
    + intros j Hj. destruct (decide (j = (cursor - 1)%nat)) as [->|Hnej].
      * exact Hstart.
      * apply Hnear. lia.
Qed.

Lemma _get_function_definition_from_cursor_spec (document : list str)
    (cursor : nat) :
  ∃ r c',
    _get_function_definition_from_cursor document cursor = Ok (r, c')
    ∧ ∀ t, r = Some t →
        (c' < cursor)%nat ∧ (cursor - c' ≤ 20)%nat
        ∧ t = concat (map (fun j => clean_line (block_text document j))
                        (seq c' (cursor - c')))
        ∧ is_start_of_function (clean_line (block_text document c')) = true
        ∧ (∀ j, (c' < j < cursor)%nat →
             is_start_of_function (clean_line (block_text document j))
             = false)
        ∧ is_start_of_function t = true
        ∧ endswith t (py ":") = true.
Proof.
  unfold _get_function_definition_from_cursor. cbv zeta.
  destruct (get_definition_loop_spec (Nat.min (cursor + 1) 20) document
              cursor true []) as (r & c' & Hloop & Hr); [done..|].
  exists r, c'. split; [done|]. intros t Ht.
  destruct (Hr t Ht) as (Hlt & Hle & Heq & Hdef & Hnear & Hend).
  rewrite app_nil_r in Heq.
  split_and!; [done|lia|done|done|done| |done].
  rewrite Heq. replace (cursor - c')%nat with (S (cursor - c' - 1)) by lia.
  cbn [seq map concat]. by apply is_start_of_function_app.
Qed.

(** X12.  The search for the header never raises.  When it returns a
    text, that text is the concatenation of at most twenty consecutive
    lines ending right above the cursor, each without its trailing white
    space and without a final backslash; the first of them is the nearest
    line above the cursor that starts a function definition, so the text
    starts a function definition too, and it ends with a colon.  The
    cursor is left on that first line. *)
Theorem header_search (document : list str) (cursor : nat) :
  ∃ r c',
    _get_function_definition_from_cursor document cursor = Ok (r, c')
    ∧ ∀ t, r = Some t →
        (c' < cursor)%nat ∧ (cursor - c' ≤ 20)%nat
        ∧ t = concat (map (fun j => clean_line (block_text document j))
                        (seq c' (cursor - c')))
        ∧ is_start_of_function (clean_line (block_text document c')) = true
        ∧ (∀ j, (c' < j < cursor)%nat →
             is_start_of_function (clean_line (block_text document j))
             = false)
        ∧ is_start_of_function t = true
        ∧ endswith t (py ":") = true.
Proof. apply _get_function_definition_from_cursor_spec. Qed.

(** ** Writing the docstring *)

(** A trigger is white space, an optional [r], and three identical quote
    characters. *)
Lemma _is_beginning_triple_quotes_spec (text : str) :
  _is_beginning_triple_quotes text = true →
  ∃ q pre, (q = "'"%char ∨ q = dquote)
           ∧ text = pre ++ [q; q; q]
           ∧ getitem text (-1) = Some q.
Proof.
  unfold _is_beginning_triple_quotes. cbv zeta.
  intros H%bool_decide_eq_true.
  destruct (lstrip_split text) as (ws & Htext & _).
  assert (Hshape : ∃ q pre, (q = "'"%char ∨ q = dquote)
                            ∧ text = pre ++ [q; q; q]).
  { rewrite Htext.
    repeat (apply elem_of_cons in H as [-> | H]).
    - exists dquote, ws. split; [by right|done].
    - exists dquote, (ws ++ ["r"%char]). split; [by right|].
      by rewrite <- app_assoc.
    - exists "'"%char, ws. split; [by left|done].
    - exists "'"%char, (ws ++ ["r"%char]). split; [by left|].
      by rewrite <- app_assoc.
    - by apply elem_of_nil in H. }
  destruct Hshape as (q & pre & Hq & Hpre). exists q, pre.
  split_and!; [done..|].
  rewrite getitem_last, Hpre.
  change [q; q; q] with ([q; q] ++ [q]). by rewrite app_assoc, last_snoc.
Qed.

Lemma _write_docstring_spec (docstring_type : str) (editor : Editor) :
  ∃ inserted written,
    _write_docstring docstring_type editor = Ok (inserted, written)
    ∧ (written = true ↔ inserted ≠ None)
    ∧ ∀ d, inserted = Some d →
        d ≠ []
        ∧ (docstring_type = py "one-line" ∨ docstring_type = py "numpy")
        ∧ (∃ q pre d',
             (q = "'"%char ∨ q = dquote)
             ∧ get_text_sol_cursor editor = pre ++ [q; q; q]
             ∧ d = d' ++ [q; q; q])
        ∧ ∃ t c',
            _get_function_definition_from_cursor (document editor)
              (cursor_block editor) = Ok (Some t, c')
            ∧ has_info (parse __init__ t) = true.
Proof.
  unfold _write_docstring. cbv zeta.
  destruct (_is_beginning_triple_quotes (get_text_sol_cursor editor))
    eqn:Htrig; [|by exists None, false].
  destruct (_is_beginning_triple_quotes_spec _ Htrig)
    as (q & pre & Hq & Hline & ->).
  unfold _generate_docstring_cursor.
  destruct (_get_function_definition_from_cursor_spec (document editor)
              (cursor_block editor)) as (r & c' & -> & _).
  cbn [mbind result_bind].
  destruct (_generate_docstring_cases docstring_type r [q])
    as (g & -> & Hg).
  cbn [mbind result_bind].
  destruct g as [[|c d]|]; cbn [truthy].
  1,3: by exists None, false.
  exists (Some (c :: d)), true. split; [done|]. split; [done|].
  intros ? [= <-].
  destruct (Hg (c :: d) eq_refl) as (Hty & (t & -> & _ & Hinfo) & (d' & Hd)).
  split_and!; [done|done| |by exists t, c'].
  exists q, pre, d'. split_and!; done.
Qed.

(** X13.  Writing the docstring never raises, and returns true exactly
    when a text is inserted.  A text is inserted only if the line up to
    the cursor ends with three identical quote characters, the
    configured type is ["one-line"] or ["numpy"], and the header search
    above the cursor returns a text that [parse] accepts; the inserted
    text is not empty and ends with the same three quote characters. *)
Theorem write_docstring_spec (docstring_type : str) (editor : Editor) :
  ∃ inserted written,
    _write_docstring docstring_type editor = Ok (inserted, written)
    ∧ (written = true ↔ inserted ≠ None)
    ∧ ∀ d, inserted = Some d →
        d ≠ []
        ∧ (docstring_type = py "one-line" ∨ docstring_type = py "numpy")
        ∧ (∃ q pre d',
             (q = "'"%char ∨ q = dquote)
             ∧ get_text_sol_cursor editor = pre ++ [q; q; q]
             ∧ d = d' ++ [q; q; q])
        ∧ ∃ t c',
            _get_function_definition_from_cursor (document editor)
              (cursor_block editor) = Ok (Some t, c')
            ∧ has_info (parse __init__ t) = true.
Proof. apply _write_docstring_spec. Qed.

(** X14.  The key handler never raises and never changes the key of the
    event.  It inserts a text only for an event not yet accepted whose
    key is Enter or Return while the extension is enabled, and then the
    text is the one written by [_write_docstring]; the event is accepted
    afterwards exactly when it was accepted before or a text was
    inserted. *)
Theorem key_press_spec (enabled : bool) (docstring_type : str)
    (editor : Editor) (event : KeyEvent) :
  ∃ inserted event',
    _on_key_pressed enabled docstring_type editor event
    = Ok (inserted, event')
    ∧ key event' = key event
    ∧ (isAccepted event' = true
       ↔ isAccepted event = true ∨ inserted ≠ None)
    ∧ (inserted ≠ None →
         isAccepted event = false ∧ enabled = true
         ∧ (key event = Key_Enter ∨ key event = Key_Return)
         ∧ _write_docstring docstring_type editor = Ok (inserted, true)).
Proof.
  unfold _on_key_pressed. cbv zeta.
  destruct (isAccepted event) eqn:Hacc.
  { exists None, event. split_and!; [done|done| |done].
    rewrite Hacc. split; [by left|done]. }
  destruct (match key event with
            | Key_Enter | Key_Return => true
            | Key_other _ => false
            end && enabled) eqn:Hkey.
  2: { exists None, event. split_and!; [done|done| |done].
       rewrite Hacc. split; [done|]. by intros [|]. }
  apply andb_true_iff in Hkey as [Hkey ->].
  assert (Hk : key event = Key_Enter ∨ key event = Key_Return).
  { destruct (key event); [by left|by right|done]. }
  destruct (_write_docstring_spec docstring_type editor)
    as (inserted & written & Hw & Hiff & _).
  rewrite Hw. cbn [mbind result_bind].
  destruct written.
  - exists inserted, (mkKeyEvent true (key event)).
    split_and!; [done|done| |done].
    cbn [isAccepted]. split; [|done]. intros _. right. by apply Hiff.
  - exists inserted, event. split_and!; [done|done| |].
    + rewrite Hacc. split; [done|]. intros [|Hins]; [done|].
      by apply Hiff in Hins.
    + intros Hins. by apply Hiff in Hins.
Qed.

(** ** When the header is found *)

Lemma get_definition_loop_found (n : nat) (document : list str)
    (cursor : nat) (is_first_line : bool) (func_text : str) (c' : nat) :
  (c' < cursor)%nat → (cursor - c' ≤ n)%nat →
  is_start_of_function (clean_line (block_text document c')) = true →
  (∀ j, (c' < j < cursor)%nat →
     is_start_of_function (clean_line (block_text document j)) = false) →
  (is_first_line = true →
     endswith (rstrip (block_text document (cursor - 1))) (py ":") = true) →
  (∀ j, (c' ≤ j < cursor)%nat →
     (j < cursor - 1)%nat ∨ is_first_line = false →
     rstrip (block_text document j) ≠ []
     ∧ endswith (rstrip (block_text document j)) (py ":") = false) →
  get_definition_loop n document cursor is_first_line func_text
  = Ok (Some (concat (map (fun j => clean_line (block_text document j))
                        (seq c' (cursor - c'))) ++ func_text), c').
Proof.
  revert cursor is_first_line func_text.
  induction n as [|n IH];
    intros cursor is_first_line func_text Hlt Hle Hdef Hnear Hfirst Hmid;
    [lia|].
  cbn [get_definition_loop].
  rewrite bool_decide_eq_false_2 by lia.
  set (prev_text := rstrip (block_text document (cursor - 1))) in *.
  assert (Hcond : (if is_first_line
                   then negb (endswith prev_text (py ":"))
                   else endswith prev_text (py ":")
                        || bool_decide (prev_text = [])) = false
                  ∧ prev_text ≠ []).
  { destruct is_first_line.
    - rewrite (Hfirst eq_refl). split; [done|]. intros Hnil.
      specialize (Hfirst eq_refl). by rewrite Hnil in Hfirst.
    - destruct (Hmid (cursor - 1)%nat) as [Hne Hend]; [lia|by right|].
      fold prev_text in Hne, Hend. rewrite Hend.
      by rewrite bool_decide_eq_false_2. }
  destruct Hcond as [-> Hne].
  assert (Hclean : clean_line (block_text document (cursor - 1))
                   = match getitem prev_text (-1) with
                     | Some last_char =>
                         if Ascii.eqb last_char backslash
                         then slice prev_text 0 (-1) else prev_text
                     | None => prev_text
                     end) by done.
  destruct (getitem prev_text (-1)) as [last_char|] eqn:Hlast.
  2: { rewrite getitem_last in Hlast. by apply last_None in Hlast. }
  rewrite <- Hclean.
  destruct (decide (c' = (cursor - 1)%nat)) as [->|Hc].
  - rewrite Hdef.
    replace (cursor - (cursor - 1))%nat with 1%nat by lia.
    cbn [seq map concat]. by rewrite app_nil_r.
  - rewrite Hnear by lia.
    rewrite (IH (cursor - 1)%nat false); [|lia|lia|done| |done|].
    + replace (cursor - c')%nat with (S (cursor - 1 - c')) by lia.
      rewrite seq_S, map_app, concat_app. cbn [map concat].
      replace (c' + (cursor - 1 - c'))%nat with (cursor - 1)%nat by lia.
      by rewrite app_nil_r, <- app_assoc.
    + intros j Hj. apply Hnear. lia.
    + intros j Hj _. apply Hmid; [lia|left; lia].
Qed.

(** X15.  The header is found whenever it is there: if the line right
    above the cursor ends with a colon (trailing white space aside), a
    line at most twenty lines above the cursor starts a function
    definition once cleaned, no line between that one and the cursor
    does, and every line from that one to the second line above the
    cursor is neither blank nor ended by a colon, then the search returns
    the cleaned lines from that one down to the cursor, joined, and
    leaves the cursor on it. *)
Theorem header_found (document : list str) (cursor c' : nat) :
  (c' < cursor)%nat → (cursor - c' ≤ 20)%nat →
  is_start_of_function (clean_line (block_text document c')) = true →
  (∀ j, (c' < j < cursor)%nat →
     is_start_of_function (clean_line (block_text document j)) = false) →
  endswith (rstrip (block_text document (cursor - 1))) (py ":") = true →
  (∀ j, (c' ≤ j < cursor - 1)%nat →
     rstrip (block_text document j) ≠ []
     ∧ endswith (rstrip (block_text document j)) (py ":") = false) →
  _get_function_definition_from_cursor document cursor
  = Ok (Some (concat (map (fun j => clean_line (block_text document j))
                        (seq c' (cursor - c')))), c').
Proof.
  intros Hlt Hle Hdef Hnear Hfirst Hmid.
  unfold _get_function_definition_from_cursor. cbv zeta.
  rewrite (get_definition_loop_found _ document cursor true [] c');
    [by rewrite app_nil_r|done|lia|done|done|done|].
  intros j Hj [Hj'|]; [|done]. apply Hmid. lia.
Qed.

(** [header_found] on a definition written on two lines, the first one
    ended by a backslash. *)
Lemma header_found_witness :
  _get_function_definition_from_cursor
    [py "x = 1"; py "def f(a, " ++ [backslash]; py "      b):  ";
     py "    '''"] 3
  = Ok (Some (py "def f(a,       b):"), 1%nat).
Proof.
  apply (header_found
           [py "x = 1"; py "def f(a, " ++ [backslash]; py "      b):  ";
            py "    '''"] 3 1).
  - lia.
  - lia.
  - reflexivity.
  - intros j Hj. assert (j = 2%nat) as -> by lia. reflexivity.
  - reflexivity.
  - intros j Hj. assert (j = 1%nat) as -> by lia. split; [|reflexivity].
    vm_compute. discriminate.
Defined.

(** ** From the key press to the scaffold *)

Lemma clean_line_colon (line pre : str) :
  rstrip line = pre ++ [":"%char] → clean_line line = rstrip line.
Proof.
  intros H. unfold clean_line. cbv zeta.
  by rewrite getitem_last, H, last_snoc.
Qed.

Lemma is_start_of_function_kw (ws s : str) :
  forallb is_space ws = true →
  startswith s (py "def") = true ∨ startswith s (py "async def") = true →
  is_start_of_function (ws ++ s) = true.
Proof.
  intros Hws Hkw. unfold is_start_of_function. cbv zeta.
  rewrite lstrip_app by done. cbn [existsb]. rewrite orb_false_r.
  assert (Hs : lstrip s = s).
  { destruct s as [|c r]; [done|]. cbn [lstrip].
    replace (is_space c) with false; [done|].
    destruct Hkw as [H|H].
    - change (py "def") with ("d"%char :: py "ef") in H.
      cbn [startswith] in H. apply andb_true_iff in H as [H _].
      by apply Ascii.eqb_eq in H as <-.
    - change (py "async def") with ("a"%char :: py "sync def") in H.
      cbn [startswith] in H. apply andb_true_iff in H as [H _].
      by apply Ascii.eqb_eq in H as <-. }
  rewrite Hs. by apply orb_true_iff.
Qed.

(** X16.  The whole chain on a header written on one line.  Let the line
    right above the cursor be, trailing white space aside, a well-formed
    header as in [parse_header] whose parameter text the splitter
    accepts, and let the line up to the cursor be a trigger ending with
    the quote character [q].  Then the header search returns that line
    without its trailing white space; [parse] reads from it the indent
    width, the parameter text, the return type and one name, type and
    value for each segment; with the type ["one-line"] the three quote
    characters are inserted; with the type ["numpy"] the text inserted is
    the one [_generate_numpy_doc] makes of the parsed signature; and in
    both cases [_write_docstring] returns true. *)
Theorem docstring_under_header (editor : Editor) (b : nat)
    (line ws head args mid : str) (n : nat) (ty : option str)
    (segs : list str) (q : ascii) :
  cursor_block editor = S b →
  document editor !! b = Some line →
  rstrip line = ws ++ header_text head args mid n ty →
  forallb is_space ws = true →
  (startswith head (py "def") = true
   ∨ startswith head (py "async def") = true) →
  "("%char ∉ head → ")"%char ∉ mid →
  ">"%char ∉ head ++ args ++ mid →
  LF ∉ header_text head args mid n ty →
  (∀ t, ty = Some t →
     forallb return_type_char t = true ∧ ∀ r, t ≠ " "%char :: r) →
  split_args_text_to_list args = Some segs →
  _is_beginning_triple_quotes (get_text_sol_cursor editor) = true →
  getitem (get_text_sol_cursor editor) (-1) = Some q →
  let fi := parse __init__ (rstrip line) in
  _get_function_definition_from_cursor (document editor)
    (cursor_block editor) = Ok (Some (rstrip line), b)
  ∧ has_info fi = true
  ∧ n_indent fi = len ws ∧ args_text fi = args ∧ return_type fi = ty
  ∧ arg_name_list fi = map arg_name_of segs
  ∧ arg_type_list fi = map arg_type_of segs
  ∧ arg_value_list fi = map arg_value_of segs
  ∧ _write_docstring (py "one-line") editor = Ok (Some [q; q; q], true)
  ∧ ∃ numpy_doc fi',
      _generate_numpy_doc fi [q; q; q] (quote3_other_of [q])
      = Ok (numpy_doc, fi')
      ∧ _write_docstring (py "numpy") editor = Ok (Some numpy_doc, true).
Proof.
  intros Hcur Hdoc Hline Hws Hkw Hhead Hmid Hgt HLF Hty Hsegs Htrig Hq fi.
  assert (Hblock : block_text (document editor) b = line).
  { unfold block_text. by rewrite Hdoc. }
  assert (Hcolon : rstrip line
                   = (ws ++ head ++ "(" :: args ++ ")" :: mid
                         ++ arrow_text n ty) ++ [":"%char]).
  { rewrite Hline, header_text_snoc. by rewrite (app_assoc ws). }
  assert (Hclean : clean_line line = rstrip line).
  { by apply (clean_line_colon _ _ Hcolon). }
  assert (Hstart : is_start_of_function (rstrip line) = true).
  { rewrite Hline. apply is_start_of_function_kw; [done|].
    unfold header_text. destruct Hkw; [left|right]; by apply startswith_app. }
  assert (Hsearch : _get_function_definition_from_cursor (document editor)
                      (cursor_block editor) = Ok (Some (rstrip line), b)).
  { rewrite Hcur. unfold _get_function_definition_from_cursor. cbv zeta.
    rewrite (get_definition_loop_found _ (document editor) (S b) true [] b).
    - replace (S b - b)%nat with 1%nat by lia. cbn [seq map concat].
      by rewrite Hblock, Hclean, !app_nil_r.
    - lia.
    - lia.
    - by rewrite Hblock, Hclean.
    - intros j Hj. lia.
    - intros _. replace (S b - 1)%nat with b by lia. rewrite Hblock.
      change (py ":") with [":"%char]. apply endswith_char.
      by rewrite Hcolon, last_snoc.
    - intros j Hj [Hj'|]; [lia|done]. }
  pose proof (parse_header_fields __init__ ws head args mid [] n ty
                Hws eq_refl Hkw Hhead Hmid Hgt HLF Hty) as Hfields.
  cbv zeta in Hfields. rewrite app_nil_r, <- Hline, Hsegs in Hfields.
  cbn [default] in Hfields. fold fi in Hfields.
  destruct Hfields as (F1 & F2 & F3 & F4 & F5 & F6 & F7).
  assert (Hne : rstrip line ≠ []).
  { rewrite Hcolon. intros H. by apply app_eq_nil in H as [_ H]. }
  assert (Hone : _generate_docstring (py "one-line") (Some (rstrip line)) [q]
                 = Ok (Some [q; q; q])).
  { unfold _generate_docstring. cbv zeta.
    destruct (rstrip line) as [|c l] eqn:E; [done|].
    fold fi. rewrite F4. by rewrite bool_decide_eq_true_2. }
  destruct (parse_aligned __init__ (rstrip line)) as [Ha Hb].
  destruct (render_aligned fi [q; q; q] (quote3_other_of [q]) Ha Hb)
    as (fi' & _ & Hrender & _).
  assert (Hnumpy : _generate_docstring (py "numpy") (Some (rstrip line)) [q]
                   = Ok (Some (numpy_doc_body fi' [q; q; q]
                                 (quote3_other_of [q])))).
  { rewrite (_generate_docstring_numpy _ _ Hne F4). fold fi.
    change (repeat_str [q] 3) with [q; q; q].
    change (if bool_decide ([q] = [dquote])
            then quote3_single else quote3_double)
      with (quote3_other_of [q]).
    by rewrite Hrender. }
  split_and!; [done..| |].
  - unfold _write_docstring. cbv zeta. rewrite Htrig, Hq.
    unfold _generate_docstring_cursor. rewrite Hsearch.
    cbn [mbind result_bind]. rewrite Hone. done.
  - exists (numpy_doc_body fi' [q; q; q] (quote3_other_of [q])), fi'.
    split; [done|].
    unfold _write_docstring. cbv zeta. rewrite Htrig, Hq.
    unfold _generate_docstring_cursor. rewrite Hsearch.
    cbn [mbind result_bind]. rewrite Hnumpy. done.
Qed.

(** [docstring_under_header] on a method header with a typed default and a
    return annotation, the trigger being three single quotes. *)
Lemma docstring_under_header_witness :
  _write_docstring (py "one-line")
    (mkEditor [py "    def f(self, a: int = 1) -> int:  "; py "        '''"]
       1 11)
  = Ok (Some (py "'''"), true)
  ∧ arg_name_list
      (parse __init__ (rstrip (py "    def f(self, a: int = 1) -> int:  ")))
    = map arg_name_of [py "self"; py " a: int = 1"].
Proof.
  assert (H1 : "("%char ∉ py "def f")
    by (apply (bool_decide_unpack _); vm_compute; exact I).
  assert (H2 : ")"%char ∉ py " ")
    by (apply (bool_decide_unpack _); vm_compute; exact I).
  assert (H3 : ">"%char ∉ py "def f" ++ py "self, a: int = 1" ++ py " ")
    by (apply (bool_decide_unpack _); vm_compute; exact I).
  assert (H4 : LF ∉ header_text (py "def f") (py "self, a: int = 1")
                      (py " ") 1 (Some (py "int")))
    by (apply (bool_decide_unpack _); vm_compute; exact I).
  assert (H5 : ∀ t, Some (py "int") = Some t →
                 forallb return_type_char t = true
                 ∧ ∀ r, t ≠ " "%char :: r).
  { intros t [= <-]. split; [reflexivity|]. intros r. discriminate. }
  assert (H6 : split_args_text_to_list (py "self, a: int = 1")
               = Some [py "self"; py " a: int = 1"])
    by (vm_compute; reflexivity).
  assert (H7 : rstrip (py "    def f(self, a: int = 1) -> int:  ")
               = py "    "
                 ++ header_text (py "def f") (py "self, a: int = 1")
                      (py " ") 1 (Some (py "int")))
    by (vm_compute; reflexivity).
  pose proof (docstring_under_header
                (mkEditor [py "    def f(self, a: int = 1) -> int:  ";
                           py "        '''"] 1 11)
                0 (py "    def f(self, a: int = 1) -> int:  ") (py "    ")
                (py "def f") (py "self, a: int = 1") (py " ") 1
                (Some (py "int")) [py "self"; py " a: int = 1"] "'"%char
                eq_refl eq_refl H7 eq_refl (or_introl eq_refl)
                H1 H2 H3 H4 H5 H6 eq_refl eq_refl) as H.
  cbv zeta in H.
  destruct H as (_ & _ & _ & _ & _ & Hnames & _ & _ & Hone & _).
  split; [exact Hone|exact Hnames].
Defined.

(** ** Quote scanner: no quote character is left out *)

Lemma quote_pairs_complete cs text pre i opened :
  text = pre ++ cs → i = len pre →
  (∀ q l, opened = Some (q, l) → l < i ∧ is_quote q = true) →
  (quote_pairs (last pre) i cs opened).2 = None →
  ∀ j c, i ≤ j → text !! Z.to_nat j = Some c → is_quote c = true →
    (∃ v, (j, v) ∈ (quote_pairs (last pre) i cs opened).1)
    ∨ (∃ k, (k, j) ∈ (quote_pairs (last pre) i cs opened).1)
    ∨ (∃ k v, (k, v) ∈ (quote_pairs (last pre) i cs opened).1
              ∧ k < j ∧ j < v).
Proof.
  revert pre i opened.
  induction cs as [|c0 cs IH]; intros pre i opened Htext Hi Hop Hfin j c Hj Hc.
  { rewrite app_nil_r in Htext. subst pre.
    apply lookup_lt_Some in Hc. unfold len in Hi. lia. }
  assert (Htext' : text = (pre ++ [c0]) ++ cs)
    by (rewrite Htext, <- app_assoc; done).
  assert (Hi' : i + 1 = len (pre ++ [c0])) by (by rewrite len_snoc, Hi).
  assert (Hc0 : text !! Z.to_nat i = Some c0)
    by (rewrite Htext, Hi; apply lookup_snoc_text).
  pose proof (IH (pre ++ [c0]) (i + 1)) as IH'. rewrite last_snoc in IH'.
  revert Hfin. cbn [quote_pairs]. intros Hfin Hq.
  destruct opened as [[q l]|].
  - destruct (Hop q l eq_refl) as [Hl Hql].
    destruct (Ascii.eqb c0 q && negb (bool_decide (last pre = Some backslash))).
    + cbv zeta in *. cbn [fst snd] in *.
      destruct (decide (j = i)) as [->|Hne].
      * right; left. exists l. by left.
      * destruct (IH' None Htext' Hi' ltac:(done) Hfin j c ltac:(lia) Hc Hq)
          as [(v & Hv) | [(k & Hk) | (k & v & Hkv & Hlt)]].
        -- left. exists v. by right.
        -- right; left. exists k. by right.
        -- right; right. exists k, v. split; [by right|done].
    + destruct (decide (j = i)) as [->|Hne].
      * destruct (quote_pairs_closes _ _ _ _ _ Hfin) as (v & Hv & Hin).
        right; right. exists l, v. split_and!; [done|done|lia].
      * refine (IH' (Some (q, l)) Htext' Hi' _ Hfin j c _ Hc Hq); [|lia].
        intros q' l' [= <- <-]. split; [lia|done].
  - destruct (is_quote c0) eqn:Hq0.
    + destruct (decide (j = i)) as [->|Hne].
      * destruct (quote_pairs_closes _ _ _ _ _ Hfin) as (v & Hv & Hin).
        left. by exists v.
      * refine (IH' (Some (c0, i)) Htext' Hi' _ Hfin j c _ Hc Hq); [|lia].
        intros q' l' [= <- <-]. split; [lia|done].
    + destruct (decide (j = i)) as [->|Hne].
      * congruence.
      * refine (IH' None Htext' Hi' _ Hfin j c _ Hc Hq); [done|lia].
Qed.

(** X17.  Whenever the quote scan succeeds, it accounts for every quote
    character of the text: each single or double quote is the opening
    quote of a string of the map, the closing quote of one, or lies
    strictly inside one. *)
Theorem quote_map_complete (text : str) (pos : gmap Z Z) :
  find_quote_position text = Ok pos →
  ∀ j q, 0 ≤ j → text !! Z.to_nat j = Some q →
    q = "'"%char ∨ q = dquote →
    is_Some (pos !! j) ∨ (∃ k, pos !! k = Some j)
    ∨ is_char_in_pairs j pos = true.
Proof.
  intros Hpos j q Hj Hc Hq.
  pose proof (find_quote_position_pairs text) as Ht.
  destruct (quote_pairs None 0 text None).2 as [st|] eqn:Efin.
  { destruct Ht as (e & He). congruence. }
  destruct Ht as (m & Hm & Hlook). rewrite Hpos in Hm. injection Hm as <-.
  assert (Hisq : is_quote q = true).
  { unfold is_quote. destruct Hq as [-> | ->]; [done|].
    by rewrite Ascii.eqb_refl, orb_true_r. }
  destruct (quote_pairs_complete text text [] 0 None eq_refl eq_refl
              ltac:(done) Efin j q Hj Hc Hisq)
    as [(v & Hv) | [(k & Hk) | (k & v & Hkv & Hlt)]].
  - left. exists v. by apply Hlook.
  - right; left. exists k. by apply Hlook.
  - right; right. apply is_char_in_pairs_iff. exists k, v.
    split; [by apply Hlook|done].
Qed.

(** [quote_map_complete] on ["f('a', " ++ dquote ++ "it's" ++ dquote ++
    ")"]: the apostrophe at 10 lies inside the string [(7, 12)]. *)
Lemma quote_map_complete_witness :
  find_quote_position
    (py "f('a', " ++ dquote :: py "it's" ++ dquote :: py ")")
  = Ok (<[7 := 12]> (<[2 := 4]> ∅))
  ∧ (is_Some ((<[7 := 12]> (<[2 := 4]> ∅) : gmap Z Z) !! 10)
     ∨ (∃ k, (<[7 := 12]> (<[2 := 4]> ∅) : gmap Z Z) !! k = Some 10)
     ∨ is_char_in_pairs 10 (<[7 := 12]> (<[2 := 4]> ∅)) = true).
Proof.
  assert (H : find_quote_position
                (py "f('a', " ++ dquote :: py "it's" ++ dquote :: py ")")
              = Ok (<[7 := 12]> (<[2 := 4]> ∅)))
    by (vm_compute; reflexivity).
  split; [exact H|].
  apply (quote_map_complete _ _ H 10 "'"%char); [lia|reflexivity|by left].
Defined.
